(** * Progressive small-progress-measures parity solver (libggg)

    A shallow embedding of [ProgressiveSmallProgressMeasuresSolver]
    (solve, init, pm_less, pm_copy, prog, canlift, lift, update, todo_push,
    todo_pop) and the properties of it that the specification states.

    Conventions of the embedding.
    - Every C++ [int] is a [Z].  All values that the solver stores are
      bounded by the number of vertices, so no 32-bit wrap-around is
      written out.
    - A [std::vector<int>] is a [list Z]; [a[i]] is [rd a i] and
      [a[i] = v] is [wr a i v].  An access outside the vector is undefined
      behaviour in the source; here a read yields 0 and a write is dropped,
      and the theorems are stated for graphs on which every access is in
      range.
    - The solver object is the record [Solver]; every member function takes
      the object and returns the new one.
    - Vertices are identified with their position in the enumeration
      [boost::vertices], which is what [vertex_to_node] and
      [node_to_vertex] compute. *)

From Stdlib Require Import ZArith List Lia Bool ZifyBool.
From stdpp Require Import base list gmap.
Import ListNotations.
Local Open Scope Z_scope.

(** ** Vectors of ints *)

Definition rd (a : list Z) (i : Z) : Z := default 0 (a !! Z.to_nat i).
Definition wr (a : list Z) (i : Z) (v : Z) : list Z := <[Z.to_nat i := v]> a.

(** [v.resize(n)]: truncation, or extension by value-initialised elements. *)
Definition resize (a : list Z) (n : Z) : list Z :=
  take (Z.to_nat n) a ++ replicate (Z.to_nat n - length a)%nat 0.

(** [for (int i = 0; i < n; i++) a[i] = v] *)
Fixpoint fill_from (fuel : nat) (a : list Z) (i n v : Z) : list Z :=
  match fuel with
  | O => a
  | S f => if i <? n then fill_from f (wr a i v) (i + 1) n v else a
  end.
Definition fill (a : list Z) (n v : Z) : list Z := fill_from (Z.to_nat n) a 0 n v.

(** [for (int i = 0; i < k; i++) dst[i] = src[i]] *)
Fixpoint vec_copy_from (fuel : nat) (dst src : list Z) (i n : Z) : list Z :=
  match fuel with
  | O => dst
  | S f => if i <? n then vec_copy_from f (wr dst i (rd src i)) src (i + 1) n else dst
  end.
Definition vec_copy (n : Z) (dst src : list Z) : list Z :=
  vec_copy_from (Z.to_nat n) dst src 0 n.

(** ** The parity graph *)

Record VertexProps := mkVertex {
  player : Z;
  priority : Z;
  out_edges : list Z   (* targets, as node numbers, in out-edge order *)
}.

Definition Graph := list VertexProps.

Definition num_vertices (g : Graph) : Z := Z.of_nat (length g).
Definition vertex_at (g : Graph) (node : Z) : VertexProps :=
  default (mkVertex 0 0 []) (g !! Z.to_nat node).
Definition vplayer (g : Graph) (node : Z) : Z := player (vertex_at g node).
Definition vpriority (g : Graph) (node : Z) : Z := priority (vertex_at g node).
Definition vout (g : Graph) (node : Z) : list Z := out_edges (vertex_at g node).

(** Modelled from the spec: [graphs::priority_utilities::get_max_priority]
    is declared in a header that is not part of the sources at hand; the
    specification describes it as the maximum priority occurring in the
    graph, priorities being natural numbers. *)
Definition get_max_priority (g : Graph) : Z :=
  fold_right Z.max 0 (map priority g).

(** ** The solver object *)

Record Solver := mkSolver {
  k : Z;
  pms : list Z;
  strategy : list Z;
  counts : list Z;
  tmp : list Z;
  best : list Z;
  dirty : list Z;
  unstable : list Z;
  todo : list Z;          (* std::queue<int>, front first *)
  lift_count : Z;
  lift_attempt : Z
}.

Definition set_pms (s : Solver) (v : list Z) : Solver :=
  mkSolver (k s) v (strategy s) (counts s) (tmp s) (best s) (dirty s)
           (unstable s) (todo s) (lift_count s) (lift_attempt s).
Definition set_strategy (s : Solver) (v : list Z) : Solver :=
  mkSolver (k s) (pms s) v (counts s) (tmp s) (best s) (dirty s)
           (unstable s) (todo s) (lift_count s) (lift_attempt s).
Definition set_counts (s : Solver) (v : list Z) : Solver :=
  mkSolver (k s) (pms s) (strategy s) v (tmp s) (best s) (dirty s)
           (unstable s) (todo s) (lift_count s) (lift_attempt s).
Definition set_tmp (s : Solver) (v : list Z) : Solver :=
  mkSolver (k s) (pms s) (strategy s) (counts s) v (best s) (dirty s)
           (unstable s) (todo s) (lift_count s) (lift_attempt s).
Definition set_best (s : Solver) (v : list Z) : Solver :=
  mkSolver (k s) (pms s) (strategy s) (counts s) (tmp s) v (dirty s)
           (unstable s) (todo s) (lift_count s) (lift_attempt s).
Definition set_dirty (s : Solver) (v : list Z) : Solver :=
  mkSolver (k s) (pms s) (strategy s) (counts s) (tmp s) (best s) v
           (unstable s) (todo s) (lift_count s) (lift_attempt s).
Definition set_unstable (s : Solver) (v : list Z) : Solver :=
  mkSolver (k s) (pms s) (strategy s) (counts s) (tmp s) (best s) (dirty s)
           v (todo s) (lift_count s) (lift_attempt s).
Definition set_todo (s : Solver) (v : list Z) : Solver :=
  mkSolver (k s) (pms s) (strategy s) (counts s) (tmp s) (best s) (dirty s)
           (unstable s) v (lift_count s) (lift_attempt s).
Definition set_lift_count (s : Solver) (v : Z) : Solver :=
  mkSolver (k s) (pms s) (strategy s) (counts s) (tmp s) (best s) (dirty s)
           (unstable s) (todo s) v (lift_attempt s).
Definition set_lift_attempt (s : Solver) (v : Z) : Solver :=
  mkSolver (k s) (pms s) (strategy s) (counts s) (tmp s) (best s) (dirty s)
           (unstable s) (todo s) (lift_count s) v.

(** A solver object as its constructor leaves it. *)
Definition fresh_solver : Solver := mkSolver 0 [] [] [] [] [] [] [] [] 0 0.

(** [pms.data() + k * node], read as the measure of [node]. *)
Definition pm_at (kk : Z) (p : list Z) (node : Z) : list Z :=
  take (Z.to_nat kk) (drop (Z.to_nat (kk * node)) p).
Definition pm (s : Solver) (node : Z) : list Z := pm_at (k s) (pms s) node.

(** ** pm_less *)

(** The loop [for (int i = start; i >= d; i -= 2)] of [pm_less]. *)
Fixpoint pm_less_scan (fuel : nat) (cnts a b : list Z) (i d : Z) : bool :=
  match fuel with
  | O => false
  | S f =>
      if i >=? d then
        if rd a i =? rd b i then pm_less_scan f cnts a b (i - 2) d
        else if (rd a i >? rd cnts i) && (rd b i >? rd cnts i) then false
        else rd a i <? rd b i
      else false
  end.

Definition pm_start (kk pl : Z) : Z :=
  if Z.land kk 1 =? pl then kk - 2 else kk - 1.

Definition pm_less (kk : Z) (cnts a b : list Z) (d pl : Z) : bool :=
  if rd b pl =? -1 then negb (rd a pl =? -1)
  else if rd a pl =? -1 then false
  else pm_less_scan (Z.to_nat (pm_start kk pl + 1)) cnts a b (pm_start kk pl) d.

(** ** pm_copy *)

(** [for (int i = pl; i < k; i += 2) dst[i] = src[i]], the destination
    being the block of [p] that starts at [off]. *)
Fixpoint pm_copy_from (fuel : nat) (p : list Z) (off : Z) (src : list Z) (i kk : Z)
  : list Z :=
  match fuel with
  | O => p
  | S f =>
      if i <? kk then pm_copy_from f (wr p (off + i) (rd src i)) off src (i + 2) kk
      else p
  end.

Definition pm_copy (kk : Z) (p : list Z) (off : Z) (src : list Z) (pl : Z) : list Z :=
  pm_copy_from (Z.to_nat kk) p off src pl kk.

(** ** prog *)

(** [for (; i < d; i += 2) dst[i] = 0]; returns the vector and the final [i]. *)
Fixpoint prog_reset (fuel : nat) (dst : list Z) (i d : Z) : list Z * Z :=
  match fuel with
  | O => (dst, i)
  | S f => if i <? d then prog_reset f (wr dst i 0) (i + 2) d else (dst, i)
  end.

(** The carry loop [for (; i < k; i += 2)]; returns the vector and the final
    carry. *)
Fixpoint prog_carry (fuel : nat) (cnts dst src : list Z) (i kk carry : Z)
  : list Z * Z :=
  match fuel with
  | O => (dst, carry)
  | S f =>
      if i <? kk then
        let v := rd src i + carry in
        if v >? rd cnts i
        then prog_carry f cnts (wr dst i 0) src (i + 2) kk 1
        else prog_carry f cnts (wr dst i v) src (i + 2) kk 0
      else (dst, carry)
  end.

Definition prog (kk : Z) (cnts dst src : list Z) (d pl : Z) : list Z :=
  if rd src pl =? -1 then wr dst pl (-1)
  else
    let '(dst1, i) := prog_reset (Z.to_nat d) dst pl d in
    let carry := if Z.rem d 2 =? pl then 1 else 0 in
    let '(dst2, c) := prog_carry (Z.to_nat kk) cnts dst1 src i kk carry in
    if c =? 0 then dst2 else wr dst2 pl (-1).

(** [prog(tmp.data(), pms.data() + k * to_node, d, pl)] *)
Definition prog_tmp (s : Solver) (to_node d pl : Z) : Solver :=
  set_tmp s (prog (k s) (counts s) (tmp s) (pm s to_node) d pl).

(** [pm_copy(pm, src, pl)] with [pm = pms.data() + k * node]. *)
Definition pm_store (s : Solver) (node : Z) (src : list Z) (pl : Z) : Solver :=
  set_pms s (pm_copy (k s) (pms s) (k s * node) src pl).

(** One turn of the loop that keeps the smallest progression in [best]:
    [prog(tmp, ...); if (best_to == -1 || pm_less(tmp, best, d, pl))
    { best = tmp; best_to = to_node; }]. *)
Definition best_step (d pl : Z) (acc : Solver * Z) (to_node : Z) : Solver * Z :=
  let '(s, best_to) := acc in
  let s1 := prog_tmp s to_node d pl in
  if (best_to =? -1) || pm_less (k s1) (counts s1) (tmp s1) (best s1) d pl
  then (set_best s1 (vec_copy (k s1) (best s1) (tmp s1)), to_node)
  else (s1, best_to).

(** ** canlift *)

Fixpoint canlift_owner (s : Solver) (node d pl : Z) (es : list Z) : bool * Solver :=
  match es with
  | [] => (false, s)
  | to_node :: rest =>
      let s1 := prog_tmp s to_node d pl in
      if pm_less (k s1) (counts s1) (pm s1 node) (tmp s1) d pl then (true, s1)
      else canlift_owner s1 node d pl rest
  end.

Definition canlift (g : Graph) (s : Solver) (node pl : Z) : bool * Solver :=
  if rd (pm s node) pl =? -1 then (false, s)
  else
    let d := vpriority g node in
    if vplayer g node =? pl then canlift_owner s node d pl (vout g node)
    else
      let '(s1, best_to) := fold_left (best_step d pl) (vout g node) (s, -1) in
      if best_to =? -1 then (false, s1)
      else (pm_less (k s1) (counts s1) (pm s1 node) (best s1) d pl, s1).

(** ** lift *)

(** The body shared by both branches of the owner attempt:
    [prog(tmp, pms + k * to, d, pl_max); if (pm_less(pm, tmp, d, pl_max))
    { pm_copy(pm, tmp, pl_max); best_ch<pl_max> = to; }]. *)
Definition lift_try (node d pl_max : Z) (acc : Solver * Z * Z) (to_node : Z)
  : Solver * Z * Z :=
  let '(s, best_ch0, best_ch1) := acc in
  let s1 := prog_tmp s to_node d pl_max in
  if pm_less (k s1) (counts s1) (pm s1 node) (tmp s1) d pl_max
  then
    let s2 := pm_store s1 node (tmp s1) pl_max in
    if pl_max =? 0 then (s2, to_node, best_ch1) else (s2, best_ch0, to_node)
  else (s1, best_ch0, best_ch1).

Definition lift_owner (g : Graph) (s : Solver) (node target d pl_max : Z)
  : Solver * Z * Z :=
  if negb (rd (pm s node) pl_max =? -1) then
    if negb (target =? -1) then lift_try node d pl_max (s, -1, -1) target
    else fold_left (lift_try node d pl_max) (vout g node) (s, -1, -1)
  else (s, -1, -1).

Definition lift_opponent (g : Graph) (acc : Solver * Z * Z) (node target d pl_min : Z)
  : Solver * Z * Z :=
  let '(s, best_ch0, best_ch1) := acc in
  if negb (rd (pm s node) pl_min =? -1)
     && ((target =? -1) || (target =? rd (strategy s) node))
  then
    let '(s1, best_to) := fold_left (best_step d pl_min) (vout g node) (s, -1) in
    let s2 := set_strategy s1 (wr (strategy s1) node best_to) in
    if pm_less (k s2) (counts s2) (pm s2 node) (best s2) d pl_min
    then
      let s3 := pm_store s2 node (best s2) pl_min in
      if pl_min =? 0 then (s3, best_to, best_ch1) else (s3, best_ch0, best_to)
    else (s2, best_ch0, best_ch1)
  else (s, best_ch0, best_ch1).

(** [counts[d]--] *)
Definition dec_counts (s : Solver) (d : Z) : Solver :=
  set_counts s (wr (counts s) d (rd (counts s) d - 1)).

Definition lift_shrink (s : Solver) (node d : Z) (ch0 ch1 : bool) : Solver :=
  let s1 :=
    if ch0 && (rd (pm s node) 0 =? -1)
    then (if Z.land d 1 =? 0 then dec_counts s d else s)
    else s in
  if ch1 && (rd (pm s1 node) 1 =? -1)
  then (if Z.land d 1 =? 1 then dec_counts s1 d else s1)
  else s1.

Definition lift (g : Graph) (s : Solver) (node target : Z) : bool * Solver :=
  if (rd (pm s node) 0 =? -1) && (rd (pm s node) 1 =? -1) then (false, s)
  else
    let pl_max := vplayer g node in
    let pl_min := 1 - pl_max in
    let d := vpriority g node in
    let '(s2, best_ch0, best_ch1) :=
      lift_opponent g (lift_owner g s node target d pl_max) node target d pl_min in
    let ch0 := negb (best_ch0 =? -1) in
    let ch1 := negb (best_ch1 =? -1) in
    let s3 := lift_shrink s2 node d ch0 ch1 in
    if ch0 || ch1 then (true, set_lift_count s3 (lift_count s3 + 1))
    else (false, set_lift_attempt s3 (lift_attempt s3 + 1)).

(** ** The worklist *)

Definition todo_push (s : Solver) (node : Z) : Solver :=
  if rd (dirty s) node =? 0
  then set_todo (set_dirty s (wr (dirty s) node 1)) (todo s ++ [node])
  else s.

Definition todo_pop (s : Solver) : Z * Solver :=
  match todo s with
  | [] => (0, s)   (* never called on an empty queue *)
  | node :: rest => (node, set_dirty (set_todo s rest) (wr (dirty s) node 0))
  end.

(** The nodes [0 .. num_vertices - 1] in enumeration order. *)
Definition nodes (g : Graph) : list Z := seqZ 0 (num_vertices g).

(** The double loop over all vertices and their out-edges that finds the
    predecessors of [n]: on each edge [other -> n],
    [if (lift(from_node, n)) todo_push(from_node)]. *)
Definition lift_pred_edge (g : Graph) (n other : Z) (s : Solver) (tgt : Z) : Solver :=
  if tgt =? n then
    let '(r, s1) := lift g s other n in
    if r then todo_push s1 other else s1
  else s.

Definition lift_preds (g : Graph) (s : Solver) (n : Z) : Solver :=
  fold_left (fun s other => fold_left (lift_pred_edge g n other) (vout g other) s)
            (nodes g) s.

(** ** update: the stabilisation pass *)

(** First loop of [update]: [unstable[i] = 0; if (pms[k * i + pl] == -1 ||
    canlift(i, pl)) { unstable[i] = 1; q.push(i); }]. *)
Definition update_mark (g : Graph) (pl : Z) (acc : Solver * list Z) (i : Z)
  : Solver * list Z :=
  let '(s, q) := acc in
  let s1 := set_unstable s (wr (unstable s) i 0) in
  if rd (pms s1) (k s1 * i + pl) =? -1
  then (set_unstable s1 (wr (unstable s1) i 1), q ++ [i])
  else
    let '(r, s2) := canlift g s1 i pl in
    if r then (set_unstable s2 (wr (unstable s2) i 1), q ++ [i]) else (s2, q).

(** The inner loop of the propagation: like [best_step], but successors
    already marked unstable are skipped. *)
Definition update_best_step (d pl : Z) (acc : Solver * Z) (to_node : Z) : Solver * Z :=
  let '(s, best_to) := acc in
  if negb (rd (unstable s) to_node =? 0) then (s, best_to)
  else best_step d pl (s, best_to) to_node.

(** What the propagation does on one edge [other -> tgt] while [n] is the
    node taken from [q]. *)
Definition update_edge (g : Graph) (pl n other : Z) (acc : Solver * list Z) (tgt : Z)
  : Solver * list Z :=
  let '(s, q) := acc in
  if tgt =? n then
    let m := other in
    if negb (rd (unstable s) m =? 0) then (s, q)
    else if negb (vplayer g other =? pl) then
      let d := vpriority g other in
      let '(s1, best_to) :=
        fold_left (update_best_step d pl) (vout g other) (s, -1) in
      if best_to =? -1 then (s1, q)
      else if pm_less (k s1) (counts s1) (pm s1 m) (best s1) d pl then (s1, q)
      else (set_unstable s1 (wr (unstable s1) m 1), q ++ [m])
    else (s, q)
  else (s, q).

Definition update_visit (g : Graph) (pl n : Z) (acc : Solver * list Z)
  : Solver * list Z :=
  fold_left (fun acc other => fold_left (update_edge g pl n other) (vout g other) acc)
            (nodes g) acc.

(** [while (!q.empty())]: [None] when the fuel does not suffice. *)
Fixpoint update_loop (fuel : nat) (g : Graph) (pl : Z) (s : Solver) (q : list Z)
  : option Solver :=
  match q with
  | [] => Some s
  | n :: rest =>
      match fuel with
      | O => None
      | S f => let '(s1, q1) := update_visit g pl n (s, rest) in
               update_loop f g pl s1 q1
      end
  end.

(** Last loop of [update]. *)
Definition update_final (g : Graph) (pl : Z) (s : Solver) (i : Z) : Solver :=
  if (rd (unstable s) i =? 0) && negb (rd (pms s) (k s * i + 1 - pl) =? -1) then
    if negb (Z.land (vpriority g i) 1 =? pl) then
      let s1 := dec_counts s (vpriority g i) in
      let s2 := set_pms s1 (wr (pms s1) (k s1 * i + 1 - pl) (-1)) in
      todo_push s2 i
    else s
  else s.

Definition update (fuel : nat) (g : Graph) (s : Solver) (pl : Z) : option Solver :=
  let '(s1, q) := fold_left (update_mark g pl) (nodes g) (s, []) in
  match update_loop fuel g pl s1 q with
  | None => None
  | Some s2 => Some (fold_left (update_final g pl) (nodes g) s2)
  end.

(** ** init and solve *)

Definition init (g : Graph) (s : Solver) : Solver :=
  let k0 := get_max_priority g + 1 in
  let kk := if k0 <? 2 then 2 else k0 in
  let vertex_count := num_vertices g in
  mkSolver kk
           (resize (pms s) (kk * vertex_count))
           (resize (strategy s) vertex_count)
           (resize (counts s) kk)
           (resize (tmp s) kk)
           (resize (best s) kk)
           (resize (dirty s) vertex_count)
           (resize (unstable s) vertex_count)
           (todo s) (lift_count s) (lift_attempt s).

(** The solution object: [RSolution::winning_regions_] and
    [SSolution::strategy_], both [std::map]s keyed by vertex. *)
Record Solution := mkSolution {
  winning_regions_ : gmap Z Z;
  strategy_ : gmap Z Z
}.

Definition empty_solution : Solution := mkSolution ∅ ∅.

Definition set_winning_player (sol : Solution) (v w : Z) : Solution :=
  mkSolution (<[v := w]> (winning_regions_ sol)) (strategy_ sol).
Definition set_solution_strategy (sol : Solution) (v t : Z) : Solution :=
  mkSolution (winning_regions_ sol) (<[v := t]> (strategy_ sol)).

(** [counts[priority]++] for every vertex. *)
Definition count_priority (g : Graph) (s : Solver) (node : Z) : Solver :=
  set_counts s (wr (counts s) (vpriority g node) (rd (counts s) (vpriority g node) + 1)).

(** The part of [solve] before the first lift. *)
Definition solve_setup (g : Graph) (s : Solver) : Solver :=
  let s1 := init g s in
  let s2 := set_pms s1 (fill (pms s1) (k s1 * num_vertices g) 0) in
  let s3 := set_strategy s2 (fill (strategy s2) (num_vertices g) (-1)) in
  let s4 := set_counts s3 (fill (counts s3) (k s3) 0) in
  let s5 := fold_left (count_priority g) (nodes g) s4 in
  let s6 := set_dirty s5 (fill (dirty s5) (num_vertices g) 0) in
  set_lift_attempt (set_lift_count s6 0) 0.

(** [for (int n = num_vertices - 1; n >= 0; n--) if (lift(n, -1)) ...] *)
Definition solve_first (g : Graph) (s : Solver) (n : Z) : Solver :=
  let '(r, s1) := lift g s n (-1) in
  if r then lift_preds g s1 n else s1.

(** [while (!todo.empty())]: [None] when the fuel does not suffice. *)
Fixpoint solve_loop (fuel : nat) (g : Graph) (s : Solver) (last_update : Z)
  : option Solver :=
  match todo s with
  | [] => Some s
  | _ :: _ =>
      match fuel with
      | O => None
      | S f =>
          let '(n, s1) := todo_pop s in
          let s2 := lift_preds g s1 n in
          if last_update + 10 * num_vertices g <? lift_count s2 then
            match update fuel g s2 0 with
            | None => None
            | Some s3 =>
                match update fuel g s3 1 with
                | None => None
                | Some s4 => solve_loop f g s4 (lift_count s2)
                end
            end
          else solve_loop f g s2 last_update
      end
  end.

(** The result extraction at the end of [solve]. *)
Definition extract_vertex (g : Graph) (s : Solver) (sol : Solution) (node : Z)
  : Solution :=
  let winner := if rd (pm s node) 0 =? -1 then 0 else 1 in
  let sol1 := set_winning_player sol node winner in
  if (vplayer g node =? winner) && negb (rd (strategy s) node =? -1)
  then set_solution_strategy sol1 node (rd (strategy s) node)
  else sol1.

Definition extract (g : Graph) (s : Solver) : Solution :=
  fold_left (extract_vertex g s) (nodes g) empty_solution.

(** [solve]: the solution together with the solver object it leaves behind. *)
Definition solve (fuel : nat) (g : Graph) (s : Solver) : option (Solution * Solver) :=
  let s1 := solve_setup g s in
  let s2 := fold_left (solve_first g) (rev (nodes g)) s1 in
  match solve_loop fuel g s2 0 with
  | None => None
  | Some s3 => Some (extract g s3, s3)
  end.

(** ** Reference definitions taken from the specification *)

(** A player's counter as the specification sees it: saturated, or the
    digits at the coordinates the player owns, lowest coordinate first. *)
Inductive counter :=
  | Top
  | Fin (digits : list Z).

(** The coordinates owned by player [p]: [{i : i mod 2 == p}] below [kk]. *)
Definition owned (kk p : Z) : list Z :=
  filter (fun i => i mod 2 = p) (seqZ 0 kk).

Definition counter_of (kk : Z) (a : list Z) (p : Z) : counter :=
  if rd a p =? -1 then Top else Fin (map (rd a) (owned kk p)).

(** Mixed-radix addition of a carry over (coordinate, digit) pairs;
    coordinates below [d] are reset and leave the carry waiting. *)
Fixpoint carry_digits (cnts : list Z) (d : Z) (cds : list (Z * Z)) (carry : Z)
  : list Z * Z :=
  match cds with
  | [] => ([], carry)
  | (i, x) :: rest =>
      if i <? d then
        let '(ds, c) := carry_digits cnts d rest carry in (0 :: ds, c)
      else
        let v := x + carry in
        if v >? rd cnts i
        then let '(ds, c) := carry_digits cnts d rest 1 in (0 :: ds, c)
        else let '(ds, c) := carry_digits cnts d rest 0 in (v :: ds, c)
  end.

(** The progression operator as section 4.1 of the specification words it. *)
Definition prog_reference (kk : Z) (cnts : list Z) (c : counter) (d p : Z) : counter :=
  match c with
  | Top => Top
  | Fin ds =>
      let '(ds', c') :=
        carry_digits cnts d (combine (owned kk p) ds) (if d mod 2 =? p then 1 else 0) in
      if c' =? 1 then Top else Fin ds'
  end.



(** * Properties *)

Ltac Zify.zify_post_hook ::= Z.to_euclidean_division_equations.

(** Case analysis on the integer tests that occur in a goal. *)
Ltac zbool :=
  repeat match goal with
    | |- context [?a >? ?b] => rewrite (Z.gtb_ltb a b)
    | |- context [?a >=? ?b] => rewrite (Z.geb_leb a b)
    | |- context [?a <? ?b] => destruct (Z.ltb_spec a b)
    | |- context [?a <=? ?b] => destruct (Z.leb_spec a b)
    | |- context [?a =? ?b] => destruct (Z.eqb_spec a b)
    end.

(** ** Vectors *)

Lemma rd_wr_eq (a : list Z) (i v : Z) :
  (Z.to_nat i < length a)%nat -> rd (wr a i v) i = v.
Proof.
  intros H. unfold rd, wr. by rewrite list_lookup_insert_eq.
Qed.

Lemma rd_wr_ne (a : list Z) (i j v : Z) :
  Z.to_nat i <> Z.to_nat j -> rd (wr a i v) j = rd a j.
Proof.
  intros H. unfold rd, wr. by rewrite list_lookup_insert_ne.
Qed.

Lemma rd_wr_ne' (a : list Z) (i j v : Z) :
  0 <= i -> 0 <= j -> i <> j -> rd (wr a i v) j = rd a j.
Proof. intros. apply rd_wr_ne. lia. Qed.

Lemma length_wr (a : list Z) (i v : Z) : length (wr a i v) = length a.
Proof. apply length_insert. Qed.

Lemma land_1_mod (d : Z) : Z.land d 1 = d mod 2.
Proof. change 1 with (Z.ones 1). by rewrite Z.land_ones. Qed.

(** ** The coordinates of a player, as the loops enumerate them *)

Fixpoint stride (fuel : nat) (i kk : Z) : list Z :=
  match fuel with
  | O => []
  | S f => if i <? kk then i :: stride f (i + 2) kk else []
  end.

Lemma stride_fuel (f1 f2 : nat) (i kk : Z) :
  (Z.to_nat (kk - i) <= f1)%nat -> (Z.to_nat (kk - i) <= f2)%nat ->
  stride f1 i kk = stride f2 i kk.
Proof.
  revert f2 i. induction f1 as [|f1 IH]; intros f2 i H1 H2.
  - destruct f2; simpl; [done|]. destruct (Z.ltb_spec i kk); [lia|done].
  - destruct f2; simpl.
    + destruct (Z.ltb_spec i kk); [lia|done].
    + destruct (Z.ltb_spec i kk); [|done]. f_equal. apply IH; lia.
Qed.

Lemma filter_seqZ_stride (p : Z) (n : nat) : forall (i : Z) (f : nat),
  p = 0 \/ p = 1 -> (n <= f)%nat -> 0 <= i ->
  filter (fun x => x mod 2 = p) (seqZ i (Z.of_nat n))
  = stride f (if decide (i mod 2 = p) then i else i + 1) (i + Z.of_nat n).
Proof.
  induction n as [|n IH]; intros i f Hp Hf Hi.
  - rewrite seqZ_nil by lia.
    destruct f; simpl; [done|].
    case_decide; zbool; try done; lia.
  - destruct f as [|f]; [lia|].
    rewrite seqZ_cons by lia.
    replace (Z.pred (Z.of_nat (S n))) with (Z.of_nat n) by lia.
    specialize (IH (Z.succ i) f Hp ltac:(lia) ltac:(lia)).
    replace (Z.succ i + Z.of_nat n) with (i + Z.of_nat (S n)) in IH by lia.
    destruct (decide (i mod 2 = p)) as [Hm|Hm].
    + rewrite filter_cons_True by done.
      simpl stride. destruct (Z.ltb_spec i (i + Z.of_nat (S n))); [|lia]. f_equal.
      rewrite IH. rewrite decide_False by lia.
      f_equal. lia.
    + rewrite filter_cons_False by done.
      rewrite IH. rewrite decide_True by lia.
      replace (Z.succ i) with (i + 1) by lia.
      apply stride_fuel; lia.
Qed.

Lemma owned_stride (kk p : Z) :
  p = 0 \/ p = 1 -> owned kk p = stride (Z.to_nat kk) p kk.
Proof.
  intros Hp. unfold owned.
  destruct (Z.le_gt_cases kk 0) as [Hk|Hk].
  - rewrite seqZ_nil by lia. replace (Z.to_nat kk) with 0%nat by lia. done.
  - replace kk with (Z.of_nat (Z.to_nat kk)) at 1 by lia.
    rewrite (filter_seqZ_stride p (Z.to_nat kk) 0 (Z.to_nat kk)) by (done || lia).
    replace (0 + Z.of_nat (Z.to_nat kk)) with kk by lia.
    destruct Hp as [-> | ->].
    + rewrite decide_True by done. done.
    + rewrite decide_False by done. done.
Qed.

(** ** prog against its reference definition *)

(** The two loops of [prog] as one loop over the coordinates of the player. *)
Fixpoint prog_fused (fuel : nat) (cnts dst src : list Z) (i d kk carry : Z)
  : list Z * Z :=
  match fuel with
  | O => (dst, carry)
  | S f =>
      if i <? kk then
        if i <? d then prog_fused f cnts (wr dst i 0) src (i + 2) d kk carry
        else
          let v := rd src i + carry in
          if v >? rd cnts i
          then prog_fused f cnts (wr dst i 0) src (i + 2) d kk 1
          else prog_fused f cnts (wr dst i v) src (i + 2) d kk 0
      else (dst, carry)
  end.

Lemma prog_carry_fused (cnts src : list Z) (d kk : Z) (F1 : nat) :
  forall (F2 : nat) (dst : list Z) (i c : Z),
  d <= i -> (Z.to_nat (kk - i) <= F1)%nat -> (Z.to_nat (kk - i) <= F2)%nat ->
  prog_carry F1 cnts dst src i kk c = prog_fused F2 cnts dst src i d kk c.
Proof.
  induction F1 as [|F1 IH]; intros F2 dst i c Hd H1 H2.
  - destruct F2; simpl; [done|]. destruct (Z.ltb_spec i kk); [lia|done].
  - destruct F2; simpl.
    + destruct (Z.ltb_spec i kk); [lia|done].
    + destruct (Z.ltb_spec i kk); [|done].
      destruct (Z.ltb_spec i d); [lia|].
      destruct (rd src i + c >? rd cnts i); apply IH; lia.
Qed.

Lemma prog_reset_fused (cnts src : list Z) (d kk c : Z) (f1 : nat) :
  forall (F : nat) (dst : list Z) (i : Z),
  0 <= i -> d <= kk ->
  (Z.to_nat (d - i) <= f1)%nat -> (Z.to_nat (kk - i) <= F)%nat ->
  (let '(dst1, i1) := prog_reset f1 dst i d in
   prog_carry (Z.to_nat kk) cnts dst1 src i1 kk c)
  = prog_fused F cnts dst src i d kk c.
Proof.
  induction f1 as [|f1 IH]; intros F dst i Hi Hd H1 H2.
  - simpl. apply prog_carry_fused; lia.
  - simpl. destruct (Z.ltb_spec i d) as [Hlt|Hge].
    + destruct F as [|F]; [lia|]. simpl.
      destruct (Z.ltb_spec i kk); [|lia].
      destruct (Z.ltb_spec i d); [|lia].
      apply IH; lia.
    + apply prog_carry_fused; lia.
Qed.

Lemma prog_fused_reference (cnts src : list Z) (d kk : Z) (fuel : nat) :
  forall (dst : list Z) (i c : Z),
  0 <= i -> (Z.to_nat kk <= length dst)%nat ->
  let '(dst', c') := prog_fused fuel cnts dst src i d kk c in
  carry_digits cnts d (combine (stride fuel i kk) (map (rd src) (stride fuel i kk))) c
    = (map (rd dst') (stride fuel i kk), c')
  /\ length dst' = length dst
  /\ (c = 0 \/ c = 1 -> c' = 0 \/ c' = 1)
  /\ (forall j, 0 <= j -> j < i \/ (j - i) mod 2 = 1 -> rd dst' j = rd dst j).
Proof.
  induction fuel as [|fuel IH]; intros dst i c Hi Hlen; simpl.
  - done.
  - destruct (Z.ltb_spec i kk) as [Hlt|Hge]; [|done].
    assert (Hin : (Z.to_nat i < length dst)%nat) by lia.
    destruct (Z.ltb_spec i d) as [Hid|Hid].
    + specialize (IH (wr dst i 0) (i + 2) c ltac:(lia)).
      rewrite length_wr in IH. specialize (IH Hlen).
      destruct (prog_fused fuel cnts (wr dst i 0) src (i + 2) d kk c) as [dst' c'].
      destruct IH as (IH1 & IH2 & IH3 & IH4).
      simpl. destruct (Z.ltb_spec i d); [|lia].
      rewrite IH1. repeat split; try done.
      * rewrite (IH4 i) by lia. by rewrite rd_wr_eq.
      * intros j Hj Hj'. rewrite IH4 by lia. apply rd_wr_ne; lia.
    + destruct (Z.gtb_spec (rd src i + c) (rd cnts i)) as [Hv|Hv].
      * specialize (IH (wr dst i 0) (i + 2) 1 ltac:(lia)).
        rewrite length_wr in IH. specialize (IH Hlen).
        destruct (prog_fused fuel cnts (wr dst i 0) src (i + 2) d kk 1) as [dst' c'].
        destruct IH as (IH1 & IH2 & IH3 & IH4).
        simpl. destruct (Z.ltb_spec i d); [lia|].
        destruct (Z.gtb_spec (rd src i + c) (rd cnts i)); [|lia].
        rewrite IH1. repeat split; try done.
        -- rewrite (IH4 i) by lia. by rewrite rd_wr_eq.
        -- intros _. apply IH3. by right.
        -- intros j Hj Hj'. rewrite IH4 by lia. apply rd_wr_ne; lia.
      * specialize (IH (wr dst i (rd src i + c)) (i + 2) 0 ltac:(lia)).
        rewrite length_wr in IH. specialize (IH Hlen).
        destruct (prog_fused fuel cnts (wr dst i (rd src i + c)) src (i + 2) d kk 0)
          as [dst' c'].
        destruct IH as (IH1 & IH2 & IH3 & IH4).
        simpl. destruct (Z.ltb_spec i d); [lia|].
        destruct (Z.gtb_spec (rd src i + c) (rd cnts i)); [lia|].
        rewrite IH1. repeat split; try done.
        -- rewrite (IH4 i) by lia. by rewrite rd_wr_eq.
        -- intros _. apply IH3. by left.
        -- intros j Hj Hj'. rewrite IH4 by lia. apply rd_wr_ne; lia.
Qed.

Lemma carry_digits_head (cnts : list Z) (d i x c : Z) (rest : list (Z * Z))
      (y : Z) (ds : list Z) (c' : Z) :
  carry_digits cnts d ((i, x) :: rest) c = (y :: ds, c') ->
  y = 0 \/ y = x + c.
Proof.
  simpl. destruct (i <? d).
  - destruct (carry_digits cnts d rest c). intros [= <- _ _]. by left.
  - destruct (x + c >? rd cnts i).
    + destruct (carry_digits cnts d rest 1). intros [= <- _ _]. by left.
    + destruct (carry_digits cnts d rest 0). intros [= <- _ _]. by right.
Qed.

(** C2. [prog] computes the progression of section 4.1: a saturated source
    gives a saturated result; otherwise the digits below [d] are reset, the
    carry ([1] iff [d mod 2 = pl]) is added mixed-radix from the first owned
    coordinate [>= d] on, and a carry left over saturates the result.  The
    coordinates of the other player are left as they were in [dst]. *)
Theorem prog_matches_reference (kk : Z) (cnts dst src : list Z) (d pl : Z) :
  2 <= kk -> (Z.to_nat kk <= length dst)%nat -> pl = 0 \/ pl = 1 ->
  0 <= d < kk -> -1 <= rd src pl ->
  counter_of kk (prog kk cnts dst src d pl) pl
    = prog_reference kk cnts (counter_of kk src pl) d pl
  /\ forall j, 0 <= j -> j mod 2 <> pl -> rd (prog kk cnts dst src d pl) j = rd dst j.
Proof.
  intros Hk Hlen Hpl Hd Hsrc.
  assert (Hpl0 : 0 <= pl < 2) by lia.
  unfold prog, counter_of at 2.
  destruct (Z.eqb_spec (rd src pl) (-1)) as [Htop|Hfin].
  { split.
    - unfold counter_of. rewrite rd_wr_eq by lia. done.
    - intros j Hj Hm. apply rd_wr_ne. lia. }
  simpl prog_reference.
  pose proof (prog_reset_fused cnts src d kk (if Z.rem d 2 =? pl then 1 else 0)
                (Z.to_nat d) (Z.to_nat kk) dst pl) as Hfuse.
  destruct (prog_reset (Z.to_nat d) dst pl d) as [dst1 i1].
  rewrite Hfuse by lia. clear Hfuse.
  replace (Z.rem d 2) with (d mod 2) by lia.
  set (c0 := if d mod 2 =? pl then 1 else 0).
  assert (Hc0 : c0 = 0 \/ c0 = 1) by (subst c0; destruct (d mod 2 =? pl); lia).
  pose proof (prog_fused_reference cnts src d kk (Z.to_nat kk) dst pl c0
                ltac:(lia) Hlen) as Href.
  destruct (prog_fused (Z.to_nat kk) cnts dst src pl d kk c0) as [dst2 c2].
  destruct Href as (Hdig & Hlen2 & Hc2 & Hframe).
  specialize (Hc2 Hc0).
  rewrite (owned_stride kk pl Hpl). rewrite Hdig.
  assert (Hhead : 0 <= rd dst2 pl).
  { destruct (Z.to_nat kk) as [|f] eqn:Hf; [lia|].
    simpl in Hdig. destruct (Z.ltb_spec pl kk); [|lia].
    simpl in Hdig. apply carry_digits_head in Hdig. lia. }
  split.
  - destruct Hc2 as [-> | ->]; simpl.
    + unfold counter_of. destruct (Z.eqb_spec (rd dst2 pl) (-1)); [lia|].
      by rewrite (owned_stride kk pl Hpl).
    + unfold counter_of. rewrite rd_wr_eq by lia. done.
  - intros j Hj Hm.
    assert (Hj2 : rd dst2 j = rd dst j) by (apply Hframe; lia).
    destruct (c2 =? 0); [done|].
    rewrite rd_wr_ne by lia. done.
Qed.

(** A run of [prog] that meets the hypotheses of the theorem above. *)
Lemma prog_matches_reference_witness :
  counter_of 4 (prog 4 [1; 1; 1; 1] [0; 0; 0; 0] [1; 0; 1; 0] 2 0) 0
    = prog_reference 4 [1; 1; 1; 1] (counter_of 4 [1; 0; 1; 0] 0) 2 0
  /\ forall j, 0 <= j -> j mod 2 <> 0 ->
       rd (prog 4 [1; 1; 1; 1] [0; 0; 0; 0] [1; 0; 1; 0] 2 0) j = rd [0; 0; 0; 0] j.
Proof.
  apply (prog_matches_reference 4 [1; 1; 1; 1] [0; 0; 0; 0] [1; 0; 1; 0] 2 0).
  - lia.
  - simpl. lia.
  - by left.
  - lia.
  - vm_compute. discriminate.
Defined.

(** ** pm_less *)


Lemma pm_start_parity (kk pl : Z) :
  pl = 0 \/ pl = 1 ->
  pm_start kk pl mod 2 = pl /\ kk - 2 <= pm_start kk pl <= kk - 1.
Proof.
  intros Hpl. unfold pm_start. rewrite land_1_mod.
  destruct (Z.eqb_spec (kk mod 2) pl); lia.
Qed.





(** ** Well-formed graphs and solver objects *)

(** The input contract of the specification: owners are 0 or 1, priorities
    are natural numbers, every vertex has an out-edge, and edges lead to
    vertices of the graph. *)
Definition valid_vertex (n : Z) (v : VertexProps) : bool :=
  ((player v =? 0) || (player v =? 1))
  && (0 <=? priority v)
  && (0 <? Z.of_nat (length (out_edges v)))
  && forallb (fun t => (0 <=? t) && (t <? n)) (out_edges v).

Definition valid_graph (g : Graph) : bool :=
  forallb (valid_vertex (num_vertices g)) g.

(** The vectors of the solver object have the sizes [init] gives them. *)
Definition sized (g : Graph) (s : Solver) : bool :=
  (2 <=? k s)
  && forallb (fun v => priority v <? k s) g
  && (Z.of_nat (length (pms s)) =? k s * num_vertices g)
  && (Z.of_nat (length (strategy s)) =? num_vertices g)
  && (Z.of_nat (length (counts s)) =? k s)
  && (Z.of_nat (length (tmp s)) =? k s)
  && (Z.of_nat (length (best s)) =? k s)
  && (Z.of_nat (length (dirty s)) =? num_vertices g)
  && (Z.of_nat (length (unstable s)) =? num_vertices g).

Lemma vertex_at_lookup (g : Graph) (v : Z) :
  0 <= v < num_vertices g -> g !! Z.to_nat v = Some (vertex_at g v).
Proof.
  intros Hv. unfold vertex_at, num_vertices in *.
  destruct (g !! Z.to_nat v) eqn:E; [done|].
  apply lookup_ge_None in E. lia.
Qed.

Lemma valid_graph_vertex (g : Graph) (v : Z) :
  valid_graph g = true -> 0 <= v < num_vertices g ->
  (vplayer g v = 0 \/ vplayer g v = 1)
  /\ 0 <= vpriority g v
  /\ vout g v <> []
  /\ (forall t, In t (vout g v) -> 0 <= t < num_vertices g).
Proof.
  intros Hg Hv. unfold valid_graph in Hg. rewrite forallb_forall in Hg.
  pose proof (vertex_at_lookup g v Hv) as Hl.
  assert (Hin : In (vertex_at g v) g).
  { apply list_elem_of_In. eapply list_elem_of_lookup_2. exact Hl. }
  specialize (Hg _ Hin). unfold valid_vertex in Hg.
  apply andb_prop in Hg as [Hg Hedges].
  apply andb_prop in Hg as [Hg Hdeg].
  apply andb_prop in Hg as [Hpl Hprio].
  unfold vplayer, vpriority, vout.
  split; [|split; [|split]].
  - apply orb_prop in Hpl. destruct Hpl as [Hp|Hp]; apply Z.eqb_eq in Hp; tauto.
  - lia.
  - intros E. rewrite E in Hdeg. simpl in Hdeg. lia.
  - intros t Ht. rewrite forallb_forall in Hedges. specialize (Hedges _ Ht). lia.
Qed.

Record sizes (g : Graph) (s : Solver) : Prop := mkSizes {
  sz_k : 2 <= k s;
  sz_prio : forall v, 0 <= v < num_vertices g -> vpriority g v < k s;
  sz_pms : Z.of_nat (length (pms s)) = k s * num_vertices g;
  sz_strategy : Z.of_nat (length (strategy s)) = num_vertices g;
  sz_counts : Z.of_nat (length (counts s)) = k s;
  sz_tmp : Z.of_nat (length (tmp s)) = k s;
  sz_best : Z.of_nat (length (best s)) = k s;
  sz_dirty : Z.of_nat (length (dirty s)) = num_vertices g;
  sz_unstable : Z.of_nat (length (unstable s)) = num_vertices g
}.

Lemma sized_sizes (g : Graph) (s : Solver) : sized g s = true -> sizes g s.
Proof.
  unfold sized. intros H.
  apply andb_prop in H as [H H9]. apply andb_prop in H as [H H8].
  apply andb_prop in H as [H H7]. apply andb_prop in H as [H H6].
  apply andb_prop in H as [H H5]. apply andb_prop in H as [H H4].
  apply andb_prop in H as [H H3]. apply andb_prop in H as [H1 H2].
  constructor; try lia.
  intros v Hv. rewrite forallb_forall in H2.
  pose proof (vertex_at_lookup g v Hv) as Hl.
  assert (Hin : In (vertex_at g v) g).
  { apply list_elem_of_In. eapply list_elem_of_lookup_2. exact Hl. }
  specialize (H2 _ Hin). unfold vpriority. lia.
Qed.

(** ** Reading and storing measures *)

Lemma rd_pm_at (kk : Z) (p : list Z) (node i : Z) :
  0 <= kk * node -> 0 <= i < kk -> rd (pm_at kk p node) i = rd p (kk * node + i).
Proof.
  intros Hn Hi. unfold rd, pm_at.
  rewrite lookup_take_lt by lia. rewrite lookup_drop.
  do 2 f_equal. lia.
Qed.

Lemma length_prog_reset (fuel : nat) : forall (dst : list Z) (i d : Z),
  length (prog_reset fuel dst i d).1 = length dst.
Proof.
  induction fuel as [|f IH]; intros dst i d; simpl; [done|].
  destruct (i <? d); [|done]. rewrite IH. apply length_wr.
Qed.

Lemma length_prog_carry (fuel : nat) : forall (cnts dst src : list Z) (i kk c : Z),
  length (prog_carry fuel cnts dst src i kk c).1 = length dst.
Proof.
  induction fuel as [|f IH]; intros cnts dst src i kk c; simpl; [done|].
  destruct (i <? kk); [|done].
  destruct (rd src i + c >? rd cnts i); rewrite IH; apply length_wr.
Qed.

Lemma length_prog (kk : Z) (cnts dst src : list Z) (d pl : Z) :
  length (prog kk cnts dst src d pl) = length dst.
Proof.
  unfold prog. destruct (rd src pl =? -1); [apply length_wr|].
  pose proof (length_prog_reset (Z.to_nat d) dst pl d) as H1.
  destruct (prog_reset (Z.to_nat d) dst pl d) as [dst1 i1]. simpl in H1.
  pose proof (length_prog_carry (Z.to_nat kk) cnts dst1 src i1 kk
                (if Z.rem d 2 =? pl then 1 else 0)) as H2.
  destruct (prog_carry (Z.to_nat kk) cnts dst1 src i1 kk
              (if Z.rem d 2 =? pl then 1 else 0)) as [dst2 c2]. simpl in H2.
  destruct (c2 =? 0); [|rewrite length_wr]; congruence.
Qed.

Lemma vec_copy_from_spec (src : list Z) (n : Z) (fuel : nat) : forall (dst : list Z) (i : Z),
  0 <= i -> (Z.to_nat (n - i) <= fuel)%nat -> (Z.to_nat n <= length dst)%nat ->
  length (vec_copy_from fuel dst src i n) = length dst
  /\ forall j, 0 <= j ->
       rd (vec_copy_from fuel dst src i n) j
       = if (i <=? j) && (j <? n) then rd src j else rd dst j.
Proof.
  induction fuel as [|f IH]; intros dst i Hi Hf Hlen; simpl.
  - split; [done|]. intros j Hj. destruct (Z.leb_spec i j), (Z.ltb_spec j n); simpl; try done. lia.
  - destruct (Z.ltb_spec i n) as [Hlt|Hge].
    + destruct (IH (wr dst i (rd src i)) (i + 1)) as [IH1 IH2]; try lia.
      { rewrite length_wr. lia. }
      rewrite length_wr in IH1. split; [done|].
      intros j Hj. rewrite IH2 by done.
      destruct (decide (j = i)) as [->|Hne];
        [rewrite rd_wr_eq by lia | rewrite rd_wr_ne by lia];
        zbool; simpl; try done; lia.
    + split; [done|]. intros j Hj.
      destruct (Z.leb_spec i j), (Z.ltb_spec j n); simpl; try done. lia.
Qed.

Lemma vec_copy_spec (n : Z) (dst src : list Z) :
  (Z.to_nat n <= length dst)%nat ->
  length (vec_copy n dst src) = length dst
  /\ forall j, 0 <= j < n -> rd (vec_copy n dst src) j = rd src j.
Proof.
  intros Hlen. unfold vec_copy.
  destruct (vec_copy_from_spec src n (Z.to_nat n) dst 0) as [H1 H2]; try lia.
  split; [done|]. intros j Hj. rewrite H2 by lia.
  destruct (Z.leb_spec 0 j), (Z.ltb_spec j n); simpl; try done; lia.
Qed.

(** The cells that [pm_copy] writes: the coordinates of parity [pl] in the
    block that starts at [off]. *)
Definition in_block (off kk pl j : Z) : bool :=
  (off + pl <=? j) && (j <? off + kk) && ((j - off - pl) mod 2 =? 0).

Lemma pm_copy_from_spec (src : list Z) (off kk : Z) (fuel : nat) :
  forall (p : list Z) (i : Z),
  0 <= off -> 0 <= i -> (Z.to_nat (kk - i) <= fuel)%nat ->
  off + kk <= Z.of_nat (length p) ->
  length (pm_copy_from fuel p off src i kk) = length p
  /\ forall j, 0 <= j ->
       rd (pm_copy_from fuel p off src i kk) j
       = if in_block off kk i j then rd src (j - off) else rd p j.
Proof.
  induction fuel as [|f IH]; intros p i Hoff Hi Hf Hlen; simpl.
  - split; [done|]. intros j Hj. unfold in_block.
    destruct (Z.leb_spec (off + i) j), (Z.ltb_spec j (off + kk)); simpl; try done. lia.
  - destruct (Z.ltb_spec i kk) as [Hlt|Hge].
    + destruct (IH (wr p (off + i) (rd src i)) (i + 2)) as [IH1 IH2]; try lia.
      { rewrite length_wr. lia. }
      rewrite length_wr in IH1. split; [done|].
      intros j Hj. rewrite IH2 by done. unfold in_block.
      destruct (decide (j = off + i)) as [->|Hne];
        [rewrite rd_wr_eq by lia; replace (off + i - off) with i by lia
        |rewrite rd_wr_ne by lia];
        zbool; simpl; try done; lia.
    + split; [done|]. intros j Hj. unfold in_block.
      destruct (Z.leb_spec (off + i) j), (Z.ltb_spec j (off + kk)); simpl; try done. lia.
Qed.

Lemma pm_copy_spec (kk : Z) (p : list Z) (off : Z) (src : list Z) (pl : Z) :
  0 <= off -> 0 <= pl -> off + kk <= Z.of_nat (length p) ->
  length (pm_copy kk p off src pl) = length p
  /\ forall j, 0 <= j ->
       rd (pm_copy kk p off src pl) j
       = if in_block off kk pl j then rd src (j - off) else rd p j.
Proof.
  intros Hoff Hpl Hlen. unfold pm_copy.
  apply pm_copy_from_spec; lia.
Qed.

Lemma length_vec_copy (n : Z) (dst src : list Z) :
  length (vec_copy n dst src) = length dst.
Proof.
  unfold vec_copy. generalize 0 as i. revert dst.
  induction (Z.to_nat n) as [|f IH]; intros dst i; simpl; [done|].
  destruct (i <? n); [|done]. rewrite IH. apply length_wr.
Qed.

Lemma length_pm_copy (kk : Z) (p : list Z) (off : Z) (src : list Z) (pl : Z) :
  length (pm_copy kk p off src pl) = length p.
Proof.
  unfold pm_copy. generalize pl as i. revert p.
  induction (Z.to_nat kk) as [|f IH]; intros p i; simpl; [done|].
  destruct (i <? kk); [|done]. rewrite IH. apply length_wr.
Qed.

Lemma pm_less_true_finite (kk : Z) (cnts a b : list Z) (d pl : Z) :
  pm_less kk cnts a b d pl = true -> rd a pl <> -1.
Proof.
  unfold pm_less.
  destruct (Z.eqb_spec (rd b pl) (-1)).
  - destruct (Z.eqb_spec (rd a pl) (-1)); simpl; [discriminate|done].
  - destruct (Z.eqb_spec (rd a pl) (-1)); [discriminate|done].
Qed.

(** ** Steps that only touch the scratch vectors [tmp] and [best] *)

Record scratch_eq (s s' : Solver) : Prop := mkScratchEq {
  se_k : k s' = k s;
  se_pms : pms s' = pms s;
  se_strategy : strategy s' = strategy s;
  se_counts : counts s' = counts s;
  se_dirty : dirty s' = dirty s;
  se_unstable : unstable s' = unstable s;
  se_todo : todo s' = todo s;
  se_lift_count : lift_count s' = lift_count s;
  se_lift_attempt : lift_attempt s' = lift_attempt s;
  se_tmp : length (tmp s') = length (tmp s);
  se_best : length (best s') = length (best s)
}.

Lemma scratch_eq_refl (s : Solver) : scratch_eq s s.
Proof. by constructor. Qed.

Lemma scratch_eq_trans (s1 s2 s3 : Solver) :
  scratch_eq s1 s2 -> scratch_eq s2 s3 -> scratch_eq s1 s3.
Proof. intros [] []. constructor; congruence. Qed.

Lemma scratch_eq_pm (s s' : Solver) (node : Z) : scratch_eq s s' -> pm s' node = pm s node.
Proof. intros []. unfold pm. congruence. Qed.

Lemma prog_tmp_scratch (s : Solver) (to_node d pl : Z) :
  scratch_eq s (prog_tmp s to_node d pl).
Proof. constructor; try done. simpl. apply length_prog. Qed.

Lemma best_step_scratch (d pl : Z) (s : Solver) (b to_node : Z) :
  scratch_eq s (best_step d pl (s, b) to_node).1
  /\ ((best_step d pl (s, b) to_node).2 = to_node
      \/ (b <> -1 /\ (best_step d pl (s, b) to_node).2 = b)).
Proof.
  unfold best_step.
  pose proof (prog_tmp_scratch s to_node d pl) as H1.
  destruct (Z.eqb_spec b (-1)) as [Hb|Hb]; simpl.
  - split; [|by left]. eapply scratch_eq_trans; [exact H1|].
    constructor; try done. simpl. apply length_vec_copy.
  - destruct (pm_less _ _ _ _ _ _); simpl.
    + split; [|by left]. eapply scratch_eq_trans; [exact H1|].
      constructor; try done. simpl. apply length_vec_copy.
    + split; [done|by right].
Qed.

Lemma fold_best_step_scratch (d pl : Z) (es : list Z) : forall (s : Solver) (b : Z),
  scratch_eq s (fold_left (best_step d pl) es (s, b)).1
  /\ (In (fold_left (best_step d pl) es (s, b)).2 es
      \/ (fold_left (best_step d pl) es (s, b)).2 = b)
  /\ (b = -1 -> es <> [] -> In (fold_left (best_step d pl) es (s, b)).2 es).
Proof.
  induction es as [|e es IH]; intros s b; cbn [fold_left].
  - split; [apply scratch_eq_refl|]. split; [by right|done].
  - destruct (best_step_scratch d pl s b e) as [H1 H2].
    destruct (best_step d pl (s, b) e) as [s1 b1]. simpl in H1, H2.
    destruct (IH s1 b1) as (I1 & I2 & I3).
    split; [eapply scratch_eq_trans; eassumption|].
    split.
    + destruct I2 as [I2|I2]; [left; right; exact I2|].
      rewrite I2. destruct H2 as [->|[_ ->]]; [left; left; reflexivity|right; reflexivity].
    + intros Hb _. destruct I2 as [I2|I2]; [right; exact I2|].
      rewrite I2. destruct H2 as [->|[Hne _]]; [left; reflexivity|done].
Qed.

(** ** What a lift changes *)

Section Lift.
Context (g : Graph) (Hg : valid_graph g = true).
Context (node : Z) (Hnode : 0 <= node < num_vertices g).

(** The state [s] reached inside [lift] from the state [s0] at entry, the
    flags being [best_ch0] and [best_ch1]: nothing but the measure of
    [node], the strategy and the scratch vectors has changed, and a flag
    is raised only for a counter that was unsaturated at entry. *)
Record lift_inv (s0 s : Solver) (c0 c1 : Z) (st : list Z) : Prop := mkLiftInv {
  li_k : k s = k s0;
  li_strategy : strategy s = st;
  li_counts : counts s = counts s0;
  li_dirty : dirty s = dirty s0;
  li_unstable : unstable s = unstable s0;
  li_todo : todo s = todo s0;
  li_lift_count : lift_count s = lift_count s0;
  li_lift_attempt : lift_attempt s = lift_attempt s0;
  li_len_pms : length (pms s) = length (pms s0);
  li_len_tmp : length (tmp s) = length (tmp s0);
  li_len_best : length (best s) = length (best s0);
  li_frame : forall j, 0 <= j ->
    ~ (k s0 * node <= j < k s0 * node + k s0) -> rd (pms s) j = rd (pms s0) j;
  li_same0 : c0 = -1 -> rd (pms s) (k s0 * node + 0) = rd (pms s0) (k s0 * node + 0);
  li_was0 : c0 <> -1 -> rd (pms s0) (k s0 * node + 0) <> -1;
  li_same1 : c1 = -1 -> rd (pms s) (k s0 * node + 1) = rd (pms s0) (k s0 * node + 1);
  li_was1 : c1 <> -1 -> rd (pms s0) (k s0 * node + 1) <> -1
}.

Lemma lift_inv_start (s0 : Solver) : lift_inv s0 s0 (-1) (-1) (strategy s0).
Proof. by constructor. Qed.

Lemma lift_inv_scratch (s0 s s' : Solver) (c0 c1 : Z) (st : list Z) :
  lift_inv s0 s c0 c1 st -> scratch_eq s s' -> lift_inv s0 s' c0 c1 st.
Proof.
  intros [I1 I2 I3 I4 I5 I6 I7 I8 I9 I10 I11 I12 I13 I14 I15 I16]
         [E1 E2 E3 E4 E5 E6 E7 E8 E9 E10 E11].
  constructor; try congruence; try assumption; rewrite E2; assumption.
Qed.

Lemma lift_inv_set_strategy (s0 s : Solver) (c0 c1 : Z) (st v : list Z) :
  lift_inv s0 s c0 c1 st -> lift_inv s0 (set_strategy s v) c0 c1 v.
Proof. intros []. by constructor. Qed.

Lemma lift_inv_store (s0 s : Solver) (c0 c1 : Z) (st src : list Z) (d p t : Z) :
  sizes g s0 -> lift_inv s0 s c0 c1 st -> p = 0 \/ p = 1 -> t <> -1 ->
  pm_less (k s) (counts s) (pm s node) src d p = true ->
  lift_inv s0 (pm_store s node src p)
           (if p =? 0 then t else c0) (if p =? 0 then c1 else t) st.
Proof.
  intros Hsz Hinv Hp Ht Hless.
  pose proof (sz_k _ _ Hsz) as Hk. pose proof (sz_pms _ _ Hsz) as Hlen.
  destruct Hinv as [I1 I2 I3 I4 I5 I6 I7 I8 I9 I10 I11 I12 I13 I14 I15 I16].
  apply pm_less_true_finite in Hless.
  unfold pm in Hless. rewrite rd_pm_at in Hless by nia.
  rewrite I1 in Hless.
  assert (Hspec := pm_copy_spec (k s) (pms s) (k s * node) src p).
  destruct Hspec as [Hl Hrd]; [nia|lia|rewrite I1, I9; nia|].
  rewrite I1 in Hrd.
  constructor; simpl; rewrite ?I1; try done; try congruence.
  - intros j Hj Hout. rewrite Hrd by done. unfold in_block.
    destruct (Z.leb_spec (k s0 * node + p) j), (Z.ltb_spec j (k s0 * node + k s0));
      simpl; try (apply I12; done); lia.
  - destruct Hp as [-> | ->]; simpl; [done|].
    intros Hc. rewrite Hrd by nia. unfold in_block.
    destruct (Z.leb_spec (k s0 * node + 1) (k s0 * node + 0)); [lia|]. simpl. auto.
  - destruct Hp as [-> | ->]; simpl; [|done].
    intros _. destruct (decide (c0 = -1)) as [Hc|Hc]; [|auto].
    rewrite <- I13 by done. done.
  - destruct Hp as [-> | ->]; simpl; [|done].
    intros Hc. rewrite Hrd by nia. unfold in_block.
    replace ((k s0 * node + 1 - k s0 * node - 0) mod 2) with 1 by lia.
    rewrite andb_false_r. auto.
  - destruct Hp as [-> | ->]; simpl; [done|].
    intros _. destruct (decide (c1 = -1)) as [Hc|Hc]; [|auto].
    rewrite <- I15 by done. done.
Qed.

Lemma lift_try_inv (s0 s : Solver) (c0 c1 : Z) (st : list Z) (d p to_node : Z) :
  sizes g s0 -> lift_inv s0 s c0 c1 st -> p = 0 \/ p = 1 -> to_node <> -1 ->
  lift_inv s0 (lift_try node d p (s, c0, c1) to_node).1.1
           (lift_try node d p (s, c0, c1) to_node).1.2
           (lift_try node d p (s, c0, c1) to_node).2 st
  /\ (if p =? 0 then (lift_try node d p (s, c0, c1) to_node).2 = c1
      else (lift_try node d p (s, c0, c1) to_node).1.2 = c0).
Proof.
  intros Hsz Hinv Hp Hto. unfold lift_try.
  pose proof (prog_tmp_scratch s to_node d p) as Hs.
  pose proof (lift_inv_scratch _ _ _ _ _ _ Hinv Hs) as Hinv1.
  destruct (pm_less _ _ _ _ _ _) eqn:Hless.
  - pose proof (lift_inv_store _ _ _ _ _ _ _ _ _ Hsz Hinv1 Hp Hto Hless) as H2.
    destruct Hp as [-> | ->]; simpl in *; done.
  - simpl. split; [done|]. by destruct (p =? 0).
Qed.

Lemma fold_lift_try_inv (s0 : Solver) (st : list Z) (d p : Z) (es : list Z) :
  sizes g s0 -> p = 0 \/ p = 1 -> (forall t, In t es -> t <> -1) ->
  forall (s : Solver) (c0 c1 : Z),
  lift_inv s0 s c0 c1 st ->
  lift_inv s0 (fold_left (lift_try node d p) es (s, c0, c1)).1.1
           (fold_left (lift_try node d p) es (s, c0, c1)).1.2
           (fold_left (lift_try node d p) es (s, c0, c1)).2 st
  /\ (if p =? 0 then (fold_left (lift_try node d p) es (s, c0, c1)).2 = c1
      else (fold_left (lift_try node d p) es (s, c0, c1)).1.2 = c0).
Proof.
  intros Hsz Hp. induction es as [|e es IH]; intros Hes s c0 c1 Hinv; cbn [fold_left].
  - split; [done|]. by destruct (p =? 0).
  - destruct (lift_try_inv s0 s c0 c1 st d p e Hsz Hinv Hp) as [H1 H2].
    { apply Hes. by left. }
    destruct (lift_try node d p (s, c0, c1) e) as [[s1 a0] a1]. simpl in H1, H2.
    destruct (IH ltac:(intros t Ht; apply Hes; by right) s1 a0 a1 H1) as [H3 H4].
    split; [done|]. destruct (p =? 0); congruence.
Qed.

Lemma vout_targets (t : Z) : In t (vout g node) -> 0 <= t < num_vertices g.
Proof. intros Ht. by apply (valid_graph_vertex g node Hg Hnode). Qed.

Lemma lift_owner_inv (s0 : Solver) (target d p : Z) :
  sizes g s0 -> p = 0 \/ p = 1 -> target = -1 \/ 0 <= target ->
  lift_inv s0 (lift_owner g s0 node target d p).1.1
           (lift_owner g s0 node target d p).1.2
           (lift_owner g s0 node target d p).2 (strategy s0)
  /\ (if p =? 0 then (lift_owner g s0 node target d p).2 = -1
      else (lift_owner g s0 node target d p).1.2 = -1).
Proof.
  intros Hsz Hp Ht. unfold lift_owner.
  pose proof (lift_inv_start s0) as Hstart.
  destruct (rd (pm s0 node) p =? -1); simpl.
  { split; [done|]. by destruct (p =? 0). }
  destruct (Z.eqb_spec target (-1)) as [Heq|Hne]; simpl.
  - apply fold_lift_try_inv; try done.
    intros t Hin. apply vout_targets in Hin. lia.
  - apply lift_try_inv; done.
Qed.

(** The guard of the opponent attempt. *)
Definition opponent_fires (s : Solver) (target p : Z) : bool :=
  negb (rd (pm s node) p =? -1)
  && ((target =? -1) || (target =? rd (strategy s) node)).

Lemma lift_opponent_inv (s0 s : Solver) (c0 c1 : Z) (st : list Z) (target d p : Z) :
  sizes g s0 -> lift_inv s0 s c0 c1 st -> p = 0 \/ p = 1 ->
  exists st',
    lift_inv s0 (lift_opponent g (s, c0, c1) node target d p).1.1
             (lift_opponent g (s, c0, c1) node target d p).1.2
             (lift_opponent g (s, c0, c1) node target d p).2 st'
    /\ (if p =? 0 then (lift_opponent g (s, c0, c1) node target d p).2 = c1
        else (lift_opponent g (s, c0, c1) node target d p).1.2 = c0)
    /\ (opponent_fires s target p = true ->
          exists t, In t (vout g node) /\ st' = wr st node t)
    /\ (opponent_fires s target p = false ->
          st' = st /\ lift_opponent g (s, c0, c1) node target d p = (s, c0, c1)).
Proof.
  intros Hsz Hinv Hp. unfold lift_opponent. fold (opponent_fires s target p).
  destruct (opponent_fires s target p) eqn:Hfire.
  2:{ exists st. simpl. split; [exact Hinv|]. split; [by destruct (p =? 0)|].
      split; done. }
  destruct (fold_best_step_scratch d p (vout g node) s (-1)) as (Hs & _ & Hin).
  destruct (fold_left (best_step d p) (vout g node) (s, -1)) as [s1 best_to].
  simpl in Hs, Hin.
  assert (Hbt : In best_to (vout g node)).
  { apply Hin; [done|]. by apply (valid_graph_vertex g node Hg Hnode). }
  assert (Hbt' : best_to <> -1) by (apply vout_targets in Hbt; lia).
  pose proof (lift_inv_scratch _ _ _ _ _ _ Hinv Hs) as Hinv1.
  pose proof (lift_inv_set_strategy _ _ _ _ _ (wr (strategy s1) node best_to) Hinv1)
    as Hinv2.
  exists (wr st node best_to).
  replace (strategy s1) with st in * by (symmetry; apply Hinv1).
  destruct (pm_less _ _ _ _ _ _) eqn:Hless.
  - pose proof (lift_inv_store _ _ _ _ _ _ _ _ _ Hsz Hinv2 Hp Hbt' Hless) as H3.
    destruct Hp as [-> | ->]; simpl in *;
      (split; [exact H3|]; split; [done|]; split; [eauto|done]).
  - simpl. split; [exact Hinv2|]. split; [by destruct (p =? 0)|].
    split; [eauto|done].
Qed.
End Lift.

(** The counter of player [p] at [node] is saturated in [s'] and was not in
    [s]. *)
Definition newly_top (s s' : Solver) (node p : Z) : bool :=
  negb (rd (pm s node) p =? -1) && (rd (pm s' node) p =? -1).

Definition in_measure (s : Solver) (node j : Z) : Prop :=
  k s * node <= j < k s * node + k s.

(** Everything the later proofs need to know about one call of [lift]. *)
Record lift_post (g : Graph) (node target : Z) (s s' : Solver) : Prop := mkLiftPost {
  lp_sizes : sizes g s';
  lp_k : k s' = k s;
  lp_dirty : dirty s' = dirty s;
  lp_unstable : unstable s' = unstable s;
  lp_todo : todo s' = todo s;
  lp_frame : forall j, 0 <= j -> ~ in_measure s node j -> rd (pms s') j = rd (pms s) j;
  lp_top : forall p, p = 0 \/ p = 1 -> rd (pm s node) p = -1 -> rd (pm s' node) p = -1;
  lp_counts :
    counts s' =
      if newly_top s s' node (vpriority g node mod 2)
      then wr (counts s) (vpriority g node) (rd (counts s) (vpriority g node) - 1)
      else counts s;
  lp_strategy :
    strategy s' = strategy s
    \/ exists t, In t (vout g node) /\ strategy s' = wr (strategy s) node t;
  lp_first :
    target = -1 -> rd (pm s node) (1 - vplayer g node) <> -1 ->
    exists t, In t (vout g node) /\ strategy s' = wr (strategy s) node t;
  lp_hint :
    target <> -1 -> rd (strategy s) node = -1 ->
    strategy s' = strategy s
    /\ rd (pm s' node) (1 - vplayer g node) = rd (pm s node) (1 - vplayer g node)
}.

Lemma sizes_transfer (g : Graph) (s s' : Solver) :
  sizes g s -> k s' = k s ->
  length (pms s') = length (pms s) -> length (strategy s') = length (strategy s) ->
  length (counts s') = length (counts s) -> length (tmp s') = length (tmp s) ->
  length (best s') = length (best s) -> length (dirty s') = length (dirty s) ->
  length (unstable s') = length (unstable s) ->
  sizes g s'.
Proof.
  intros [] Hk H1 H2 H3 H4 H5 H6 H7. constructor; rewrite ?Hk; try done; congruence.
Qed.

Lemma lift_spec (g : Graph) (node target : Z) (s : Solver) :
  valid_graph g = true -> sizes g s -> 0 <= node < num_vertices g ->
  target = -1 \/ 0 <= target ->
  lift_post g node target s (lift g s node target).2.
Proof.
  intros Hg Hsz Hnode Htarget.
  pose proof (sz_k _ _ Hsz) as Hk.
  destruct (valid_graph_vertex g node Hg Hnode) as (Hpl & Hprio & Hout & Hedges).
  pose proof (sz_prio _ _ Hsz node Hnode) as Hd.
  assert (Hrd : forall s' p, k s' = k s -> 0 <= p < 2 ->
            rd (pm s' node) p = rd (pms s') (k s * node + p)).
  { intros s' p Hk' Hp. unfold pm. rewrite Hk'. apply rd_pm_at; nia. }
  unfold lift.
  destruct ((rd (pm s node) 0 =? -1) && (rd (pm s node) 1 =? -1)) eqn:Hboth.
  { simpl. constructor; try done.
    - unfold newly_top.
      destruct (rd (pm s node) (vpriority g node mod 2) =? -1); done.
    - by left.
    - intros _ Hne. apply andb_prop in Hboth as [H0 H1].
      destruct Hpl as [Hp|Hp]; rewrite Hp in Hne;
        [change (1 - 0) with 1 in Hne|change (1 - 1) with 0 in Hne]; lia. }
  set (p := vplayer g node) in *. set (d := vpriority g node) in *.
  assert (Hq : 1 - p = 0 \/ 1 - p = 1) by lia.
  destruct (lift_owner_inv g Hg node Hnode s target d p Hsz Hpl Htarget) as [Hown Hflag].
  destruct (lift_owner g s node target d p) as [[s1 a0] a1] eqn:Eown.
  simpl in Hown, Hflag.
  destruct (lift_opponent_inv g Hg node Hnode s s1 a0 a1 (strategy s) target d (1 - p)
              Hsz Hown Hq) as (st' & Hopp & Hflag2 & Hfire & Hnofire).
  destruct (lift_opponent g (s1, a0, a1) node target d (1 - p)) as [[s2 b0] b1] eqn:Eopp.
  simpl in Hopp, Hflag2.
  destruct Hopp as [I1 I2 I3 I4 I5 I6 I7 I8 I9 I10 I11 I12 I13 I14 I15 I16].
  set (ch0 := negb (b0 =? -1)). set (ch1 := negb (b1 =? -1)).
  set (s3 := lift_shrink s2 node d ch0 ch1).
  assert (Hs3 : k s3 = k s2 /\ pms s3 = pms s2 /\ strategy s3 = strategy s2
                /\ tmp s3 = tmp s2 /\ best s3 = best s2 /\ dirty s3 = dirty s2
                /\ unstable s3 = unstable s2 /\ todo s3 = todo s2
                /\ length (counts s3) = length (counts s2)).
  { subst s3. unfold lift_shrink, dec_counts.
    repeat match goal with |- context [if ?b then _ else _] => destruct b end;
      simpl; rewrite ?length_wr; done. }
  destruct Hs3 as (K1 & K2 & K3 & K4 & K5 & K6 & K7 & K8 & K9).
  assert (Hnew : forall c r, (r = 0 \/ r = 1) ->
            (c = -1 -> rd (pms s2) (k s * node + r) = rd (pms s) (k s * node + r)) ->
            (c <> -1 -> rd (pms s) (k s * node + r) <> -1) ->
            negb (c =? -1) && (rd (pm s2 node) r =? -1) = newly_top s s3 node r).
  { intros c r Hr Hsame Hwas. unfold newly_top.
    rewrite (Hrd s r), (Hrd s2 r), (Hrd s3 r) by (congruence || lia).
    rewrite K2. destruct (Z.eqb_spec c (-1)) as [Hc|Hc]; simpl.
    - rewrite Hsame by done. destruct (rd (pms s) _ =? -1); done.
    - specialize (Hwas Hc). destruct (Z.eqb_spec (rd (pms s) (k s * node + r)) (-1)); done. }
  assert (Hcounts : counts s3 =
            if newly_top s s3 node (d mod 2)
            then wr (counts s) d (rd (counts s) d - 1) else counts s).
  { assert (Hpar : d mod 2 = 0 \/ d mod 2 = 1) by lia.
    rewrite <- (land_1_mod d) in *.
    destruct Hpar as [Hpar|Hpar]; rewrite Hpar.
    - rewrite <- (Hnew b0 0) by (auto; lia).
      subst s3. unfold lift_shrink. fold ch0. rewrite Hpar. simpl.
      destruct (ch0 && (rd (pm s2 node) 0 =? -1)); simpl.
      + destruct (ch1 && _); simpl; congruence.
      + destruct (ch1 && _); simpl; congruence.
    - rewrite <- (Hnew b1 1) by (auto; lia).
      subst s3. unfold lift_shrink. fold ch1. rewrite Hpar. simpl.
      destruct (ch0 && (rd (pm s2 node) 0 =? -1)); simpl.
      + destruct (ch1 && (rd (pm s2 node) 1 =? -1)); simpl; congruence.
      + destruct (ch1 && (rd (pm s2 node) 1 =? -1)); simpl; congruence. }
  assert (Hfinal : forall s4, k s4 = k s3 -> pms s4 = pms s3 -> strategy s4 = strategy s3 ->
            counts s4 = counts s3 -> tmp s4 = tmp s3 -> best s4 = best s3 ->
            dirty s4 = dirty s3 -> unstable s4 = unstable s3 -> todo s4 = todo s3 ->
            lift_post g node target s s4).
  { intros s4 F1 F2 F3 F4 F5 F6 F7 F8 F9.
    assert (Hpm4 : forall r, rd (pm s4 node) r = rd (pm s3 node) r).
    { intros r. unfold pm. congruence. }
    constructor.
    - assert (Hst : length st' = length (strategy s)).
      { destruct (opponent_fires node s1 target (1 - p)).
        - destruct (Hfire eq_refl) as (t & _ & ->). apply length_wr.
        - by destruct (Hnofire eq_refl) as [-> _]. }
      apply (sizes_transfer g s); try done; try congruence.
    - congruence.
    - congruence.
    - congruence.
    - congruence.
    - intros j Hj Hout'. rewrite F2, K2. apply I12; done.
    - intros r Hr Htop. rewrite Hpm4.
      rewrite (Hrd s r) in Htop by (done || lia).
      rewrite (Hrd s3 r) by (congruence || lia). rewrite K2.
      destruct Hr as [-> | ->].
      + destruct (decide (b0 = -1)) as [Hc|Hc]; [rewrite I13; done|].
        exfalso. by apply I14.
      + destruct (decide (b1 = -1)) as [Hc|Hc]; [rewrite I15; done|].
        exfalso. by apply I16.
    - rewrite F4, Hcounts. unfold newly_top. by rewrite Hpm4.
    - rewrite F3, K3, I2.
      destruct (opponent_fires node s1 target (1 - p)).
      + right. by apply Hfire.
      + left. by apply Hnofire.
    - intros Ht Hne. fold p in Hne. rewrite F3, K3, I2. apply Hfire.
      unfold opponent_fires. rewrite Ht. simpl. rewrite andb_true_r.
      rewrite (Hrd s1 (1 - p)) by (apply Hown || lia).
      rewrite (Hrd s (1 - p)) in Hne by (done || lia).
      destruct Hown as [O1 O2 O3 O4 O5 O6 O7 O8 O9 O10 O11 O12 O13 O14 O15 O16].
      destruct Hpl as [Hp|Hp]; rewrite Hp in *;
        [change (1 - 0) with 1 in *|change (1 - 1) with 0 in *];
        change (0 =? 0) with true in *; change (1 =? 0) with false in *;
        cbv iota in *.
      * rewrite O15 by done. destruct (Z.eqb_spec (rd (pms s) (k s * node + 1)) (-1)); done.
      * rewrite O13 by done. destruct (Z.eqb_spec (rd (pms s) (k s * node + 0)) (-1)); done.
    - intros Ht Hst.
      assert (Hnf : opponent_fires node s1 target (1 - p) = false).
      { unfold opponent_fires.
        replace (strategy s1) with (strategy s) by (symmetry; apply Hown).
        rewrite Hst. destruct (Z.eqb_spec target (-1)); [done|].
        destruct (Z.eqb_spec target (-1)); [done|]. simpl. apply andb_false_r. }
      destruct (Hnofire Hnf) as [Hst' Hacc]. injection Hacc as -> -> ->.
      rewrite F3, K3, I2, Hst'. split; [done|]. fold p.
      rewrite Hpm4, (Hrd s3 (1 - p)), (Hrd s (1 - p)) by (congruence || lia).
      rewrite K2.
      destruct Hpl as [Hp|Hp]; rewrite Hp in *;
        [change (1 - 0) with 1 in *|change (1 - 1) with 0 in *];
        change (0 =? 0) with true in *; change (1 =? 0) with false in *;
        cbv iota in *.
      * apply I15. done.
      * apply I13. done. }
  destruct (ch0 || ch1); simpl; apply Hfinal; done.
Qed.

(** ** What the stabilisation pass changes *)

(** Steps that leave everything but [tmp], [best] and [unstable] alone. *)
Record core_eq (s s' : Solver) : Prop := mkCoreEq {
  ce_k : k s' = k s;
  ce_pms : pms s' = pms s;
  ce_strategy : strategy s' = strategy s;
  ce_counts : counts s' = counts s;
  ce_dirty : dirty s' = dirty s;
  ce_todo : todo s' = todo s;
  ce_lift_count : lift_count s' = lift_count s;
  ce_lift_attempt : lift_attempt s' = lift_attempt s;
  ce_tmp : length (tmp s') = length (tmp s);
  ce_best : length (best s') = length (best s);
  ce_unstable : length (unstable s') = length (unstable s)
}.

Lemma core_eq_refl (s : Solver) : core_eq s s.
Proof. by constructor. Qed.

Lemma core_eq_trans (s1 s2 s3 : Solver) : core_eq s1 s2 -> core_eq s2 s3 -> core_eq s1 s3.
Proof. intros [] []. constructor; congruence. Qed.

Lemma scratch_core_eq (s s' : Solver) : scratch_eq s s' -> core_eq s s'.
Proof. intros []. constructor; congruence. Qed.

Lemma core_eq_set_unstable (s : Solver) (i v : Z) :
  core_eq s (set_unstable s (wr (unstable s) i v)).
Proof. constructor; try done. simpl. apply length_wr. Qed.

Lemma core_eq_sizes (g : Graph) (s s' : Solver) : sizes g s -> core_eq s s' -> sizes g s'.
Proof. intros Hsz []. apply (sizes_transfer g s); congruence. Qed.

Lemma canlift_owner_scratch (node d pl : Z) (es : list Z) : forall s : Solver,
  scratch_eq s (canlift_owner s node d pl es).2.
Proof.
  induction es as [|e es IH]; intros s; simpl; [apply scratch_eq_refl|].
  pose proof (prog_tmp_scratch s e d pl) as H1.
  destruct (pm_less _ _ _ _ _ _); simpl; [done|].
  eapply scratch_eq_trans; [exact H1|apply IH].
Qed.

Lemma canlift_scratch (g : Graph) (s : Solver) (node pl : Z) :
  scratch_eq s (canlift g s node pl).2.
Proof.
  unfold canlift. destruct (rd (pm s node) pl =? -1); simpl; [apply scratch_eq_refl|].
  destruct (vplayer g node =? pl); [apply canlift_owner_scratch|].
  destruct (fold_best_step_scratch (vpriority g node) pl (vout g node) s (-1)) as [H _].
  destruct (fold_left _ _ _) as [s1 b]. simpl in H.
  destruct (b =? -1); done.
Qed.

Lemma update_mark_core (g : Graph) (pl : Z) (s : Solver) (q : list Z) (i : Z) :
  core_eq s (update_mark g pl (s, q) i).1.
Proof.
  unfold update_mark.
  set (s1 := set_unstable s (wr (unstable s) i 0)).
  assert (H1 : core_eq s s1) by apply core_eq_set_unstable.
  destruct (rd (pms s1) (k s1 * i + pl) =? -1); simpl.
  - eapply core_eq_trans; [exact H1|apply core_eq_set_unstable].
  - pose proof (canlift_scratch g s1 i pl) as H2.
    destruct (canlift g s1 i pl) as [r s2]. simpl in H2.
    apply scratch_core_eq in H2.
    destruct r; simpl.
    + eapply core_eq_trans; [exact H1|].
      eapply core_eq_trans; [exact H2|apply core_eq_set_unstable].
    + eapply core_eq_trans; eassumption.
Qed.

Lemma fold_core_eq {A : Type} (f : Solver * list Z -> A -> Solver * list Z) (l : list A) :
  (forall s q a, core_eq s (f (s, q) a).1) ->
  forall s q, core_eq s (fold_left f l (s, q)).1.
Proof.
  intros Hf. induction l as [|a l IH]; intros s q; cbn [fold_left]; [apply core_eq_refl|].
  specialize (Hf s q a). destruct (f (s, q) a) as [s1 q1].
  eapply core_eq_trans; [exact Hf|apply IH].
Qed.

Lemma fold_update_best_step_scratch (d pl : Z) (es : list Z) : forall (s : Solver) (b : Z),
  scratch_eq s (fold_left (update_best_step d pl) es (s, b)).1.
Proof.
  induction es as [|e es IH]; intros s b; cbn [fold_left]; [apply scratch_eq_refl|].
  unfold update_best_step at 2.
  destruct (negb (rd (unstable s) e =? 0)); [apply IH|].
  destruct (best_step_scratch d pl s b e) as [H1 _].
  destruct (best_step d pl (s, b) e) as [s1 b1].
  eapply scratch_eq_trans; [exact H1|apply IH].
Qed.

Lemma update_edge_core (g : Graph) (pl n other : Z) (s : Solver) (q : list Z) (tgt : Z) :
  core_eq s (update_edge g pl n other (s, q) tgt).1.
Proof.
  unfold update_edge.
  destruct (tgt =? n); [|apply core_eq_refl].
  destruct (negb (rd (unstable s) other =? 0)); [apply core_eq_refl|].
  destruct (negb (vplayer g other =? pl)); [|apply core_eq_refl].
  pose proof (fold_update_best_step_scratch (vpriority g other) pl (vout g other) s (-1)) as H.
  destruct (fold_left _ _ _) as [s1 b]. simpl in H. apply scratch_core_eq in H.
  destruct (b =? -1); [done|].
  destruct (pm_less _ _ _ _ _ _); [done|]. simpl.
  eapply core_eq_trans; [exact H|apply core_eq_set_unstable].
Qed.

Lemma update_visit_core (g : Graph) (pl n : Z) (s : Solver) (q : list Z) :
  core_eq s (update_visit g pl n (s, q)).1.
Proof.
  unfold update_visit. apply fold_core_eq. intros s1 q1 other.
  apply fold_core_eq. intros s2 q2 tgt. apply update_edge_core.
Qed.

Lemma update_loop_core (g : Graph) (pl : Z) (fuel : nat) :
  forall (s : Solver) (q : list Z) (s' : Solver),
  update_loop fuel g pl s q = Some s' -> core_eq s s'.
Proof.
  induction fuel as [|f IH]; intros s q s'; destruct q as [|n rest]; simpl;
    try discriminate.
  - intros [= <-]. apply core_eq_refl.
  - intros [= <-]. apply core_eq_refl.
  - pose proof (update_visit_core g pl n s rest) as H1.
    destruct (update_visit g pl n (s, rest)) as [s1 q1]. simpl in H1.
    intros H2. apply IH in H2. eapply core_eq_trans; eassumption.
Qed.

(** The state in which the last loop of [update] starts. *)
Lemma update_phases (fuel : nat) (g : Graph) (s : Solver) (pl : Z) (s' : Solver) :
  update fuel g s pl = Some s' ->
  exists s2, core_eq s s2 /\ s' = fold_left (update_final g pl) (nodes g) s2.
Proof.
  unfold update.
  pose proof (fold_core_eq (update_mark g pl) (nodes g)
                (fun s q i => update_mark_core g pl s q i) s []) as H1.
  destruct (fold_left (update_mark g pl) (nodes g) (s, [])) as [s1 q]. simpl in H1.
  destruct (update_loop fuel g pl s1 q) as [s2|] eqn:E; [|discriminate].
  intros [= <-]. exists s2. split; [|done].
  eapply core_eq_trans; [exact H1|]. eapply update_loop_core. exact E.
Qed.

(** ** The bound vector [counts] *)

(** Vertex [v] has priority [i] and its counter for the player of that
    parity is not saturated. *)
Definition unsaturated (g : Graph) (s : Solver) (i v : Z) : bool :=
  (vpriority g v =? i) && negb (rd (pm s v) (i mod 2) =? -1).

Definition count_unsaturated (g : Graph) (s : Solver) (i : Z) : Z :=
  Z.of_nat (length (List.filter (unsaturated g s i) (nodes g))).

(** The invariant of claim C10. *)
Definition counts_ok (g : Graph) (s : Solver) : Prop :=
  forall i, 0 <= i < k s -> rd (counts s) i = count_unsaturated g s i.

Lemma In_nodes (g : Graph) (v : Z) : In v (nodes g) <-> 0 <= v < num_vertices g.
Proof.
  unfold nodes. rewrite <- list_elem_of_In, elem_of_seqZ. lia.
Qed.

Lemma NoDup_nodes (g : Graph) : NoDup (nodes g).
Proof. apply NoDup_seqZ. Qed.

Lemma filter_length_same (f f' : Z -> bool) (l : list Z) :
  (forall y, In y l -> f' y = f y) ->
  length (List.filter f' l) = length (List.filter f l).
Proof.
  intros H. f_equal. apply List.filter_ext_in. exact H.
Qed.

Lemma filter_length_drop (f f' : Z -> bool) (l : list Z) (x : Z) :
  NoDup l -> In x l ->
  (forall y, In y l -> y <> x -> f' y = f y) ->
  f x = true -> f' x = false ->
  length (List.filter f l) = S (length (List.filter f' l)).
Proof.
  intros Hnd. induction Hnd as [|a l Ha Hnd IH]; intros Hin Hext Hx Hx'; [done|].
  simpl. destruct Hin as [->|Hin].
  - rewrite Hx, Hx'. simpl. f_equal. symmetry. apply filter_length_same.
    intros y Hy. apply Hext; [by right|]. intros ->. apply Ha. by apply list_elem_of_In.
  - assert (a <> x).
    { intros ->. apply Ha. by apply list_elem_of_In. }
    rewrite (Hext a) by (done || by left).
    assert (IH' : length (List.filter f l) = S (length (List.filter f' l))).
    { apply IH; try done. intros y Hy Hne. apply Hext; [by right|done]. }
    destruct (f a); simpl; lia.
Qed.

(** One vertex [x] changes its measure; [counts] follows the saturation of
    the counter that has the parity of the priority of [x]. *)
Lemma counts_ok_step (g : Graph) (s s' : Solver) (x : Z) :
  valid_graph g = true -> sizes g s -> k s' = k s ->
  0 <= x < num_vertices g ->
  (forall v q, 0 <= v < num_vertices g -> v <> x -> q = 0 \/ q = 1 ->
     rd (pm s' v) q = rd (pm s v) q) ->
  (rd (pm s x) (vpriority g x mod 2) = -1 -> rd (pm s' x) (vpriority g x mod 2) = -1) ->
  counts s' =
    (if newly_top s s' x (vpriority g x mod 2)
     then wr (counts s) (vpriority g x) (rd (counts s) (vpriority g x) - 1)
     else counts s) ->
  counts_ok g s -> counts_ok g s'.
Proof.
  intros Hg Hsz Hk Hx Hother Htop Hcounts Hok i Hi.
  rewrite Hk in Hi. specialize (Hok i Hi).
  set (d := vpriority g x) in *.
  destruct (valid_graph_vertex g x Hg Hx) as (_ & Hd0 & _).
  pose proof (sz_prio _ _ Hsz x Hx) as Hd1. fold d in Hd0, Hd1.
  pose proof (sz_counts _ _ Hsz) as Hlen.
  assert (Hext : forall y, In y (nodes g) -> y <> x ->
            unsaturated g s' i y = unsaturated g s i y).
  { intros y Hy Hne. apply In_nodes in Hy. unfold unsaturated.
    rewrite Hother by (done || lia). done. }
  unfold count_unsaturated.
  destruct (decide (i = d)) as [->|Hid].
  - unfold newly_top in Hcounts.
    destruct (Z.eqb_spec (rd (pm s x) (d mod 2)) (-1)) as [Ht|Ht]; simpl in Hcounts.
    + rewrite Hcounts, Hok. unfold count_unsaturated. f_equal.
      symmetry. apply filter_length_same. intros y Hy.
      destruct (decide (y = x)) as [->|Hne]; [|by apply Hext].
      unfold unsaturated. rewrite Ht, (Htop Ht). done.
    + destruct (Z.eqb_spec (rd (pm s' x) (d mod 2)) (-1)) as [Ht'|Ht'].
      * rewrite Hcounts, rd_wr_eq by lia. rewrite Hok. unfold count_unsaturated.
        rewrite (filter_length_drop (unsaturated g s d) (unsaturated g s' d) (nodes g) x).
        -- lia.
        -- apply NoDup_nodes.
        -- by apply In_nodes.
        -- exact Hext.
        -- unfold unsaturated. fold d. destruct (Z.eqb_spec d d); [|done].
           destruct (Z.eqb_spec (rd (pm s x) (d mod 2)) (-1)); done.
        -- unfold unsaturated. rewrite Ht'. apply andb_false_r.
      * rewrite Hcounts, Hok. unfold count_unsaturated. f_equal.
        symmetry. apply filter_length_same. intros y Hy.
        destruct (decide (y = x)) as [->|Hne]; [|by apply Hext].
        unfold unsaturated.
        destruct (Z.eqb_spec (rd (pm s x) (d mod 2)) (-1)); [done|].
        destruct (Z.eqb_spec (rd (pm s' x) (d mod 2)) (-1)); done.
  - assert (Hc : rd (counts s') i = rd (counts s) i).
    { rewrite Hcounts. destruct (newly_top _ _ _ _); [|done].
      apply rd_wr_ne. lia. }
    rewrite Hc, Hok. unfold count_unsaturated. f_equal.
    symmetry. apply filter_length_same. intros y Hy.
    destruct (decide (y = x)) as [->|Hne]; [|by apply Hext].
    unfold unsaturated. fold d. destruct (Z.eqb_spec d i); [lia|done].
Qed.

Lemma lift_other_measure (g : Graph) (node target : Z) (s s' : Solver) (v q : Z) :
  sizes g s -> lift_post g node target s s' ->
  0 <= node < num_vertices g -> 0 <= v < num_vertices g -> v <> node ->
  0 <= q < k s ->
  rd (pm s' v) q = rd (pm s v) q.
Proof.
  intros Hsz Hpost Hnode Hv Hne Hq.
  pose proof (lp_k _ _ _ _ _ Hpost) as Hk.
  unfold pm. rewrite Hk. rewrite !rd_pm_at by nia.
  apply (lp_frame _ _ _ _ _ Hpost); [nia|]. unfold in_measure. nia.
Qed.

Lemma lift_counts_ok (g : Graph) (node target : Z) (s : Solver) :
  valid_graph g = true -> sizes g s -> 0 <= node < num_vertices g ->
  target = -1 \/ 0 <= target ->
  counts_ok g s -> counts_ok g (lift g s node target).2.
Proof.
  intros Hg Hsz Hnode Ht Hok.
  pose proof (lift_spec g node target s Hg Hsz Hnode Ht) as Hpost.
  pose proof (sz_k _ _ Hsz) as Hk.
  apply (counts_ok_step g s _ node); try done.
  - apply Hpost.
  - intros v q Hv Hne Hq. eapply lift_other_measure; try eassumption. lia.
  - apply (lp_top _ _ _ _ _ Hpost). lia.
  - apply Hpost.
Qed.

(** The test of the last loop of [update] on vertex [i]. *)
Definition update_fires (g : Graph) (pl : Z) (s : Solver) (i : Z) : bool :=
  (rd (unstable s) i =? 0) && negb (rd (pms s) (k s * i + 1 - pl) =? -1)
  && negb (Z.land (vpriority g i) 1 =? pl).

Lemma update_final_unfold (g : Graph) (pl : Z) (s : Solver) (i : Z) :
  update_final g pl s i =
    if update_fires g pl s i
    then todo_push (set_pms (dec_counts s (vpriority g i))
                            (wr (pms s) (k s * i + 1 - pl) (-1))) i
    else s.
Proof.
  unfold update_final, update_fires.
  destruct (rd (unstable s) i =? 0), (rd (pms s) (k s * i + 1 - pl) =? -1),
    (Z.land (vpriority g i) 1 =? pl); done.
Qed.

Lemma todo_push_fields (s : Solver) (v : Z) :
  k (todo_push s v) = k s /\ pms (todo_push s v) = pms s
  /\ strategy (todo_push s v) = strategy s /\ counts (todo_push s v) = counts s
  /\ tmp (todo_push s v) = tmp s /\ best (todo_push s v) = best s
  /\ unstable (todo_push s v) = unstable s
  /\ lift_count (todo_push s v) = lift_count s
  /\ lift_attempt (todo_push s v) = lift_attempt s
  /\ length (dirty (todo_push s v)) = length (dirty s).
Proof.
  unfold todo_push. destruct (rd (dirty s) v =? 0); simpl; rewrite ?length_wr; done.
Qed.

Lemma todo_push_sizes (g : Graph) (s : Solver) (v : Z) :
  sizes g s -> sizes g (todo_push s v).
Proof.
  intros Hsz. destruct (todo_push_fields s v) as (H1 & H2 & H3 & H4 & H5 & H6 & H7 & _ & _ & H8).
  apply (sizes_transfer g s); congruence.
Qed.

Lemma todo_pop_sizes (g : Graph) (s : Solver) : sizes g s -> sizes g (todo_pop s).2.
Proof.
  intros Hsz. unfold todo_pop. destruct (todo s); simpl; [done|].
  apply (sizes_transfer g s); simpl; rewrite ?length_wr; done.
Qed.

Lemma todo_push_pm (s : Solver) (v x : Z) : pm (todo_push s v) x = pm s x.
Proof.
  destruct (todo_push_fields s v) as (H1 & H2 & _). unfold pm. congruence.
Qed.

Lemma todo_push_counts_ok (g : Graph) (s : Solver) (v : Z) :
  counts_ok g s -> counts_ok g (todo_push s v).
Proof.
  intros Hok i Hi.
  destruct (todo_push_fields s v) as (H1 & H2 & _ & H4 & _).
  rewrite H1 in Hi. rewrite H4, (Hok i Hi).
  unfold count_unsaturated, unsaturated. f_equal. f_equal.
  apply List.filter_ext. intros a. by rewrite todo_push_pm.
Qed.

Lemma todo_pop_counts_ok (g : Graph) (s : Solver) :
  counts_ok g s -> counts_ok g (todo_pop s).2.
Proof.
  unfold todo_pop. destruct (todo s); done.
Qed.

(** One turn of the last loop of [update]. *)
Lemma update_final_spec (g : Graph) (pl : Z) (s : Solver) (i : Z) :
  valid_graph g = true -> sizes g s -> pl = 0 \/ pl = 1 -> 0 <= i < num_vertices g ->
  let s' := update_final g pl s i in
  sizes g s'
  /\ k s' = k s /\ unstable s' = unstable s /\ strategy s' = strategy s
  /\ (forall j, 0 <= j -> j <> k s * i + 1 - pl -> rd (pms s') j = rd (pms s) j)
  /\ (rd (pms s) (k s * i + 1 - pl) = -1 -> rd (pms s') (k s * i + 1 - pl) = -1)
  /\ (update_fires g pl s i = true -> rd (pms s') (k s * i + 1 - pl) = -1)
  /\ (counts_ok g s -> counts_ok g s').
Proof.
  intros Hg Hsz Hpl Hi s'. subst s'. rewrite update_final_unfold.
  destruct (update_fires g pl s i) eqn:Hf.
  2:{ split; [done|]. repeat split; done. }
  pose proof (sz_k _ _ Hsz) as Hk. pose proof (sz_pms _ _ Hsz) as Hlen.
  set (d := vpriority g i).
  set (s1 := set_pms (dec_counts s d) (wr (pms s) (k s * i + 1 - pl) (-1))).
  assert (Hsz1 : sizes g s1).
  { apply (sizes_transfer g s); simpl; rewrite ?length_wr; done. }
  destruct (todo_push_fields s1 i) as (H1 & H2 & H3 & H4 & H5 & H6 & H7 & _ & _ & H8).
  assert (Hcell : rd (pms s1) (k s * i + 1 - pl) = -1).
  { simpl. apply rd_wr_eq. nia. }
  split; [by apply todo_push_sizes|].
  split; [by rewrite H1|]. split; [by rewrite H7|]. split; [by rewrite H3|].
  split; [intros j Hj Hne; rewrite H2; simpl; apply rd_wr_ne; nia|].
  split; [intros _; by rewrite H2|]. split; [intros _; by rewrite H2|].
  intros Hok. apply todo_push_counts_ok.
  unfold update_fires in Hf.
  apply andb_prop in Hf as [Hf Hpar]. apply andb_prop in Hf as [Hun Hfin].
  rewrite land_1_mod in Hpar. fold d in Hpar.
  assert (Hpd : d mod 2 = 1 - pl) by lia.
  assert (Hrd : forall t q, k t = k s -> 0 <= q < 2 ->
            rd (pm t i) q = rd (pms t) (k s * i + q)).
  { intros t q Hkt Hq. unfold pm. rewrite Hkt. apply rd_pm_at; nia. }
  apply (counts_ok_step g s s1 i); try done.
  - intros v q Hv Hne Hq. unfold pm. simpl. rewrite !rd_pm_at by nia.
    apply rd_wr_ne. nia.
  - fold d. rewrite Hpd. intros _. rewrite (Hrd s1) by (done || lia).
    replace (k s * i + (1 - pl)) with (k s * i + 1 - pl) by lia. done.
  - fold d. rewrite Hpd. unfold newly_top.
    rewrite (Hrd s), (Hrd s1) by (done || lia).
    replace (k s * i + (1 - pl)) with (k s * i + 1 - pl) by lia.
    rewrite Hcell. destruct (Z.eqb_spec (rd (pms s) (k s * i + 1 - pl)) (-1)); [lia|].
    done.
Qed.

(** ** The state that [solve] sets up *)

Lemma length_resize (a : list Z) (n : Z) : length (resize a n) = Z.to_nat n.
Proof.
  unfold resize. rewrite length_app, length_take, length_replicate. lia.
Qed.

Lemma fill_from_spec (n v : Z) (fuel : nat) : forall (a : list Z) (i : Z),
  0 <= i -> (Z.to_nat (n - i) <= fuel)%nat -> (Z.to_nat n <= length a)%nat ->
  length (fill_from fuel a i n v) = length a
  /\ forall j, 0 <= j ->
       rd (fill_from fuel a i n v) j = if (i <=? j) && (j <? n) then v else rd a j.
Proof.
  induction fuel as [|f IH]; intros a i Hi Hf Hlen; simpl.
  - split; [done|]. intros j Hj. zbool; simpl; try done. lia.
  - destruct (Z.ltb_spec i n) as [Hlt|Hge].
    + destruct (IH (wr a i v) (i + 1)) as [IH1 IH2]; try lia.
      { rewrite length_wr. lia. }
      rewrite length_wr in IH1. split; [done|].
      intros j Hj. rewrite IH2 by done.
      destruct (decide (j = i)) as [->|Hne];
        [rewrite rd_wr_eq by lia | rewrite rd_wr_ne by lia];
        zbool; simpl; try done; lia.
    + split; [done|]. intros j Hj. zbool; simpl; try done. lia.
Qed.

Lemma fill_spec (a : list Z) (n v : Z) :
  (Z.to_nat n <= length a)%nat ->
  length (fill a n v) = length a
  /\ forall j, 0 <= j < n -> rd (fill a n v) j = v.
Proof.
  intros Hlen. unfold fill.
  destruct (fill_from_spec n v (Z.to_nat n) a 0) as [H1 H2]; try lia.
  split; [done|]. intros j Hj. rewrite H2 by lia. zbool; simpl; try done; lia.
Qed.

Lemma get_max_priority_ge (g : Graph) (v : VertexProps) :
  In v g -> priority v <= get_max_priority g.
Proof.
  unfold get_max_priority. induction g as [|a g IH]; simpl; [done|].
  intros [->|Hin]; [lia|]. specialize (IH Hin). lia.
Qed.

Lemma get_max_priority_nonneg (g : Graph) : 0 <= get_max_priority g.
Proof.
  unfold get_max_priority. induction g as [|a g IH]; simpl; lia.
Qed.

Lemma fold_count_priority_fields (g : Graph) (l : list Z) : forall s : Solver,
  let s' := fold_left (count_priority g) l s in
  k s' = k s /\ pms s' = pms s /\ strategy s' = strategy s /\ tmp s' = tmp s
  /\ best s' = best s /\ dirty s' = dirty s /\ unstable s' = unstable s
  /\ todo s' = todo s /\ length (counts s') = length (counts s).
Proof.
  induction l as [|a l IH]; intros s; cbn [fold_left]; [done|].
  destruct (IH (count_priority g s a)) as (H1 & H2 & H3 & H4 & H5 & H6 & H7 & H8 & H9).
  simpl in *. rewrite length_wr in H9. done.
Qed.

Lemma fold_count_priority_counts (g : Graph) (l : list Z) : forall (s : Solver) (i : Z),
  (forall v, In v l -> 0 <= vpriority g v < Z.of_nat (length (counts s))) ->
  0 <= i ->
  rd (counts (fold_left (count_priority g) l s)) i
  = rd (counts s) i + Z.of_nat (length (List.filter (fun v => vpriority g v =? i) l)).
Proof.
  induction l as [|a l IH]; intros s i Hl Hi; cbn [fold_left]; [simpl; lia|].
  rewrite IH; try done.
  - simpl. specialize (Hl a ltac:(by left)).
    destruct (Z.eqb_spec (vpriority g a) i) as [Heq|Hne]; simpl.
    + rewrite Heq in *. rewrite rd_wr_eq by lia. lia.
    + rewrite rd_wr_ne by lia. lia.
  - intros v Hv. simpl. rewrite length_wr. apply Hl. by right.
Qed.

Lemma init_spec (g : Graph) (s0 : Solver) :
  valid_graph g = true ->
  sizes g (init g s0) /\ todo (init g s0) = todo s0
  /\ (forall v, 0 <= v < num_vertices g -> 0 <= vpriority g v < k (init g s0)).
Proof.
  intros Hg.
  pose proof (get_max_priority_nonneg g) as Hmax.
  assert (Hn : 0 <= num_vertices g) by (unfold num_vertices; lia).
  assert (Hk : k (init g s0) = get_max_priority g + 1 \/ k (init g s0) = 2).
  { unfold init. simpl. destruct (Z.ltb_spec (get_max_priority g + 1) 2); lia. }
  assert (Hk2 : 2 <= k (init g s0)).
  { unfold init. simpl. destruct (Z.ltb_spec (get_max_priority g + 1) 2); lia. }
  assert (Hprio : forall v, 0 <= v < num_vertices g -> 0 <= vpriority g v < k (init g s0)).
  { intros v Hv. destruct (valid_graph_vertex g v Hg Hv) as (_ & H0 & _).
    split; [done|].
    pose proof (vertex_at_lookup g v Hv) as Hl.
    assert (Hin : In (vertex_at g v) g).
    { apply list_elem_of_In. eapply list_elem_of_lookup_2. exact Hl. }
    apply get_max_priority_ge in Hin. unfold vpriority.
    unfold init. simpl. destruct (Z.ltb_spec (get_max_priority g + 1) 2); lia. }
  split; [|split; [done|exact Hprio]].
  constructor; try done.
  - intros v Hv. by apply Hprio.
  - unfold init at 1. simpl pms. rewrite length_resize.
    change (if get_max_priority g + 1 <? 2 then 2 else get_max_priority g + 1)
      with (k (init g s0)). nia.
  - unfold init at 1. simpl strategy. rewrite length_resize. lia.
  - unfold init at 1. simpl counts. rewrite length_resize.
    change (if get_max_priority g + 1 <? 2 then 2 else get_max_priority g + 1)
      with (k (init g s0)). lia.
  - unfold init at 1. simpl tmp. rewrite length_resize.
    change (if get_max_priority g + 1 <? 2 then 2 else get_max_priority g + 1)
      with (k (init g s0)). lia.
  - unfold init at 1. simpl best. rewrite length_resize.
    change (if get_max_priority g + 1 <? 2 then 2 else get_max_priority g + 1)
      with (k (init g s0)). lia.
  - unfold init at 1. simpl dirty. rewrite length_resize. lia.
  - unfold init at 1. simpl unstable. rewrite length_resize. lia.
Qed.

Lemma solve_setup_ok (g : Graph) (s0 : Solver) :
  valid_graph g = true ->
  sizes g (solve_setup g s0) /\ counts_ok g (solve_setup g s0)
  /\ (forall j, 0 <= j -> rd (pms (solve_setup g s0)) j = 0)
  /\ (forall v, 0 <= v < num_vertices g -> rd (strategy (solve_setup g s0)) v = -1)
  /\ todo (solve_setup g s0) = todo s0.
Proof.
  intros Hg. unfold solve_setup.
  destruct (init_spec g s0 Hg) as (Hsz1 & Htodo & Hprio).
  generalize dependent (init g s0). intros s1 Hsz1 Htodo Hprio.
  destruct Hsz1 as [Hk _ Lp Ls Lc Lt Lb Ld Lu].
  assert (Hn : 0 <= num_vertices g) by (unfold num_vertices; lia).
  cbv zeta. cbn [set_pms set_strategy set_counts k pms strategy counts tmp best dirty
                 unstable todo lift_count lift_attempt].
  match goal with
  | |- context [fold_left (count_priority g) (nodes g) ?x] => set (s4 := x)
  end.
  destruct (fill_spec (pms s1) (k s1 * num_vertices g) 0) as [P1 P2]; [lia|].
  destruct (fill_spec (strategy s1) (num_vertices g) (-1)) as [S1 S2]; [lia|].
  destruct (fill_spec (counts s1) (k s1) 0) as [C1 C2]; [lia|].
  destruct (fill_spec (dirty s1) (num_vertices g) 0) as [D1 D2]; [lia|].
  destruct (fold_count_priority_fields g (nodes g) s4)
    as (F1 & F2 & F3 & F4 & F5 & F6 & F7 & F8 & F9).
  pose proof (fold_count_priority_counts g (nodes g) s4) as Hcnt.
  set (s5 := fold_left (count_priority g) (nodes g) s4) in *.
  change (k s4) with (k s1) in F1.
  change (pms s4) with (fill (pms s1) (k s1 * num_vertices g) 0) in F2.
  change (strategy s4) with (fill (strategy s1) (num_vertices g) (-1)) in F3.
  change (tmp s4) with (tmp s1) in F4. change (best s4) with (best s1) in F5.
  change (dirty s4) with (dirty s1) in F6. change (unstable s4) with (unstable s1) in F7.
  change (todo s4) with (todo s1) in F8.
  change (counts s4) with (fill (counts s1) (k s1) 0) in F9, Hcnt.
  assert (Hpms : forall j, 0 <= j -> rd (pms s5) j = 0).
  { intros j Hj. rewrite F2.
    destruct (Z.lt_ge_cases j (k s1 * num_vertices g)); [apply P2; lia|].
    unfold rd. rewrite lookup_ge_None_2; [done|]. rewrite P1. lia. }
  split; [|split; [|split; [|split]]].
  - constructor; simpl; rewrite ?F1, ?F2, ?F3, ?F4, ?F5, ?F6, ?F7, ?F9,
      ?D1, ?C1, ?S1, ?P1; try done.
    intros v Hv. by apply Hprio.
  - intros i Hi. simpl in Hi. rewrite F1 in Hi. simpl.
    rewrite Hcnt; try lia.
    + rewrite C2 by lia.
      unfold count_unsaturated. rewrite Z.add_0_l. f_equal. f_equal.
      apply List.filter_ext_in. intros v Hv. apply In_nodes in Hv.
      unfold unsaturated. unfold pm. simpl.
      rewrite F1. rewrite rd_pm_at by (nia || lia).
      rewrite Hpms by nia. simpl. by rewrite andb_true_r.
    + intros v Hv. apply In_nodes in Hv. rewrite C1.
      specialize (Hprio v Hv). lia.
  - intros j Hj. simpl. by apply Hpms.
  - intros v Hv. simpl. rewrite F3. by apply S2.
  - simpl. rewrite F8. done.
Qed.

(** ** Properties kept by every step of [solve] *)

Lemma fold_left_preserves {A : Type} (P : Solver -> Prop) (Q : A -> Prop)
      (f : Solver -> A -> Solver) (l : list A) :
  (forall s a, P s -> Q a -> P (f s a)) ->
  (forall a, In a l -> Q a) ->
  forall s, P s -> P (fold_left f l s).
Proof.
  intros Hf. induction l as [|a l IH]; intros Hl s Hs; cbn [fold_left]; [done|].
  apply IH.
  - intros b Hb. apply Hl. by right.
  - apply Hf; [done|]. apply Hl. by left.
Qed.

Section Preservation.
Context (g : Graph) (Hg : valid_graph g = true) (P : Solver -> Prop).
Hypothesis P_lift : forall s node target,
  P s -> 0 <= node < num_vertices g -> 0 <= target < num_vertices g ->
  P (lift g s node target).2.
Hypothesis P_push : forall s v, P s -> P (todo_push s v).

Lemma lift_preds_preserves (s : Solver) (n : Z) : P s -> P (lift_preds g s n).
Proof.
  unfold lift_preds.
  apply (fold_left_preserves P (fun other => 0 <= other < num_vertices g)).
  - intros s1 other Hs1 Hother.
    apply (fold_left_preserves P (fun t => 0 <= t < num_vertices g)); [|  |done].
    + intros s2 tgt Hs2 Htgt. unfold lift_pred_edge.
      destruct (Z.eqb_spec tgt n) as [->|Hne]; [|done].
      specialize (P_lift s2 other n Hs2 Hother Htgt).
      destruct (lift g s2 other n) as [r s3]. simpl in P_lift.
      destruct r; [by apply P_push|done].
    + intros t Ht. by apply (valid_graph_vertex g other Hg Hother).
  - intros other Hin. by apply In_nodes.
Qed.

Hypothesis P_pop : forall s, P s -> P (todo_pop s).2.
Hypothesis P_update : forall fuel s pl s',
  P s -> pl = 0 \/ pl = 1 -> update fuel g s pl = Some s' -> P s'.

Lemma solve_loop_preserves (fuel : nat) : forall (s : Solver) (lu : Z) (s' : Solver),
  P s -> solve_loop fuel g s lu = Some s' -> P s'.
Proof.
  induction fuel as [|f IH]; intros s lu s' Hs; simpl.
  - destruct (todo s); [|discriminate]. by intros [= <-].
  - destruct (todo s) eqn:Et; [by intros [= <-]|].
    pose proof (P_pop s Hs) as Hpop.
    destruct (todo_pop s) as [n s1]. simpl in Hpop.
    pose proof (lift_preds_preserves s1 n Hpop) as Hs2.
    destruct (lu + 10 * num_vertices g <? lift_count (lift_preds g s1 n)).
    + destruct (update (S f) g (lift_preds g s1 n) 0) as [s3|] eqn:E3; [|discriminate].
      destruct (update (S f) g s3 1) as [s4|] eqn:E4; [|discriminate].
      apply IH. eapply P_update; [|by right|exact E4].
      eapply P_update; [exact Hs2|by left|exact E3].
    + by apply IH.
Qed.
End Preservation.

Lemma core_eq_pm (s s' : Solver) (v : Z) : core_eq s s' -> pm s' v = pm s v.
Proof. intros []. unfold pm. congruence. Qed.

Lemma core_eq_counts_ok (g : Graph) (s s' : Solver) :
  core_eq s s' -> counts_ok g s -> counts_ok g s'.
Proof.
  intros Hce Hok i Hi. rewrite (ce_k _ _ Hce) in Hi.
  rewrite (ce_counts _ _ Hce), (Hok i Hi).
  unfold count_unsaturated, unsaturated. f_equal. f_equal.
  apply List.filter_ext. intros a. by rewrite (core_eq_pm s s').
Qed.

(** What [update] keeps: the sizes, the invariant of [counts], the strategy
    and every saturated counter. *)
Lemma update_preserves (fuel : nat) (g : Graph) (s : Solver) (pl : Z) (s' : Solver) :
  valid_graph g = true -> sizes g s -> pl = 0 \/ pl = 1 ->
  update fuel g s pl = Some s' ->
  sizes g s' /\ k s' = k s /\ strategy s' = strategy s
  /\ (counts_ok g s -> counts_ok g s')
  /\ (forall j, 0 <= j -> rd (pms s) j = -1 -> rd (pms s') j = -1).
Proof.
  intros Hg Hsz Hpl Hup.
  destruct (update_phases fuel g s pl s' Hup) as (s2 & Hce & ->).
  pose proof (core_eq_sizes g s s2 Hsz Hce) as Hsz2.
  set (P := fun t => sizes g t /\ k t = k s /\ strategy t = strategy s
                     /\ (counts_ok g s -> counts_ok g t)
                     /\ (forall j, 0 <= j -> rd (pms s) j = -1 -> rd (pms t) j = -1)).
  apply (fold_left_preserves P (fun i => 0 <= i < num_vertices g)).
  - intros t i (T1 & T2 & T3 & T4 & T5) Hi.
    destruct (update_final_spec g pl t i Hg T1 Hpl Hi)
      as (U1 & U2 & U3 & U4 & U5 & U6 & U7 & U8).
    split; [done|]. split; [congruence|]. split; [congruence|].
    split; [auto|].
    intros j Hj Hj1.
    destruct (decide (j = k t * i + 1 - pl)) as [->|Hne].
    + apply U6. by apply T5.
    + rewrite U5 by done. by apply T5.
  - intros i Hin. by apply In_nodes.
  - split; [done|]. split; [apply Hce|]. split; [apply Hce|].
    split; [by apply core_eq_counts_ok|].
    intros j Hj Hj1. by rewrite (ce_pms _ _ Hce).
Qed.

Lemma solve_first_preserves (g : Graph) (P : Solver -> Prop) :
  valid_graph g = true ->
  (forall s node target, P s -> 0 <= node < num_vertices g ->
     target = -1 \/ 0 <= target < num_vertices g -> P (lift g s node target).2) ->
  (forall s v, P s -> P (todo_push s v)) ->
  forall s, P s -> P (fold_left (solve_first g) (rev (nodes g)) s).
Proof.
  intros Hg P_lift P_push.
  apply (fold_left_preserves P (fun n => 0 <= n < num_vertices g)).
  - intros s n Hs Hn. unfold solve_first.
    pose proof (P_lift s n (-1) Hs Hn ltac:(by left)) as H1.
    destruct (lift g s n (-1)) as [r s1]. simpl in H1.
    destruct r; [|done].
    apply lift_preds_preserves; try done.
    intros s2 node target Hs2 Hnode Htarget. apply P_lift; try done. by right.
  - intros n Hin. apply In_nodes. by apply in_rev.
Qed.

(** The states that [solve] goes through keep the sizes and the invariant
    of [counts]. *)
Lemma solve_state_ok (fuel : nat) (g : Graph) (s0 : Solver) (sol : Solution) (s' : Solver) :
  valid_graph g = true -> solve fuel g s0 = Some (sol, s') ->
  sizes g s' /\ counts_ok g s'.
Proof.
  intros Hg. unfold solve.
  destruct (solve_setup_ok g s0 Hg) as (Hsz & Hok & _).
  set (P := fun t => sizes g t /\ counts_ok g t).
  assert (P_lift : forall s node target, P s -> 0 <= node < num_vertices g ->
            target = -1 \/ 0 <= target < num_vertices g -> P (lift g s node target).2).
  { intros s node target [H1 H2] Hn Ht. split.
    - apply (lift_spec g node target s); try done. lia.
    - apply lift_counts_ok; try done. lia. }
  assert (P_push : forall s v, P s -> P (todo_push s v)).
  { intros s v [H1 H2]. split; [by apply todo_push_sizes|by apply todo_push_counts_ok]. }
  pose proof (solve_first_preserves g P Hg P_lift P_push (solve_setup g s0)
                (conj Hsz Hok)) as H1.
  destruct (solve_loop fuel g _ 0) as [s3|] eqn:E; [|discriminate].
  intros [= <- <-].
  apply (solve_loop_preserves g Hg P) in E; try done.
  - intros s node target Hs Hn Ht. apply P_lift; try done. by right.
  - intros s [H2 H3]. split; [by apply todo_pop_sizes|by apply todo_pop_counts_ok].
  - intros f s pl t [H2 H3] Hpl Hup.
    destruct (update_preserves f g s pl t Hg H2 Hpl Hup) as (U1 & _ & _ & U4 & _).
    split; auto.
Qed.

(** ** Example graphs *)

(** One vertex of priority 0 owned by player 0, with a self-loop. *)
Definition g_loop : Graph := [mkVertex 0 0 [0]].

(** [a -> b -> a] with [a] of priority 2 owned by 0 and [b] of priority 1
    owned by 1. *)
Definition g_cycle : Graph := [mkVertex 0 2 [1]; mkVertex 1 1 [0]].

(** ** C6: the bound shrinks exactly when a counter saturates *)

Lemma lift_saturation_permanent (g : Graph) (s : Solver) (node target v p : Z) :
  valid_graph g = true -> sizes g s -> 0 <= node < num_vertices g ->
  target = -1 \/ 0 <= target < num_vertices g ->
  0 <= v < num_vertices g -> p = 0 \/ p = 1 ->
  rd (pm s v) p = -1 -> rd (pm (lift g s node target).2 v) p = -1.
Proof.
  intros Hg Hsz Hnode Ht Hv Hp Htop.
  assert (Hpost : lift_post g node target s (lift g s node target).2).
  { apply lift_spec; try done. lia. }
  destruct (decide (v = node)) as [->|Hne].
  - by apply (lp_top _ _ _ _ _ Hpost).
  - rewrite (lift_other_measure g node target s _ v p Hsz Hpost); try done.
    pose proof (sz_k _ _ Hsz). lia.
Qed.

(** C6.  A call of [lift] on [node], of priority [d], decrements
    [counts[d]] when it saturates the counter of the player [d mod 2] that
    was not saturated before, and otherwise leaves [counts] as it was: the
    saturation of the counter of the other parity does not touch [counts],
    nor does a lift that saturates nothing.  A saturated counter stays
    saturated, so the decrement happens the first time only. *)
Theorem lift_shrinks_counts_on_saturation (g : Graph) (s : Solver) (node target : Z) :
  valid_graph g = true -> sized g s = true ->
  0 <= node < num_vertices g -> target = -1 \/ 0 <= target < num_vertices g ->
  let s' := (lift g s node target).2 in
  let d := vpriority g node in
  (forall p, newly_top s s' node p = true -> d mod 2 = p ->
     counts s' = wr (counts s) d (rd (counts s) d - 1))
  /\ (newly_top s s' node (d mod 2) = false -> counts s' = counts s)
  /\ (forall p, p = 0 \/ p = 1 -> rd (pm s node) p = -1 -> rd (pm s' node) p = -1).
Proof.
  intros Hg Hsd Hnode Ht s' d. apply sized_sizes in Hsd.
  assert (Hpost : lift_post g node target s s').
  { apply lift_spec; try done. lia. }
  pose proof (lp_counts _ _ _ _ _ Hpost) as Hc. fold d in Hc.
  split; [|split].
  - intros p Hnew <-. by rewrite Hnew in Hc.
  - intros Hnew. by rewrite Hnew in Hc.
  - apply (lp_top _ _ _ _ _ Hpost).
Qed.

(** The state of the solver on [g_loop] after the first lift of its vertex. *)
Definition s_loop_lifted : Solver :=
  (lift g_loop (solve_setup g_loop fresh_solver) 0 (-1)).2.

(** On [g_loop] the second lift of the vertex saturates the counter of
    player 0. *)
Lemma lift_shrinks_counts_on_saturation_witness :
  newly_top s_loop_lifted (lift g_loop s_loop_lifted 0 0).2 0 0 = true
  /\ counts s_loop_lifted = [1; 0]
  /\ counts (lift g_loop s_loop_lifted 0 0).2 = [0; 0].
Proof.
  destruct (lift_shrinks_counts_on_saturation g_loop s_loop_lifted 0 0) as (H1 & _ & _).
  - reflexivity.
  - reflexivity.
  - unfold num_vertices. simpl. lia.
  - right. unfold num_vertices. simpl. lia.
  - split; [reflexivity|]. split; [reflexivity|].
    rewrite (H1 0); reflexivity.
Defined.

(** ** C10: [counts] counts the unsaturated vertices *)

(** C10.  From the moment [solve] has filled [counts], [counts[i]] is the
    number of vertices of priority [i] whose counter for player [i mod 2] is
    not saturated: the set-up establishes this, every [lift] and every
    [update] keeps it, and it holds in the state [solve] ends in.  No entry
    of [counts] is therefore ever negative, and since saturated counters
    stay saturated under [lift] and [update], a vertex accounts for at most
    one decrement. *)
Theorem counts_tracks_unsaturated_vertices (g : Graph) :
  valid_graph g = true ->
  (forall s0, counts_ok g (solve_setup g s0))
  /\ (forall s node target,
        sized g s = true -> 0 <= node < num_vertices g ->
        target = -1 \/ 0 <= target < num_vertices g ->
        counts_ok g s -> counts_ok g (lift g s node target).2)
  /\ (forall fuel s pl s',
        sized g s = true -> pl = 0 \/ pl = 1 -> update fuel g s pl = Some s' ->
        counts_ok g s -> counts_ok g s')
  /\ (forall fuel s0 sol s', solve fuel g s0 = Some (sol, s') -> counts_ok g s')
  /\ (forall s, counts_ok g s -> forall i, 0 <= i < k s -> 0 <= rd (counts s) i)
  /\ (forall s node target v p,
        sized g s = true -> 0 <= node < num_vertices g ->
        target = -1 \/ 0 <= target < num_vertices g ->
        0 <= v < num_vertices g -> p = 0 \/ p = 1 ->
        rd (pm s v) p = -1 -> rd (pm (lift g s node target).2 v) p = -1)
  /\ (forall fuel s pl s' v p,
        sized g s = true -> pl = 0 \/ pl = 1 -> update fuel g s pl = Some s' ->
        0 <= v < num_vertices g -> p = 0 \/ p = 1 ->
        rd (pm s v) p = -1 -> rd (pm s' v) p = -1).
Proof.
  intros Hg. repeat split.
  - intros s0. apply (solve_setup_ok g s0 Hg).
  - intros s node target Hsd Hnode Ht Hok. apply sized_sizes in Hsd.
    apply lift_counts_ok; try done. lia.
  - intros fuel s pl s' Hsd Hpl Hup Hok. apply sized_sizes in Hsd.
    by apply (update_preserves fuel g s pl s' Hg Hsd Hpl Hup).
  - intros fuel s0 sol s' Hsolve. by apply (solve_state_ok fuel g s0 sol s' Hg).
  - intros s Hok i Hi. rewrite (Hok i Hi). unfold count_unsaturated. lia.
  - intros s node target v p Hsd Hnode Ht Hv Hp Htop. apply sized_sizes in Hsd.
    by apply lift_saturation_permanent.
  - intros fuel s pl s' v p Hsd Hpl Hup Hv Hp Htop. apply sized_sizes in Hsd.
    destruct (update_preserves fuel g s pl s' Hg Hsd Hpl Hup) as (_ & Hk & _ & _ & Hmono).
    pose proof (sz_k _ _ Hsd) as Hk2.
    unfold pm in *. rewrite Hk. rewrite rd_pm_at in * by nia.
    apply Hmono; [nia|done].
Qed.

(** The invariant at work on [g_cycle]. *)
Lemma counts_tracks_unsaturated_vertices_witness :
  counts_ok g_cycle (solve_setup g_cycle fresh_solver)
  /\ forall fuel sol s',
       solve fuel g_cycle fresh_solver = Some (sol, s') -> counts_ok g_cycle s'.
Proof.
  destruct (counts_tracks_unsaturated_vertices g_cycle) as (H1 & _ & _ & H4 & _).
  - reflexivity.
  - split; [apply H1|]. intros fuel sol s'. apply H4.
Defined.

(** ** C3: what the stabilisation pass does to the vertices it leaves stable *)

Lemma todo_push_worklist (g : Graph) (s : Solver) (v : Z) :
  sizes g s -> 0 <= v < num_vertices g ->
  (forall u, In u (todo s) -> In u (todo (todo_push s v)))
  /\ (forall u, rd (dirty s) u <> 0 -> rd (dirty (todo_push s v)) u <> 0)
  /\ (forall u, 0 <= u -> u <> v -> rd (dirty (todo_push s v)) u = rd (dirty s) u)
  /\ rd (dirty (todo_push s v)) v <> 0
  /\ (rd (dirty s) v = 0 \/ In v (todo s) -> In v (todo (todo_push s v))).
Proof.
  intros Hsz Hv. pose proof (sz_dirty _ _ Hsz) as Hlen.
  unfold todo_push. destruct (Z.eqb_spec (rd (dirty s) v) 0) as [H0|H0]; simpl.
  - split; [intros u Hu; apply in_or_app; by left|].
    split.
    { intros u Hu. destruct (decide (Z.to_nat v = Z.to_nat u)) as [E|E].
      - unfold rd, wr. rewrite E, list_lookup_insert_eq by lia. done.
      - by rewrite rd_wr_ne. }
    split; [intros u Hu Hne; apply rd_wr_ne; lia|].
    split; [rewrite rd_wr_eq by lia; done|].
    intros _. apply in_or_app. right. by left.
  - repeat split; try done. intros [H|H]; done.
Qed.

Lemma update_final_worklist (g : Graph) (pl : Z) (s : Solver) (i : Z) :
  sizes g s -> 0 <= i < num_vertices g ->
  let s' := update_final g pl s i in
  (forall u, In u (todo s) -> In u (todo s'))
  /\ (forall u, rd (dirty s) u <> 0 -> rd (dirty s') u <> 0)
  /\ (forall u, 0 <= u -> u <> i -> rd (dirty s') u = rd (dirty s) u)
  /\ (update_fires g pl s i = true ->
      rd (dirty s') i <> 0 /\ (rd (dirty s) i = 0 \/ In i (todo s) -> In i (todo s'))).
Proof.
  intros Hsz Hi s'. subst s'. rewrite update_final_unfold.
  destruct (update_fires g pl s i); [|repeat split; done].
  set (s1 := set_pms (dec_counts s (vpriority g i)) (wr (pms s) (k s * i + 1 - pl) (-1))).
  assert (Hsz1 : sizes g s1).
  { apply (sizes_transfer g s); simpl; rewrite ?length_wr; done. }
  destruct (todo_push_worklist g s1 i Hsz1 Hi) as (W1 & W2 & W3 & W4 & W5).
  repeat split; done.
Qed.

(** The cell of [pms] that holds the sentinel of player [1 - pl] at [i]. *)
Definition opp_cell (s : Solver) (pl i : Z) : Z := k s * i + 1 - pl.

Lemma update_final_fold_other (g : Graph) (pl i : Z) (s0 : Solver) (l : list Z) :
  valid_graph g = true -> pl = 0 \/ pl = 1 -> 0 <= i < num_vertices g ->
  (forall v, In v l -> 0 <= v < num_vertices g /\ v <> i) ->
  forall s, sizes g s -> k s = k s0 ->
  let s' := fold_left (update_final g pl) l s in
  sizes g s' /\ k s' = k s0 /\ unstable s' = unstable s
  /\ rd (pms s') (opp_cell s0 pl i) = rd (pms s) (opp_cell s0 pl i)
  /\ rd (dirty s') i = rd (dirty s) i
  /\ (forall u, In u (todo s) -> In u (todo s')).
Proof.
  intros Hg Hpl Hi. induction l as [|a l IH]; intros Hl s Hsz Hk; cbn [fold_left].
  { split; [done|]. repeat split; done. }
  destruct (Hl a ltac:(by left)) as [Ha Hne].
  destruct (update_final_spec g pl s a Hg Hsz Hpl Ha) as (U1 & U2 & U3 & _ & U5 & _).
  destruct (update_final_worklist g pl s a Hsz Ha) as (W1 & _ & W3 & _).
  destruct (IH ltac:(intros v Hv; apply Hl; by right) (update_final g pl s a) U1
              ltac:(congruence)) as (I1 & I2 & I3 & I4 & I5 & I6).
  split; [done|]. split; [done|]. split; [congruence|].
  split.
  { rewrite I4. apply U5; unfold opp_cell; pose proof (sz_k _ _ Hsz); nia. }
  split; [rewrite I5; apply W3; lia|].
  intros u Hu. apply I6. by apply W1.
Qed.

Lemma update_final_fold_mono (g : Graph) (pl i : Z) (s0 : Solver) (l : list Z) :
  valid_graph g = true -> pl = 0 \/ pl = 1 -> 0 <= i < num_vertices g ->
  (forall v, In v l -> 0 <= v < num_vertices g) ->
  forall s, sizes g s -> k s = k s0 ->
  let s' := fold_left (update_final g pl) l s in
  sizes g s' /\ k s' = k s0 /\ unstable s' = unstable s
  /\ (rd (pms s) (opp_cell s0 pl i) = -1 -> rd (pms s') (opp_cell s0 pl i) = -1)
  /\ (rd (dirty s) i <> 0 -> rd (dirty s') i <> 0)
  /\ (forall u, In u (todo s) -> In u (todo s')).
Proof.
  intros Hg Hpl Hi. induction l as [|a l IH]; intros Hl s Hsz Hk; cbn [fold_left].
  { split; [done|]. repeat split; done. }
  pose proof (Hl a ltac:(by left)) as Ha.
  destruct (update_final_spec g pl s a Hg Hsz Hpl Ha) as (U1 & U2 & U3 & _ & U5 & U6 & _).
  destruct (update_final_worklist g pl s a Hsz Ha) as (W1 & W2 & _ & _).
  destruct (IH ltac:(intros v Hv; apply Hl; by right) (update_final g pl s a) U1
              ltac:(congruence)) as (I1 & I2 & I3 & I4 & I5 & I6).
  split; [done|]. split; [done|]. split; [congruence|].
  split.
  { intros Htop. apply I4. unfold opp_cell in *.
    destruct (decide (k s0 * i + 1 - pl = k s * a + 1 - pl)) as [E|E].
    - rewrite E in *. by apply U6.
    - rewrite U5; [done| |done]. pose proof (sz_k _ _ Hsz). nia. }
  split; [intros Hd; apply I5; by apply W2|].
  intros u Hu. apply I6. by apply W1.
Qed.

(** C3 (as stated): on the one-vertex graph below, the vertex is left stable
    by [update(0)], its counter for player 1 is finite and its priority is
    odd; the pass does not give that counter a fresh finite value, it
    saturates it. *)
Definition g_odd_loop : Graph := [mkVertex 0 1 [0]].

Lemma update_saturates_rather_than_demotes :
  let s := solve_setup g_odd_loop fresh_solver in
  rd (pm s 0) 1 = 0
  /\ exists s', update 5 g_odd_loop s 0 = Some s'
                /\ rd (unstable s') 0 = 0 /\ rd (pm s' 0) 1 = -1.
Proof.
  split; [reflexivity|]. eexists. split; [vm_compute; reflexivity|].
  split; reflexivity.
Qed.

(** C3 (amended).  After the pass for player [pl], every vertex that the
    propagation left stable, whose counter for the other player was not
    saturated and whose priority has the other player's parity, has that
    counter saturated ([TOP]), is marked dirty, and is on the main worklist
    provided it was clean or already queued. *)
Theorem update_saturates_stable_vertices
        (fuel : nat) (g : Graph) (s : Solver) (pl : Z) (s' : Solver) (i : Z) :
  valid_graph g = true -> sized g s = true -> pl = 0 \/ pl = 1 ->
  update fuel g s pl = Some s' ->
  0 <= i < num_vertices g ->
  rd (unstable s') i = 0 -> rd (pm s i) (1 - pl) <> -1 ->
  vpriority g i mod 2 <> pl ->
  rd (pm s' i) (1 - pl) = -1
  /\ rd (dirty s') i <> 0
  /\ (rd (dirty s) i = 0 \/ In i (todo s) -> In i (todo s')).
Proof.
  intros Hg Hsd Hpl Hup Hi Hun Hfin Hpar. apply sized_sizes in Hsd.
  destruct (update_phases fuel g s pl s' Hup) as (s2 & Hce & ->).
  pose proof (core_eq_sizes g s s2 Hsd Hce) as Hsz2.
  pose proof (sz_k _ _ Hsz2) as Hk2.
  assert (Hin : In i (nodes g)) by (by apply In_nodes).
  destruct (in_split _ _ Hin) as (l1 & l2 & Hsplit).
  pose proof (NoDup_nodes g) as Hnd. rewrite Hsplit in Hnd.
  apply NoDup_app in Hnd as (_ & Hdis & Hnd2). apply NoDup_cons in Hnd2 as [Hni2 _].
  assert (Hl1 : forall v, In v l1 -> 0 <= v < num_vertices g /\ v <> i).
  { intros v Hv. split.
    - apply In_nodes. rewrite Hsplit. apply in_or_app. by left.
    - intros ->. eapply Hdis; [by apply list_elem_of_In|]. by left. }
  assert (Hl2 : forall v, In v l2 -> 0 <= v < num_vertices g).
  { intros v Hv. apply In_nodes. rewrite Hsplit. apply in_or_app. right. by right. }
  rewrite Hsplit in *. rewrite fold_left_app in *. cbn [fold_left] in *.
  destruct (update_final_fold_other g pl i s2 l1 Hg Hpl Hi Hl1 s2 Hsz2 eq_refl)
    as (A1 & A2 & A3 & A4 & A5 & A6).
  set (t := fold_left (update_final g pl) l1 s2) in *.
  destruct (update_final_spec g pl t i Hg A1 Hpl Hi) as (U1 & U2 & U3 & _ & _ & _ & U7 & _).
  destruct (update_final_worklist g pl t i A1 Hi) as (_ & _ & _ & W4).
  destruct (update_final_fold_mono g pl i s2 l2 Hg Hpl Hi Hl2 (update_final g pl t i) U1
              ltac:(congruence)) as (B1 & B2 & B3 & B4 & B5 & B6).
  set (t' := update_final g pl t i) in *.
  assert (Hcell : rd (pm s i) (1 - pl) = rd (pms s2) (opp_cell s2 pl i)).
  { unfold pm, opp_cell. rewrite (ce_pms _ _ Hce), <- (ce_k _ _ Hce).
    rewrite rd_pm_at by (nia || lia). f_equal. lia. }
  assert (Hfires : update_fires g pl t i = true).
  { rewrite B3, U3 in Hun. unfold update_fires. rewrite Hun. simpl.
    unfold opp_cell in *. rewrite A2, A4, <- Hcell.
    rewrite land_1_mod.
    destruct (Z.eqb_spec (rd (pm s i) (1 - pl)) (-1)); [done|].
    destruct (Z.eqb_spec (vpriority g i mod 2) pl); done. }
  destruct (W4 Hfires) as [W5 W6]. specialize (U7 Hfires).
  split; [|split].
  - unfold pm. rewrite B2, rd_pm_at by (nia || lia).
    replace (k s2 * i + (1 - pl)) with (opp_cell s2 pl i) by (unfold opp_cell; lia).
    apply B4. unfold opp_cell. rewrite <- A2. exact U7.
  - by apply B5.
  - intros Hq. apply B6. apply W6.
    rewrite A5. rewrite (ce_dirty _ _ Hce).
    destruct Hq as [Hq|Hq]; [by left|right].
    apply A6. by rewrite (ce_todo _ _ Hce).
Qed.

(** The stabilisation pass on [g_odd_loop] meets the hypotheses above. *)
Lemma update_saturates_stable_vertices_witness :
  exists s',
    update 5 g_odd_loop (solve_setup g_odd_loop fresh_solver) 0 = Some s'
    /\ rd (pm s' 0) 1 = -1 /\ rd (dirty s') 0 <> 0 /\ In 0 (todo s').
Proof.
  destruct (update 5 g_odd_loop (solve_setup g_odd_loop fresh_solver) 0) as [s'|] eqn:Hup;
    [|vm_compute in Hup; discriminate].
  exists s'. split; [reflexivity|].
  assert (Hs' : s' = mkSolver 2 [0; -1] [-1] [0; 0] [0; 0] [0; 0] [1] [0] [0] 0 0).
  { vm_compute in Hup. by injection Hup as <-. }
  destruct (update_saturates_stable_vertices 5 g_odd_loop
              (solve_setup g_odd_loop fresh_solver) 0 s' 0) as (H1 & H2 & H3).
  - reflexivity.
  - reflexivity.
  - by left.
  - exact Hup.
  - unfold num_vertices. simpl. lia.
  - rewrite Hs'. reflexivity.
  - vm_compute. discriminate.
  - vm_compute. discriminate.
  - split; [exact H1|]. split; [exact H2|]. apply H3. left. reflexivity.
Defined.

(** ** The recorded successors *)








(** ** The result extraction *)

Definition winner_of (s : Solver) (v : Z) : Z := if rd (pm s v) 0 =? -1 then 0 else 1.

Definition records_strategy (g : Graph) (s : Solver) (v : Z) : bool :=
  (vplayer g v =? winner_of s v) && negb (rd (strategy s) v =? -1).

Lemma extract_vertex_other (g : Graph) (s : Solver) (sol : Solution) (a v : Z) :
  v <> a ->
  winning_regions_ (extract_vertex g s sol a) !! v = winning_regions_ sol !! v
  /\ strategy_ (extract_vertex g s sol a) !! v = strategy_ sol !! v.
Proof.
  intros Hne. unfold extract_vertex.
  destruct (_ && _); simpl; rewrite ?lookup_insert_ne by done; done.
Qed.

Lemma extract_vertex_self (g : Graph) (s : Solver) (sol : Solution) (a : Z) :
  winning_regions_ (extract_vertex g s sol a) !! a = Some (winner_of s a)
  /\ strategy_ (extract_vertex g s sol a) !! a
     = if records_strategy g s a then Some (rd (strategy s) a) else strategy_ sol !! a.
Proof.
  unfold extract_vertex, records_strategy, winner_of.
  destruct (_ && _); simpl; rewrite ?lookup_insert_eq; done.
Qed.

Lemma extract_fold_other (g : Graph) (s : Solver) (l : list Z) : forall (sol : Solution) (v : Z),
  ~ In v l ->
  winning_regions_ (fold_left (extract_vertex g s) l sol) !! v = winning_regions_ sol !! v
  /\ strategy_ (fold_left (extract_vertex g s) l sol) !! v = strategy_ sol !! v.
Proof.
  induction l as [|a l IH]; intros sol v Hv; cbn [fold_left]; [done|].
  destruct (IH (extract_vertex g s sol a) v) as [H1 H2].
  { intros H. apply Hv. by right. }
  destruct (extract_vertex_other g s sol a v) as [H3 H4].
  { intros ->. apply Hv. by left. }
  split; congruence.
Qed.

Lemma extract_fold_self (g : Graph) (s : Solver) (l : list Z) : forall (sol : Solution) (v : Z),
  NoDup l -> In v l ->
  winning_regions_ (fold_left (extract_vertex g s) l sol) !! v = Some (winner_of s v)
  /\ strategy_ (fold_left (extract_vertex g s) l sol) !! v
     = if records_strategy g s v then Some (rd (strategy s) v) else strategy_ sol !! v.
Proof.
  induction l as [|a l IH]; intros sol v Hnd Hv; cbn [fold_left]; [done|].
  apply NoDup_cons in Hnd as [Ha Hnd].
  destruct Hv as [->|Hv].
  - destruct (extract_fold_other g s l (extract_vertex g s sol v) v) as [H1 H2].
    { intros H. apply Ha. by apply list_elem_of_In. }
    destruct (extract_vertex_self g s sol v) as [H3 H4].
    split; congruence.
  - destruct (IH (extract_vertex g s sol a) v Hnd Hv) as [H1 H2].
    assert (v <> a).
    { intros ->. apply Ha. by apply list_elem_of_In. }
    destruct (extract_vertex_other g s sol a v) as [H3 H4]; [done|].
    split; [done|]. rewrite H2, H4. done.
Qed.

(** What [extract] records for a vertex of the graph. *)
Lemma extract_spec (g : Graph) (s : Solver) (v : Z) :
  0 <= v < num_vertices g ->
  winning_regions_ (extract g s) !! v = Some (winner_of s v)
  /\ strategy_ (extract g s) !! v
     = if records_strategy g s v then Some (rd (strategy s) v) else None.
Proof.
  intros Hv. unfold extract.
  destruct (extract_fold_self g s (nodes g) empty_solution v) as [H1 H2].
  - apply NoDup_nodes.
  - by apply In_nodes.
  - split; [done|]. rewrite H2. simpl. by rewrite lookup_empty.
Qed.

(** ** C5: the strategy of the solution *)



(** ** C1, C7, C8: what [solve] does on particular graphs *)

(** Seven vertices, every one with an out-edge. *)
Definition g_seven : Graph :=
  [ mkVertex 0 0 [2; 3]; mkVertex 1 0 [0; 1]; mkVertex 0 0 [2; 4];
    mkVertex 1 2 [5]; mkVertex 1 0 [1]; mkVertex 0 5 [4]; mkVertex 1 4 [3] ].

(** Nine vertices, every one with an out-edge.  Vertex 3 (owned by player 1)
    can move to vertex 7, from which player 0 can only return to 3 (closing
    a cycle whose highest priority is 3) or move to 6 and then to the
    self-loop 0 of priority 3: player 1 wins vertices 3 and 7. *)
Definition g_nine : Graph :=
  [ mkVertex 0 3 [0]; mkVertex 0 0 [1; 6]; mkVertex 0 7 [5];
    mkVertex 1 3 [2; 7]; mkVertex 1 5 [6]; mkVertex 0 5 [0; 1];
    mkVertex 1 1 [0]; mkVertex 0 0 [3; 6]; mkVertex 0 7 [8; 1] ].

(** One vertex without out-edge. *)
Definition g_sink : Graph := [mkVertex 0 0 []].

(** C1 (the code at the failing input): on [g_seven], a graph in which
    every vertex has out-degree at least 1, [solve] returns with both
    counters of vertex 3 saturated; the solution gives the vertex to
    player 0. *)
Lemma solve_leaves_both_counters_top :
  valid_graph g_seven = true
  /\ exists sol s',
       solve 200 g_seven fresh_solver = Some (sol, s')
       /\ rd (pm s' 3) 0 = -1 /\ rd (pm s' 3) 1 = -1
       /\ winning_regions_ sol !! 3 = Some 0.
Proof.
  split; [reflexivity|].
  destruct (solve 200 g_seven fresh_solver) as [[sol s']|] eqn:E;
    [|vm_compute in E; discriminate].
  exists sol, s'. split; [reflexivity|].
  vm_compute in E. injection E as <- <-. repeat split; reflexivity.
Qed.

(** C7 (as stated): on [g_nine] the run reaches a state in which vertex 3
    has both counters saturated; [solve] nevertheless returns a solution,
    in which the extraction has recorded player 0 as the winner of
    vertex 3, and a further [lift] of that vertex returns [false] without
    any other effect. *)
Lemma solve_returns_with_both_counters_top :
  exists sol s',
    solve 200 g_nine fresh_solver = Some (sol, s')
    /\ rd (pm s' 3) 0 = -1 /\ rd (pm s' 3) 1 = -1
    /\ winning_regions_ sol !! 3 = Some 0
    /\ lift g_nine s' 3 (-1) = (false, s').
Proof.
  destruct (solve 200 g_nine fresh_solver) as [[sol s']|] eqn:E;
    [|vm_compute in E; discriminate].
  exists sol, s'. split; [reflexivity|].
  vm_compute in E. injection E as <- <-. repeat split; reflexivity.
Qed.

(** C7 (amended).  [lift] called on a vertex whose two counters are both
    saturated signals nothing: it returns [false] at once and leaves the
    whole solver object, statistics included, as it was. *)
Theorem lift_skips_vertex_with_both_counters_top
        (g : Graph) (s : Solver) (node target : Z) :
  rd (pm s node) 0 = -1 -> rd (pm s node) 1 = -1 ->
  lift g s node target = (false, s).
Proof.
  intros H0 H1. unfold lift. rewrite H0, H1. reflexivity.
Qed.

(** A state with both counters of the only vertex saturated. *)
Lemma lift_skips_vertex_with_both_counters_top_witness :
  lift g_loop (mkSolver 2 [-1; -1] [0] [0; 0] [0; 0] [0; 0] [0] [0] [] 7 3) 0 0
  = (false, mkSolver 2 [-1; -1] [0] [0; 0] [0; 0] [0; 0] [0] [0] [] 7 3).
Proof.
  apply lift_skips_vertex_with_both_counters_top; reflexivity.
Defined.

(** C8 (as stated): [g_sink] has a vertex of out-degree zero, yet [solve]
    runs its first pass on it (one lift attempt is counted) and returns a
    solution, which gives the vertex to player 1 and has no strategy
    entry. *)
Lemma solve_accepts_vertex_without_out_edge :
  valid_graph g_sink = false
  /\ exists sol s',
       solve 0 g_sink fresh_solver = Some (sol, s')
       /\ lift_attempt s' = 1
       /\ winning_regions_ sol !! 0 = Some 1
       /\ strategy_ sol !! 0 = None.
Proof.
  split; [reflexivity|].
  destruct (solve 0 g_sink fresh_solver) as [[sol s']|] eqn:E;
    [|vm_compute in E; discriminate].
  exists sol, s'. split; [reflexivity|].
  vm_compute in E. injection E as <- <-. repeat split; reflexivity.
Qed.

(** The part of the input contract that keeps every access to the vectors
    in range: priorities are natural numbers and edges lead to vertices of
    the graph.  Nothing is asked of the out-degrees. *)
Definition in_range_vertex (n : Z) (v : VertexProps) : bool :=
  (0 <=? priority v) && forallb (fun t => (0 <=? t) && (t <? n)) (out_edges v).

Definition in_range_graph (g : Graph) : bool :=
  forallb (in_range_vertex (num_vertices g)) g.

(** A solver object between two calls of [solve]: the worklist is empty. *)
Definition idle (s : Solver) : Prop := todo s = [].

(** C8 (amended).  [solve] checks nothing and has no failure to signal:
    whenever it returns, on a graph with or without vertices of out-degree
    zero, the solution it returns records player 0 or player 1 as the
    winner of every vertex; on the empty graph it returns the empty
    solution. *)
Theorem solve_never_refuses (fuel : nat) (g : Graph) (s0 : Solver) :
  in_range_graph g = true -> idle s0 ->
  (g = [] -> exists s', solve fuel g s0 = Some (empty_solution, s'))
  /\ (forall sol s', solve fuel g s0 = Some (sol, s') ->
        forall v, 0 <= v < num_vertices g ->
          winning_regions_ sol !! v = Some 0 \/ winning_regions_ sol !! v = Some 1).
Proof.
  intros _ Hidle. split.
  - intros ->. unfold solve. cbn [nodes num_vertices length seqZ rev fold_left].
    assert (Ht : todo (solve_setup [] s0) = []) by (unfold idle in Hidle; simpl; done).
    eexists. destruct fuel; simpl; rewrite Hidle; reflexivity.
  - intros sol s'. unfold solve.
    destruct (solve_loop fuel g _ 0) as [s3|]; [|discriminate].
    intros [= <- <-] v Hv.
    destruct (extract_spec g s3 v Hv) as [Hw _]. rewrite Hw.
    unfold winner_of. destruct (rd (pm s3 v) 0 =? -1); [by left|by right].
Qed.

(** [solve] on [g_sink] and on the empty graph. *)
Lemma solve_never_refuses_witness :
  (exists s', solve 0 [] fresh_solver = Some (empty_solution, s'))
  /\ (forall sol s', solve 0 g_sink fresh_solver = Some (sol, s') ->
        winning_regions_ sol !! 0 = Some 0 \/ winning_regions_ sol !! 0 = Some 1).
Proof.
  split.
  - apply (solve_never_refuses 0 [] fresh_solver); reflexivity.
  - intros sol s' H.
    apply (proj2 (solve_never_refuses 0 g_sink fresh_solver eq_refl eq_refl) sol s' H).
    unfold num_vertices. simpl. lia.
Defined.

(** ** C9: the result does not depend on what a solver object holds *)

(** Two vectors hold the same counter of player [p]: the sentinels agree
    and, unless the counter is saturated, so do all coordinates of [p]. *)
Definition ceq (kk p : Z) (a b : list Z) : Prop :=
  rd a p = rd b p
  /\ (rd a p <> -1 -> forall i, 0 <= i < kk -> i mod 2 = p -> rd a i = rd b i).

Lemma ceq_refl (kk p : Z) (a : list Z) : ceq kk p a a.
Proof. by split. Qed.

Lemma pm_less_scan_ext (cnts a a' b b' : list Z) (d : Z) (fuel : nat) : forall i : Z,
  (forall j, d <= j <= i -> (i - j) mod 2 = 0 -> rd a j = rd a' j /\ rd b j = rd b' j) ->
  pm_less_scan fuel cnts a b i d = pm_less_scan fuel cnts a' b' i d.
Proof.
  induction fuel as [|f IH]; intros i Hext; simpl; [done|].
  destruct (Z.geb_spec i d) as [Hge|Hlt]; [|done].
  destruct (Hext i ltac:(lia) ltac:(replace (i - i) with 0 by lia; done)) as [<- <-].
  rewrite (IH (i - 2)); [done|].
  intros j Hj Hp. apply Hext; lia.
Qed.

Lemma pm_less_ceq (kk : Z) (cnts a a' b b' : list Z) (d p : Z) :
  2 <= kk -> p = 0 \/ p = 1 -> 0 <= d ->
  ceq kk p a a' -> ceq kk p b b' ->
  pm_less kk cnts a b d p = pm_less kk cnts a' b' d p.
Proof.
  intros Hk Hp Hd [Ha1 Ha2] [Hb1 Hb2]. unfold pm_less. rewrite <- Ha1, <- Hb1.
  destruct (Z.eqb_spec (rd b p) (-1)); [done|].
  destruct (Z.eqb_spec (rd a p) (-1)); [done|].
  destruct (pm_start_parity kk p Hp) as [Hpar Hrange].
  apply pm_less_scan_ext. intros j Hj Hjp.
  split; [apply Ha2|apply Hb2]; try done; lia.
Qed.

Lemma In_stride (kk : Z) (fuel : nat) : forall (i j : Z),
  (Z.to_nat (kk - i) <= fuel)%nat ->
  In j (stride fuel i kk) <-> i <= j < kk /\ (j - i) mod 2 = 0.
Proof.
  induction fuel as [|f IH]; intros i j Hf; simpl.
  - split; [done|]. lia.
  - destruct (Z.ltb_spec i kk) as [Hlt|Hge]; [|simpl; lia].
    simpl. rewrite IH by lia. split.
    + intros [<-|[H1 H2]]; [replace (i - i) with 0 by lia; split; [lia|done]|lia].
    + intros [H1 H2]. destruct (decide (i = j)); [by left|right; lia].
Qed.

(** [prog] reads nothing of its source but the counter of [pl], and what it
    leaves in the destination is determined by that counter. *)
Lemma prog_ceq (kk : Z) (cnts dst dst' src src' : list Z) (d pl : Z) :
  2 <= kk -> (Z.to_nat kk <= length dst)%nat -> (Z.to_nat kk <= length dst')%nat ->
  pl = 0 \/ pl = 1 -> 0 <= d < kk ->
  ceq kk pl src src' ->
  ceq kk pl (prog kk cnts dst src d pl) (prog kk cnts dst' src' d pl).
Proof.
  intros Hk Hlen Hlen' Hpl Hd [Hs1 Hs2].
  unfold prog. rewrite <- Hs1.
  destruct (Z.eqb_spec (rd src pl) (-1)) as [Htop|Hfin].
  { split; [by rewrite !rd_wr_eq by lia|].
    rewrite rd_wr_eq by lia. done. }
  specialize (Hs2 Hfin).
  set (c0 := if Z.rem d 2 =? pl then 1 else 0).
  pose proof (prog_reset_fused cnts src d kk c0 (Z.to_nat d) (Z.to_nat kk) dst pl) as F1.
  pose proof (prog_reset_fused cnts src' d kk c0 (Z.to_nat d) (Z.to_nat kk) dst' pl) as F2.
  destruct (prog_reset (Z.to_nat d) dst pl d) as [dst1 i1].
  destruct (prog_reset (Z.to_nat d) dst' pl d) as [dst1' i1'].
  rewrite F1, F2 by lia. clear F1 F2.
  pose proof (prog_fused_reference cnts src d kk (Z.to_nat kk) dst pl c0 ltac:(lia) Hlen) as R1.
  pose proof (prog_fused_reference cnts src' d kk (Z.to_nat kk) dst' pl c0 ltac:(lia) Hlen') as R2.
  destruct (prog_fused (Z.to_nat kk) cnts dst src pl d kk c0) as [dst2 c2].
  destruct (prog_fused (Z.to_nat kk) cnts dst' src' pl d kk c0) as [dst2' c2'].
  destruct R1 as (D1 & L1 & _ & _). destruct R2 as (D2 & L2 & _ & _).
  assert (Hmap : map (rd src) (stride (Z.to_nat kk) pl kk)
                 = map (rd src') (stride (Z.to_nat kk) pl kk)).
  { apply map_ext_in. intros j Hj. apply In_stride in Hj; [|lia]. apply Hs2; lia. }
  rewrite <- Hmap in D2. rewrite D1 in D2. injection D2 as Hdig Hc. subst c2'.
  assert (Hpt : forall j, 0 <= j < kk -> j mod 2 = pl -> rd dst2 j = rd dst2' j).
  { intros j Hj Hjp.
    assert (Hl : forall l0, map (rd dst2) l0 = map (rd dst2') l0 -> In j l0 ->
                 rd dst2 j = rd dst2' j).
    { induction l0 as [|x l0 IHl]; simpl; [done|].
      intros [= E1 E2] [->|Hin0]; [done|by apply IHl]. }
    apply (Hl (stride (Z.to_nat kk) pl kk)); [done|apply In_stride; lia]. }
  destruct (c2 =? 0).
  - split; [apply Hpt; lia|]. intros _ j Hj Hjp. by apply Hpt.
  - split; [by rewrite !rd_wr_eq by lia|]. rewrite rd_wr_eq by lia. done.
Qed.

(** Two solver objects that differ only in what is never read before it is
    written: the scratch vectors, and the digits of saturated counters. *)
Record sim (g : Graph) (s t : Solver) : Prop := mkSim {
  sim_sizes_l : sizes g s;
  sim_sizes_r : sizes g t;
  sim_k : k t = k s;
  sim_strategy : strategy t = strategy s;
  sim_counts : counts t = counts s;
  sim_dirty : dirty t = dirty s;
  sim_todo : todo t = todo s;
  sim_lift_count : lift_count t = lift_count s;
  sim_lift_attempt : lift_attempt t = lift_attempt s;
  sim_pms : forall v p, 0 <= v < num_vertices g -> p = 0 \/ p = 1 ->
            ceq (k s) p (pm s v) (pm t v)
}.

Lemma sim_core (g : Graph) (s t s' t' : Solver) :
  sim g s t -> core_eq s s' -> core_eq t t' -> sim g s' t'.
Proof.
  intros [] Hs Ht.
  constructor.
  - by apply (core_eq_sizes g s).
  - by apply (core_eq_sizes g t).
  - rewrite (ce_k _ _ Hs), (ce_k _ _ Ht). done.
  - rewrite (ce_strategy _ _ Hs), (ce_strategy _ _ Ht). done.
  - rewrite (ce_counts _ _ Hs), (ce_counts _ _ Ht). done.
  - rewrite (ce_dirty _ _ Hs), (ce_dirty _ _ Ht). done.
  - rewrite (ce_todo _ _ Hs), (ce_todo _ _ Ht). done.
  - rewrite (ce_lift_count _ _ Hs), (ce_lift_count _ _ Ht). done.
  - rewrite (ce_lift_attempt _ _ Hs), (ce_lift_attempt _ _ Ht). done.
  - intros v p Hv Hp. rewrite (ce_k _ _ Hs), (core_eq_pm s s'), (core_eq_pm t t') by done.
    by apply sim_pms0.
Qed.

Lemma sim_scratch (g : Graph) (s t s' t' : Solver) :
  sim g s t -> scratch_eq s s' -> scratch_eq t t' -> sim g s' t'.
Proof. intros H Hs Ht. eapply sim_core; eauto using scratch_core_eq. Qed.

Section Relational.
Context (g : Graph) (Hg : valid_graph g = true).

Lemma sim_prog_tmp (s t : Solver) (to_node d p : Z) :
  sim g s t -> 0 <= to_node < num_vertices g -> p = 0 \/ p = 1 -> 0 <= d < k s ->
  sim g (prog_tmp s to_node d p) (prog_tmp t to_node d p)
  /\ ceq (k s) p (tmp (prog_tmp s to_node d p)) (tmp (prog_tmp t to_node d p)).
Proof.
  intros Hsim Hto Hp Hd.
  split; [eapply sim_scratch; eauto using prog_tmp_scratch|].
  destruct Hsim as [Sl Sr Hk _ Hc _ _ _ _ Hpms].
  simpl. rewrite Hk, Hc.
  pose proof (sz_k _ _ Sl). pose proof (sz_tmp _ _ Sl). pose proof (sz_tmp _ _ Sr).
  apply prog_ceq; try done; try lia. by apply Hpms.
Qed.

Lemma pm_store_sizes (s : Solver) (node : Z) (src : list Z) (p : Z) :
  sizes g s -> sizes g (pm_store s node src p).
Proof.
  intros Hsz. apply (sizes_transfer g s); try done. simpl. apply length_pm_copy.
Qed.

Lemma rd_pm_store (s : Solver) (node : Z) (src : list Z) (p v i : Z) :
  sizes g s -> 0 <= node < num_vertices g -> 0 <= v < num_vertices g ->
  p = 0 \/ p = 1 -> 0 <= i < k s ->
  rd (pm (pm_store s node src p) v) i
  = if (v =? node) && (i mod 2 =? p) then rd src i else rd (pm s v) i.
Proof.
  intros Hsz Hnode Hv Hp Hi.
  pose proof (sz_k _ _ Hsz) as Hk. pose proof (sz_pms _ _ Hsz) as Hlen.
  unfold pm. simpl. rewrite !rd_pm_at by nia.
  destruct (pm_copy_spec (k s) (pms s) (k s * node) src p) as [_ Hrd]; [nia|lia|nia|].
  rewrite Hrd by nia. unfold in_block.
  destruct (Z.eqb_spec v node) as [->|Hne]; simpl.
  - replace (k s * node + i - k s * node) with i by lia.
    replace (k s * node + i - k s * node - p) with (i - p) by lia.
    destruct (Z.eqb_spec (i mod 2) p) as [E|E].
    + destruct (Z.leb_spec (k s * node + p) (k s * node + i)); [|lia].
      destruct (Z.ltb_spec (k s * node + i) (k s * node + k s)); [|lia].
      destruct (Z.eqb_spec ((i - p) mod 2) 0); [done|lia].
    + destruct (Z.eqb_spec ((i - p) mod 2) 0); [lia|].
      by rewrite andb_false_r.
  - destruct (Z.leb_spec (k s * node + p) (k s * v + i)),
      (Z.ltb_spec (k s * v + i) (k s * node + k s)); simpl; try done. nia.
Qed.

Lemma sim_pm_store (s t : Solver) (node : Z) (src src' : list Z) (p : Z) :
  sim g s t -> 0 <= node < num_vertices g -> p = 0 \/ p = 1 ->
  ceq (k s) p src src' ->
  sim g (pm_store s node src p) (pm_store t node src' p).
Proof.
  intros Hsim Hnode Hp [Hc1 Hc2].
  destruct Hsim as [Sl Sr Hk Hst Hc Hd Ht Hlc Hla Hpms].
  pose proof (sz_k _ _ Sl) as Hk2.
  constructor; try done; try (by apply pm_store_sizes).
  intros v q Hv Hq. simpl k.
  specialize (Hpms v q Hv Hq). destruct Hpms as [Hp1 Hp2].
  assert (Hrd : forall i, 0 <= i < k s ->
            rd (pm (pm_store s node src p) v) i
            = (if (v =? node) && (i mod 2 =? p) then rd src i else rd (pm s v) i)
            /\ rd (pm (pm_store t node src' p) v) i
            = (if (v =? node) && (i mod 2 =? p) then rd src' i else rd (pm t v) i)).
  { intros i Hi. split; apply rd_pm_store; try done. lia. }
  split.
  - destruct (Hrd q ltac:(lia)) as [-> ->].
    destruct ((v =? node) && (q mod 2 =? p)) eqn:E; [|done].
    apply andb_prop in E as [_ E]. replace q with p by lia. done.
  - destruct (Hrd q ltac:(lia)) as [-> _].
    intros Hfin i Hi Hiq. destruct (Hrd i Hi) as [-> ->].
    destruct ((v =? node) && (q mod 2 =? p)) eqn:E.
    + apply andb_prop in E as [E1 E2]. replace q with p in * by lia.
      rewrite E1. replace (i mod 2 =? p) with true by lia. simpl.
      apply Hc2; done.
    + destruct ((v =? node) && (i mod 2 =? p)) eqn:E'.
      * apply andb_prop in E' as [E1 E2]. rewrite E1 in E. simpl in E. lia.
      * apply Hp2; done.
Qed.

Lemma sim_same_pms (s t s' t' : Solver) :
  sim g s t -> sizes g s' -> sizes g t' ->
  k s' = k s -> k t' = k t -> pms s' = pms s -> pms t' = pms t ->
  strategy t' = strategy s' -> counts t' = counts s' -> dirty t' = dirty s' ->
  todo t' = todo s' -> lift_count t' = lift_count s' ->
  lift_attempt t' = lift_attempt s' ->
  sim g s' t'.
Proof.
  intros [] Hs Ht K1 K2 P1 P2 E1 E2 E3 E4 E5 E6.
  constructor; try done; try congruence.
  intros v p Hv Hp. unfold pm. rewrite K1, K2, P1, P2. by apply sim_pms0.
Qed.

Lemma sim_sentinel (s t : Solver) (v p : Z) :
  sim g s t -> 0 <= v < num_vertices g -> p = 0 \/ p = 1 ->
  rd (pm t v) p = rd (pm s v) p.
Proof. intros Hsim Hv Hp. symmetry. exact (proj1 (sim_pms g s t Hsim v p Hv Hp)). Qed.

(** The accumulators of the loop that selects the smallest progression. *)
Definition sim_best (p : Z) (a a' : Solver * Z) : Prop :=
  a.2 = a'.2 /\ sim g a.1 a'.1
  /\ (a.2 <> -1 -> ceq (k a.1) p (best a.1) (best a'.1)).

Lemma sim_best_step (d p to_node : Z) (a a' : Solver * Z) :
  sim_best p a a' -> 0 <= to_node < num_vertices g -> p = 0 \/ p = 1 ->
  0 <= d < k a.1 ->
  sim_best p (best_step d p a to_node) (best_step d p a' to_node).
Proof.
  destruct a as [s b], a' as [t b']. intros (Hb & Hsim & Hbest) Hto Hp Hd.
  simpl in Hb, Hsim, Hbest, Hd. subst b'.
  unfold best_step.
  destruct (sim_prog_tmp s t to_node d p Hsim Hto Hp Hd) as [Hsim1 Htmp].
  set (s1 := prog_tmp s to_node d p) in *. set (t1 := prog_tmp t to_node d p) in *.
  pose proof (sim_sizes_l g _ _ Hsim1) as Sl. pose proof (sim_sizes_r g _ _ Hsim1) as Sr.
  pose proof (sz_k _ _ Sl) as Hk.
  assert (Hcond : (b =? -1) || pm_less (k s1) (counts s1) (tmp s1) (best s1) d p
                = (b =? -1) || pm_less (k t1) (counts t1) (tmp t1) (best t1) d p).
  { destruct (Z.eqb_spec b (-1)); [done|]. cbn [orb].
    rewrite (sim_k g _ _ Hsim1), (sim_counts g _ _ Hsim1).
    apply pm_less_ceq; try done; try lia. by apply Hbest. }
  rewrite <- Hcond.
  destruct ((b =? -1) || pm_less (k s1) (counts s1) (tmp s1) (best s1) d p) eqn:E.
  - split; [done|]. cbn [fst snd].
    destruct (vec_copy_spec (k s1) (best s1) (tmp s1)) as [L1 V1];
      [pose proof (sz_best _ _ Sl); lia|].
    destruct (vec_copy_spec (k t1) (best t1) (tmp t1)) as [L2 V2];
      [pose proof (sz_best _ _ Sr); lia|].
    split.
    + apply (sim_same_pms s1 t1); try done; try apply Hsim1.
      * apply (sizes_transfer g s1); done.
      * apply (sizes_transfer g t1); done.
    + intros _. destruct Htmp as [T1 T2].
      rewrite (sim_k g _ _ Hsim1) in V2.
      assert (Hks : k s1 = k s) by done.
      cbn [set_best k best]. rewrite (sim_k g _ _ Hsim1).
      split.
      * rewrite V1, V2 by lia. done.
      * rewrite V1 by lia. intros Hfin i Hi Hip.
        rewrite V1, V2 by lia. apply T2; try done; lia.
  - split; [done|]. split; [done|]. cbn [fst snd]. intros Hne. by apply Hbest.
Qed.

Lemma sim_fold_best_step (d p : Z) (es : list Z) : forall a a',
  (forall e, In e es -> 0 <= e < num_vertices g) ->
  sim_best p a a' -> p = 0 \/ p = 1 -> 0 <= d < k a.1 ->
  sim_best p (fold_left (best_step d p) es a) (fold_left (best_step d p) es a').
Proof.
  induction es as [|e es IH]; intros a a' Hes Hsim Hp Hd; cbn [fold_left]; [done|].
  apply IH; try done.
  - intros x Hx. apply Hes. by right.
  - apply sim_best_step; try done. apply Hes. by left.
  - destruct a as [s b]. destruct (best_step_scratch d p s b e) as [Hs _].
    rewrite (se_k _ _ Hs). done.
Qed.

(** The accumulators of the owner attempt. *)
Definition sim_try (a a' : Solver * Z * Z) : Prop :=
  a.1.2 = a'.1.2 /\ a.2 = a'.2 /\ sim g a.1.1 a'.1.1.

Lemma sim_lift_try (node d p to_node : Z) (a a' : Solver * Z * Z) :
  sim_try a a' -> 0 <= node < num_vertices g -> 0 <= to_node < num_vertices g ->
  p = 0 \/ p = 1 -> 0 <= d < k a.1.1 ->
  sim_try (lift_try node d p a to_node) (lift_try node d p a' to_node)
  /\ k (lift_try node d p a to_node).1.1 = k a.1.1.
Proof.
  destruct a as [[s c0] c1], a' as [[t c0'] c1']. intros (H0 & H1 & Hsim) Hnode Hto Hp Hd.
  simpl in H0, H1, Hsim, Hd. subst c0' c1'.
  unfold lift_try.
  destruct (sim_prog_tmp s t to_node d p Hsim Hto Hp Hd) as [Hsim1 Htmp].
  set (s1 := prog_tmp s to_node d p) in *. set (t1 := prog_tmp t to_node d p) in *.
  pose proof (sim_sizes_l g _ _ Hsim1) as Sl. pose proof (sz_k _ _ Sl) as Hk.
  assert (Hcond : pm_less (k s1) (counts s1) (pm s1 node) (tmp s1) d p
                = pm_less (k t1) (counts t1) (pm t1 node) (tmp t1) d p).
  { rewrite (sim_k g _ _ Hsim1), (sim_counts g _ _ Hsim1).
    apply pm_less_ceq; try done; try lia. by apply (sim_pms g _ _ Hsim1). }
  rewrite <- Hcond.
  destruct (pm_less (k s1) (counts s1) (pm s1 node) (tmp s1) d p).
  - pose proof (sim_pm_store s1 t1 node (tmp s1) (tmp t1) p Hsim1 Hnode Hp Htmp) as Hsim2.
    destruct (p =? 0);
      (split; [split; [reflexivity|split; [reflexivity|exact Hsim2]]|reflexivity]).
  - split; [split; [reflexivity|split; [reflexivity|exact Hsim1]]|reflexivity].
Qed.

Lemma sim_fold_lift_try (node d p : Z) (es : list Z) : forall a a',
  (forall e, In e es -> 0 <= e < num_vertices g) ->
  sim_try a a' -> 0 <= node < num_vertices g -> p = 0 \/ p = 1 -> 0 <= d < k a.1.1 ->
  sim_try (fold_left (lift_try node d p) es a) (fold_left (lift_try node d p) es a').
Proof.
  induction es as [|e es IH]; intros a a' Hes Hsim Hnode Hp Hd; cbn [fold_left]; [done|].
  destruct (sim_lift_try node d p e a a' Hsim Hnode ltac:(apply Hes; by left) Hp Hd)
    as [H1 H2].
  apply IH; try done.
  - intros x Hx. apply Hes. by right.
  - by rewrite H2.
Qed.

Lemma sim_lift_owner (s t : Solver) (node target d p : Z) :
  sim g s t -> 0 <= node < num_vertices g ->
  target = -1 \/ 0 <= target < num_vertices g ->
  p = 0 \/ p = 1 -> 0 <= d < k s ->
  sim_try (lift_owner g s node target d p) (lift_owner g t node target d p).
Proof.
  intros Hsim Hnode Ht Hp Hd. unfold lift_owner.
  rewrite (sim_sentinel s t node p Hsim Hnode Hp).
  assert (H0 : sim_try (s, -1, -1) (t, -1, -1)) by (split; [done|split; [done|exact Hsim]]).
  destruct (rd (pm s node) p =? -1); cbn [negb]; [done|].
  destruct (Z.eqb_spec target (-1)) as [Heq|Hne]; cbn [negb].
  - apply sim_fold_lift_try; try done.
    intros e He. by apply (valid_graph_vertex g node Hg Hnode).
  - apply sim_lift_try; try done. lia.
Qed.

Lemma sim_set_strategy (s t : Solver) (node b : Z) :
  sim g s t ->
  sim g (set_strategy s (wr (strategy s) node b)) (set_strategy t (wr (strategy t) node b)).
Proof.
  intros Hsim.
  apply (sim_same_pms s t); try done; try apply Hsim.
  - apply (sizes_transfer g s); simpl; rewrite ?length_wr; try done. apply Hsim.
  - apply (sizes_transfer g t); simpl; rewrite ?length_wr; try done. apply Hsim.
  - simpl. by rewrite (sim_strategy g _ _ Hsim).
Qed.

Lemma sim_lift_opponent (a a' : Solver * Z * Z) (node target d p : Z) :
  sim_try a a' -> 0 <= node < num_vertices g ->
  p = 0 \/ p = 1 -> 0 <= d < k a.1.1 ->
  sim_try (lift_opponent g a node target d p) (lift_opponent g a' node target d p).
Proof.
  destruct a as [[s c0] c1], a' as [[t c0'] c1']. intros (H0 & H1 & Hsim) Hnode Hp Hd.
  simpl in H0, H1, Hsim, Hd. subst c0' c1'.
  unfold lift_opponent.
  rewrite (sim_sentinel s t node p Hsim Hnode Hp), (sim_strategy g _ _ Hsim).
  destruct (negb (rd (pm s node) p =? -1)
            && ((target =? -1) || (target =? rd (strategy s) node)));
    [|split; [done|split; [done|exact Hsim]]].
  destruct (valid_graph_vertex g node Hg Hnode) as (_ & _ & Hout & Hedges).
  assert (Hb0 : sim_best p (s, -1) (t, -1)) by (split; [done|split; [exact Hsim|done]]).
  pose proof (sim_fold_best_step d p (vout g node) (s, -1) (t, -1) Hedges Hb0 Hp Hd)
    as (Hb & Hsim1 & Hbest).
  destruct (fold_best_step_scratch d p (vout g node) s (-1)) as (Hsc & _ & Hin).
  destruct (fold_left (best_step d p) (vout g node) (s, -1)) as [s1 b].
  destruct (fold_left (best_step d p) (vout g node) (t, -1)) as [t1 b'].
  simpl in Hb, Hsim1, Hbest, Hsc, Hin. subst b'.
  assert (Hbne : b <> -1).
  { specialize (Hin eq_refl Hout). apply Hedges in Hin. lia. }
  specialize (Hbest Hbne).
  pose proof (sim_set_strategy s1 t1 node b Hsim1) as Hsim2.
  set (s2 := set_strategy s1 (wr (strategy s1) node b)) in *.
  set (t2 := set_strategy t1 (wr (strategy t1) node b)) in *.
  assert (Hk2 : k s2 = k s) by (apply Hsc).
  change (best s1) with (best s2) in Hbest. change (best t1) with (best t2) in Hbest.
  change (k s1) with (k s2) in Hbest.
  pose proof (sz_k _ _ (sim_sizes_l g _ _ Hsim2)) as Hk.
  assert (Hcond : pm_less (k s2) (counts s2) (pm s2 node) (best s2) d p
                = pm_less (k t2) (counts t2) (pm t2 node) (best t2) d p).
  { rewrite (sim_k g _ _ Hsim2), (sim_counts g _ _ Hsim2).
    apply pm_less_ceq; try done; try lia. by apply (sim_pms g _ _ Hsim2). }
  rewrite <- Hcond.
  destruct (pm_less (k s2) (counts s2) (pm s2 node) (best s2) d p).
  - pose proof (sim_pm_store s2 t2 node (best s2) (best t2) p Hsim2 Hnode Hp Hbest) as Hsim3.
    destruct (p =? 0); (split; [reflexivity|split; [reflexivity|exact Hsim3]]).
  - split; [reflexivity|split; [reflexivity|exact Hsim2]].
Qed.

Lemma sim_dec_counts (s t : Solver) (d : Z) :
  sim g s t -> sim g (dec_counts s d) (dec_counts t d).
Proof.
  intros Hsim.
  apply (sim_same_pms s t); try done; try apply Hsim.
  - apply (sizes_transfer g s); simpl; rewrite ?length_wr; try done. apply Hsim.
  - apply (sizes_transfer g t); simpl; rewrite ?length_wr; try done. apply Hsim.
  - simpl. by rewrite (sim_counts g _ _ Hsim).
Qed.

Lemma sim_lift_shrink (s t : Solver) (node d : Z) (ch0 ch1 : bool) :
  sim g s t -> 0 <= node < num_vertices g ->
  sim g (lift_shrink s node d ch0 ch1) (lift_shrink t node d ch0 ch1).
Proof.
  intros Hsim Hnode. unfold lift_shrink.
  rewrite (sim_sentinel s t node 0 Hsim Hnode) by (by left).
  assert (Hsim1 :
    sim g (if ch0 && (rd (pm s node) 0 =? -1)
           then if Z.land d 1 =? 0 then dec_counts s d else s else s)
          (if ch0 && (rd (pm s node) 0 =? -1)
           then if Z.land d 1 =? 0 then dec_counts t d else t else t)).
  { destruct (ch0 && _); [|done]. destruct (Z.land d 1 =? 0); [|done].
    by apply sim_dec_counts. }
  set (s1 := if ch0 && (rd (pm s node) 0 =? -1)
             then if Z.land d 1 =? 0 then dec_counts s d else s else s) in *.
  set (t1 := if ch0 && (rd (pm s node) 0 =? -1)
             then if Z.land d 1 =? 0 then dec_counts t d else t else t) in *.
  rewrite (sim_sentinel s1 t1 node 1 Hsim1 Hnode) by (by right).
  destruct (ch1 && _); [|done]. destruct (Z.land d 1 =? 1); [|done].
  by apply sim_dec_counts.
Qed.

(** [lift] does the same on two objects that are related by [sim]. *)
Lemma sim_lift (s t : Solver) (node target : Z) :
  sim g s t -> 0 <= node < num_vertices g ->
  target = -1 \/ 0 <= target < num_vertices g ->
  (lift g s node target).1 = (lift g t node target).1
  /\ sim g (lift g s node target).2 (lift g t node target).2.
Proof.
  intros Hsim Hnode Ht.
  pose proof (sim_sizes_l g _ _ Hsim) as Sl.
  destruct (valid_graph_vertex g node Hg Hnode) as (Hpl & Hprio & _).
  pose proof (sz_prio _ _ Sl node Hnode) as Hd.
  unfold lift.
  rewrite (sim_sentinel s t node 0 Hsim Hnode) by (by left).
  rewrite (sim_sentinel s t node 1 Hsim Hnode) by (by right).
  destruct ((rd (pm s node) 0 =? -1) && (rd (pm s node) 1 =? -1)); [done|].
  set (p := vplayer g node) in *. set (d := vpriority g node) in *.
  pose proof (sim_lift_owner s t node target d p Hsim Hnode Ht Hpl ltac:(lia)) as Hown.
  destruct (lift_owner_inv g Hg node Hnode s target d p Sl Hpl ltac:(lia)) as [Hinv _].
  assert (Hk1 : k (lift_owner g s node target d p).1.1 = k s) by apply Hinv.
  pose proof (sim_lift_opponent _ _ node target d (1 - p) Hown Hnode ltac:(lia)
                ltac:(rewrite Hk1; lia)) as Hopp.
  destruct (lift_opponent g (lift_owner g s node target d p) node target d (1 - p))
    as [[s2 b0] b1].
  destruct (lift_opponent g (lift_owner g t node target d p) node target d (1 - p))
    as [[t2 b0'] b1'].
  destruct Hopp as (E0 & E1 & Hsim2). simpl in E0, E1, Hsim2. subst b0' b1'.
  pose proof (sim_lift_shrink s2 t2 node d (negb (b0 =? -1)) (negb (b1 =? -1))
                Hsim2 Hnode) as Hsim3.
  set (s3 := lift_shrink s2 node d (negb (b0 =? -1)) (negb (b1 =? -1))) in *.
  set (t3 := lift_shrink t2 node d (negb (b0 =? -1)) (negb (b1 =? -1))) in *.
  destruct (negb (b0 =? -1) || negb (b1 =? -1)); cbn [fst snd]; (split; [done|]).
  - apply (sim_same_pms s3 t3); try done; try apply Hsim3.
    + apply (sizes_transfer g s3); try done. apply Hsim3.
    + apply (sizes_transfer g t3); try done. apply Hsim3.
    + simpl. by rewrite (sim_lift_count g _ _ Hsim3).
  - apply (sim_same_pms s3 t3); try done; try apply Hsim3.
    + apply (sizes_transfer g s3); try done. apply Hsim3.
    + apply (sizes_transfer g t3); try done. apply Hsim3.
    + simpl. by rewrite (sim_lift_attempt g _ _ Hsim3).
Qed.

Lemma sim_canlift_owner (node d pl : Z) (es : list Z) : forall s t,
  (forall e, In e es -> 0 <= e < num_vertices g) ->
  sim g s t -> 0 <= node < num_vertices g -> pl = 0 \/ pl = 1 -> 0 <= d < k s ->
  (canlift_owner s node d pl es).1 = (canlift_owner t node d pl es).1.
Proof.
  induction es as [|e es IH]; intros s t Hes Hsim Hnode Hp Hd; cbn [canlift_owner];
    [done|].
  destruct (sim_prog_tmp s t e d pl Hsim ltac:(apply Hes; by left) Hp Hd) as [Hsim1 Htmp].
  set (s1 := prog_tmp s e d pl) in *. set (t1 := prog_tmp t e d pl) in *.
  pose proof (sz_k _ _ (sim_sizes_l g _ _ Hsim1)) as Hk.
  assert (Hcond : pm_less (k s1) (counts s1) (pm s1 node) (tmp s1) d pl
                = pm_less (k t1) (counts t1) (pm t1 node) (tmp t1) d pl).
  { rewrite (sim_k g _ _ Hsim1), (sim_counts g _ _ Hsim1).
    apply pm_less_ceq; try done; try lia. by apply (sim_pms g _ _ Hsim1). }
  rewrite <- Hcond.
  destruct (pm_less (k s1) (counts s1) (pm s1 node) (tmp s1) d pl); [done|].
  apply IH; try done. intros x Hx. apply Hes. by right.
Qed.

Lemma sim_canlift (s t : Solver) (node pl : Z) :
  sim g s t -> 0 <= node < num_vertices g -> pl = 0 \/ pl = 1 ->
  (canlift g s node pl).1 = (canlift g t node pl).1.
Proof.
  intros Hsim Hnode Hp.
  destruct (valid_graph_vertex g node Hg Hnode) as (_ & Hprio & _ & Hedges).
  pose proof (sz_prio _ _ (sim_sizes_l g _ _ Hsim) node Hnode) as Hd.
  unfold canlift. rewrite (sim_sentinel s t node pl Hsim Hnode Hp).
  destruct (rd (pm s node) pl =? -1); [done|].
  destruct (vplayer g node =? pl); [apply sim_canlift_owner; try done; lia|].
  assert (Hb0 : sim_best pl (s, -1) (t, -1)) by (split; [done|split; [exact Hsim|done]]).
  pose proof (sim_fold_best_step (vpriority g node) pl (vout g node) (s, -1) (t, -1)
                Hedges Hb0 Hp ltac:(simpl; lia)) as (Hb & Hsim1 & Hbest).
  destruct (fold_left (best_step (vpriority g node) pl) (vout g node) (s, -1)) as [s1 b].
  destruct (fold_left (best_step (vpriority g node) pl) (vout g node) (t, -1)) as [t1 b'].
  simpl in Hb, Hsim1, Hbest. subst b'.
  destruct (Z.eqb_spec b (-1)); [done|]. cbn [fst].
  pose proof (sz_k _ _ (sim_sizes_l g _ _ Hsim1)) as Hk.
  rewrite (sim_k g _ _ Hsim1), (sim_counts g _ _ Hsim1).
  apply pm_less_ceq; try done; try lia.
  - by apply (sim_pms g _ _ Hsim1).
  - by apply Hbest.
Qed.

(** The two [unstable] vectors agree on the vertices that satisfy [D]. *)
Definition usim (D : Z -> Prop) (s t : Solver) : Prop :=
  forall j, 0 <= j < num_vertices g -> D j -> rd (unstable s) j = rd (unstable t) j.

Definition sim_queue (D : Z -> Prop) (a a' : Solver * list Z) : Prop :=
  a.2 = a'.2 /\ sim g a.1 a'.1 /\ usim D a.1 a'.1.

Lemma sim_set_unstable (D : Z -> Prop) (s t : Solver) (i v : Z) :
  sim g s t -> usim D s t -> 0 <= i < num_vertices g ->
  sim g (set_unstable s (wr (unstable s) i v)) (set_unstable t (wr (unstable t) i v))
  /\ usim (fun j => D j \/ j = i)
          (set_unstable s (wr (unstable s) i v)) (set_unstable t (wr (unstable t) i v)).
Proof.
  intros Hsim Hu Hi. split.
  - eapply sim_core; eauto using core_eq_set_unstable.
  - intros j Hj HD. simpl.
    pose proof (sz_unstable _ _ (sim_sizes_l g _ _ Hsim)).
    pose proof (sz_unstable _ _ (sim_sizes_r g _ _ Hsim)).
    destruct (decide (j = i)) as [->|Hne].
    + by rewrite !rd_wr_eq by lia.
    + rewrite !rd_wr_ne by lia. destruct HD as [HD|HD]; [by apply Hu|done].
Qed.

Lemma usim_core (D : Z -> Prop) (s t s' t' : Solver) :
  usim D s t -> unstable s' = unstable s -> unstable t' = unstable t -> usim D s' t'.
Proof. intros Hu E1 E2 j Hj HD. rewrite E1, E2. by apply Hu. Qed.

Lemma usim_weaken (D D' : Z -> Prop) (s t : Solver) :
  usim D s t -> (forall j, D' j -> D j) -> usim D' s t.
Proof. intros Hu HD j Hj HD'. apply Hu; auto. Qed.

Lemma sim_update_mark (D : Z -> Prop) (pl i : Z) (a a' : Solver * list Z) :
  sim_queue D a a' -> 0 <= i < num_vertices g -> pl = 0 \/ pl = 1 ->
  sim_queue (fun j => D j \/ j = i) (update_mark g pl a i) (update_mark g pl a' i).
Proof.
  destruct a as [s q], a' as [t q']. intros (Hq & Hsim & Hu) Hi Hp.
  simpl in Hq, Hsim, Hu. subst q'. unfold update_mark.
  destruct (sim_set_unstable D s t i 0 Hsim Hu Hi) as [Hsim1 Hu1].
  set (s1 := set_unstable s (wr (unstable s) i 0)) in *.
  set (t1 := set_unstable t (wr (unstable t) i 0)) in *.
  pose proof (sim_sizes_l g _ _ Hsim1) as Sl. pose proof (sim_sizes_r g _ _ Hsim1) as Sr.
  pose proof (sz_k _ _ Sl) as Hk.
  assert (Hsen : rd (pms t1) (k t1 * i + pl) = rd (pms s1) (k s1 * i + pl)).
  { pose proof (sim_sentinel s1 t1 i pl Hsim1 Hi Hp) as H. unfold pm in H.
    rewrite !rd_pm_at in H by (rewrite ?(sim_k g _ _ Hsim1); nia || lia). done. }
  rewrite Hsen.
  assert (Hmark : forall s2 t2, sim g s2 t2 -> unstable s2 = unstable s1 ->
            unstable t2 = unstable t1 ->
            sim_queue (fun j => D j \/ j = i)
              (set_unstable s2 (wr (unstable s2) i 1), q ++ [i])
              (set_unstable t2 (wr (unstable t2) i 1), q ++ [i])).
  { intros s2 t2 Hsim2 E1 E2.
    pose proof (usim_core _ s1 t1 s2 t2 Hu1 E1 E2) as Hu2.
    destruct (sim_set_unstable _ s2 t2 i 1 Hsim2 Hu2 Hi) as [Hsim3 Hu3].
    split; [done|]. split; [done|].
    eapply usim_weaken; [exact Hu3|]. intros j Hj. by left. }
  destruct (rd (pms s1) (k s1 * i + pl) =? -1); [by apply Hmark|].
  pose proof (sim_canlift s1 t1 i pl Hsim1 Hi Hp) as Hcl.
  pose proof (canlift_scratch g s1 i pl) as C1. pose proof (canlift_scratch g t1 i pl) as C2.
  destruct (canlift g s1 i pl) as [r s2]. destruct (canlift g t1 i pl) as [r' t2].
  simpl in Hcl, C1, C2. subst r'.
  pose proof (sim_scratch g s1 t1 s2 t2 Hsim1 C1 C2) as Hsim2.
  destruct r.
  - apply Hmark; [done|apply C1|apply C2].
  - split; [done|]. split; [done|].
    eapply usim_core; [exact Hu1|apply C1|apply C2].
Qed.

Lemma sim_update_mark_fold (pl : Z) (l : list Z) : forall (D : Z -> Prop) a a',
  (forall i, In i l -> 0 <= i < num_vertices g) ->
  sim_queue D a a' -> pl = 0 \/ pl = 1 ->
  sim_queue (fun j => D j \/ In j l)
            (fold_left (update_mark g pl) l a) (fold_left (update_mark g pl) l a').
Proof.
  induction l as [|i l IH]; intros D a a' Hl Hq Hp; cbn [fold_left].
  - destruct Hq as (H1 & H2 & H3). split; [done|]. split; [done|].
    eapply usim_weaken; [exact H3|]. intros j [Hj|Hj]; done.
  - pose proof (sim_update_mark D pl i a a' Hq ltac:(apply Hl; by left) Hp) as H1.
    pose proof (IH _ _ _ ltac:(intros x Hx; apply Hl; by right) H1 Hp) as (H2 & H3 & H4).
    split; [done|]. split; [done|].
    eapply usim_weaken; [exact H4|]. intros j [Hj|[->|Hj]]; auto.
Qed.

Definition everywhere : Z -> Prop := fun _ => True.

Lemma usim_everywhere (D : Z -> Prop) (s t : Solver) :
  usim (fun j => D j \/ In j (nodes g)) s t -> usim everywhere s t.
Proof. intros Hu j Hj _. apply Hu; [done|]. right. by apply In_nodes. Qed.

Definition sim_bestu (p : Z) (a a' : Solver * Z) : Prop :=
  sim_best p a a' /\ usim everywhere a.1 a'.1.

Lemma sim_update_best_step (d p to_node : Z) (a a' : Solver * Z) :
  sim_bestu p a a' -> 0 <= to_node < num_vertices g -> p = 0 \/ p = 1 ->
  0 <= d < k a.1 ->
  sim_bestu p (update_best_step d p a to_node) (update_best_step d p a' to_node)
  /\ k (update_best_step d p a to_node).1 = k a.1.
Proof.
  destruct a as [s b], a' as [t b']. intros [Hb Hu] Hto Hp Hd.
  unfold update_best_step. simpl in Hu, Hd.
  rewrite <- (Hu to_node Hto I).
  destruct (negb (rd (unstable s) to_node =? 0)); [done|].
  pose proof (sim_best_step d p to_node (s, b) (t, b') Hb Hto Hp Hd) as H1.
  destruct Hb as (Hbb & _). simpl in Hbb. subst b'.
  destruct (best_step_scratch d p s b to_node) as [S1 _].
  destruct (best_step_scratch d p t b to_node) as [S2 _].
  split; [split; [done|]|apply S1].
  eapply usim_core; [exact Hu|apply S1|apply S2].
Qed.

Lemma sim_fold_update_best_step (d p : Z) (es : list Z) : forall a a',
  (forall e, In e es -> 0 <= e < num_vertices g) ->
  sim_bestu p a a' -> p = 0 \/ p = 1 -> 0 <= d < k a.1 ->
  sim_bestu p (fold_left (update_best_step d p) es a)
            (fold_left (update_best_step d p) es a').
Proof.
  induction es as [|e es IH]; intros a a' Hes Hsim Hp Hd; cbn [fold_left]; [done|].
  destruct (sim_update_best_step d p e a a' Hsim ltac:(apply Hes; by left) Hp Hd)
    as [H1 H2].
  apply IH; try done.
  - intros x Hx. apply Hes. by right.
  - by rewrite H2.
Qed.

Lemma sim_update_edge (pl n other tgt : Z) (a a' : Solver * list Z) :
  sim_queue everywhere a a' -> 0 <= other < num_vertices g -> pl = 0 \/ pl = 1 ->
  sim_queue everywhere (update_edge g pl n other a tgt) (update_edge g pl n other a' tgt).
Proof.
  destruct a as [s q], a' as [t q']. intros (Hq & Hsim & Hu) Hother Hp.
  simpl in Hq, Hsim, Hu. subst q'. unfold update_edge.
  assert (Hsame : sim_queue everywhere (s, q) (t, q)) by (split; [done|split; done]).
  destruct (tgt =? n); [|done].
  rewrite <- (Hu other Hother I).
  destruct (negb (rd (unstable s) other =? 0)); [done|].
  destruct (negb (vplayer g other =? pl)); [|done].
  destruct (valid_graph_vertex g other Hg Hother) as (_ & Hprio & _ & Hedges).
  pose proof (sz_prio _ _ (sim_sizes_l g _ _ Hsim) other Hother) as Hd.
  set (d := vpriority g other) in *.
  assert (Hb0 : sim_bestu pl (s, -1) (t, -1)).
  { split; [|done]. split; [done|split; [exact Hsim|done]]. }
  pose proof (sim_fold_update_best_step d pl (vout g other) (s, -1) (t, -1)
                Hedges Hb0 Hp ltac:(simpl; lia)) as [(Hb & Hsim1 & Hbest) Hu1].
  destruct (fold_left (update_best_step d pl) (vout g other) (s, -1)) as [s1 b].
  destruct (fold_left (update_best_step d pl) (vout g other) (t, -1)) as [t1 b'].
  simpl in Hb, Hsim1, Hbest, Hu1. subst b'.
  destruct (Z.eqb_spec b (-1)); [split; [done|split; done]|].
  pose proof (sz_k _ _ (sim_sizes_l g _ _ Hsim1)) as Hk.
  assert (Hcond : pm_less (k s1) (counts s1) (pm s1 other) (best s1) d pl
                = pm_less (k t1) (counts t1) (pm t1 other) (best t1) d pl).
  { rewrite (sim_k g _ _ Hsim1), (sim_counts g _ _ Hsim1).
    apply pm_less_ceq; try done; try lia.
    - by apply (sim_pms g _ _ Hsim1).
    - by apply Hbest. }
  rewrite <- Hcond.
  destruct (pm_less (k s1) (counts s1) (pm s1 other) (best s1) d pl);
    [split; [done|split; done]|].
  destruct (sim_set_unstable everywhere s1 t1 other 1 Hsim1 Hu1 Hother) as [Hsim2 Hu2].
  split; [done|]. split; [done|].
  eapply usim_weaken; [exact Hu2|]. intros j Hj. by left.
Qed.

Lemma sim_update_visit (pl n : Z) (a a' : Solver * list Z) :
  sim_queue everywhere a a' -> pl = 0 \/ pl = 1 ->
  sim_queue everywhere (update_visit g pl n a) (update_visit g pl n a').
Proof.
  intros Hq Hp. unfold update_visit.
  assert (Hn : forall other, In other (nodes g) -> 0 <= other < num_vertices g).
  { intros other Hin. by apply In_nodes. }
  revert a a' Hq Hn. induction (nodes g) as [|other l IH]; intros a a' Hq Hn;
    cbn [fold_left]; [done|].
  apply IH; [|intros x Hx; apply Hn; by right].
  pose proof (Hn other ltac:(by left)) as Hother. clear IH.
  revert a a' Hq. induction (vout g other) as [|tgt es IHe]; intros a a' Hq;
    cbn [fold_left]; [done|].
  apply IHe. by apply sim_update_edge.
Qed.

(** Both runs succeed and are related, or both run out of fuel. *)
Definition opt_rel {A : Type} (R : A -> A -> Prop) (x y : option A) : Prop :=
  match x, y with
  | Some a, Some b => R a b
  | None, None => True
  | _, _ => False
  end.

Definition sim_u (s t : Solver) : Prop := sim g s t /\ usim everywhere s t.

Lemma sim_update_loop (pl : Z) (fuel : nat) : forall (s t : Solver) (q : list Z),
  sim_u s t -> pl = 0 \/ pl = 1 ->
  opt_rel sim_u (update_loop fuel g pl s q) (update_loop fuel g pl t q).
Proof.
  induction fuel as [|f IH]; intros s t q Hsim Hp; destruct q as [|n rest]; simpl;
    try done.
  pose proof (sim_update_visit pl n (s, rest) (t, rest)
                ltac:(destruct Hsim; split; [done|split; done]) Hp) as H1.
  destruct (update_visit g pl n (s, rest)) as [s1 q1].
  destruct (update_visit g pl n (t, rest)) as [t1 q1'].
  destruct H1 as (E & H1 & H2). simpl in E, H1, H2. subst q1'.
  apply IH; [split; done|done].
Qed.

Lemma sim_saturate (s t : Solver) (i c : Z) :
  sim g s t -> 0 <= i < num_vertices g -> c = 0 \/ c = 1 ->
  sim g (set_pms s (wr (pms s) (k s * i + c) (-1)))
        (set_pms t (wr (pms t) (k t * i + c) (-1))).
Proof.
  intros Hsim Hi Hc.
  destruct Hsim as [Sl Sr Hk Hst Hcn Hd Ht Hlc Hla Hpms].
  pose proof (sz_k _ _ Sl) as Hk2.
  pose proof (sz_pms _ _ Sl) as Ls. pose proof (sz_pms _ _ Sr) as Lt.
  assert (Hrd : forall (u : Solver) v j, sizes g u -> k u = k s ->
            0 <= v < num_vertices g -> 0 <= j < k s ->
            rd (pm (set_pms u (wr (pms u) (k u * i + c) (-1))) v) j
            = if (v =? i) && (j =? c) then -1 else rd (pm u v) j).
  { intros u v j Su Ku Hv Hj. pose proof (sz_pms _ _ Su) as Lu.
    unfold pm. simpl. rewrite Ku. rewrite !rd_pm_at by nia.
    destruct (Z.eqb_spec v i) as [->|Hne]; simpl.
    - destruct (Z.eqb_spec j c) as [->|Hjc].
      + apply rd_wr_eq. nia.
      + apply rd_wr_ne. nia.
    - apply rd_wr_ne. nia. }
  constructor; try done.
  - apply (sizes_transfer g s); simpl; rewrite ?length_wr; done.
  - apply (sizes_transfer g t); simpl; rewrite ?length_wr; done.
  - intros v p Hv Hp. simpl k. specialize (Hpms v p Hv Hp). destruct Hpms as [P1 P2].
    split.
    + rewrite (Hrd s), (Hrd t) by (done || lia).
      destruct ((v =? i) && (p =? c)); done.
    + rewrite (Hrd s) by (done || lia).
      destruct ((v =? i) && (p =? c)) eqn:E; [done|].
      intros Hfin j Hj Hjp. rewrite (Hrd s), (Hrd t) by (done || lia).
      destruct ((v =? i) && (j =? c)) eqn:E'; [done|]. by apply P2.
Qed.

Lemma sim_todo_push (s t : Solver) (v : Z) :
  sim g s t -> sim g (todo_push s v) (todo_push t v).
Proof.
  intros Hsim. unfold todo_push. rewrite (sim_dirty g _ _ Hsim), (sim_todo g _ _ Hsim).
  destruct (rd (dirty s) v =? 0); [|done].
  apply (sim_same_pms s t); try done; try apply Hsim.
  - apply (sizes_transfer g s); simpl; rewrite ?length_wr; try done. apply Hsim.
  - apply (sizes_transfer g t); simpl; rewrite ?length_wr; try done;
      [apply Hsim|by rewrite (sim_dirty g _ _ Hsim)].
Qed.

Lemma sim_todo_pop (s t : Solver) :
  sim g s t -> (todo_pop s).1 = (todo_pop t).1 /\ sim g (todo_pop s).2 (todo_pop t).2.
Proof.
  intros Hsim. unfold todo_pop. rewrite (sim_dirty g _ _ Hsim), (sim_todo g _ _ Hsim).
  destruct (todo s) as [|n rest]; [done|]. split; [done|]. cbn [snd].
  apply (sim_same_pms s t); try done; try apply Hsim.
  - apply (sizes_transfer g s); simpl; rewrite ?length_wr; try done. apply Hsim.
  - apply (sizes_transfer g t); simpl; rewrite ?length_wr; try done;
      [apply Hsim|by rewrite (sim_dirty g _ _ Hsim)].
Qed.

Lemma sim_update_final (pl i : Z) (s t : Solver) :
  sim_u s t -> 0 <= i < num_vertices g -> pl = 0 \/ pl = 1 ->
  sim_u (update_final g pl s i) (update_final g pl t i).
Proof.
  intros [Hsim Hu] Hi Hp. rewrite !update_final_unfold.
  pose proof (sim_sizes_l g _ _ Hsim) as Sl. pose proof (sz_k _ _ Sl) as Hk.
  assert (Hf : update_fires g pl t i = update_fires g pl s i).
  { unfold update_fires. rewrite <- (Hu i Hi I).
    pose proof (sim_sentinel s t i (1 - pl) Hsim Hi ltac:(lia)) as H. unfold pm in H.
    rewrite !rd_pm_at in H by (rewrite ?(sim_k g _ _ Hsim); nia || lia).
    replace (k t * i + 1 - pl) with (k t * i + (1 - pl)) by lia.
    replace (k s * i + 1 - pl) with (k s * i + (1 - pl)) by lia.
    by rewrite H. }
  rewrite Hf. destruct (update_fires g pl s i); [|split; done].
  pose proof (sim_dec_counts s t (vpriority g i) Hsim) as H1.
  pose proof (sim_saturate _ _ i (1 - pl) H1 Hi ltac:(lia)) as H2.
  cbn [dec_counts set_counts k pms] in H2.
  replace (k s * i + (1 - pl)) with (k s * i + 1 - pl) in H2 by lia.
  replace (k t * i + (1 - pl)) with (k t * i + 1 - pl) in H2 by lia.
  split.
  - by apply sim_todo_push.
  - destruct (todo_push_fields (set_pms (dec_counts s (vpriority g i))
                 (wr (pms s) (k s * i + 1 - pl) (-1))) i) as (_ & _ & _ & _ & _ & _ & U1 & _).
    destruct (todo_push_fields (set_pms (dec_counts t (vpriority g i))
                 (wr (pms t) (k t * i + 1 - pl) (-1))) i) as (_ & _ & _ & _ & _ & _ & U2 & _).
    eapply usim_core; [exact Hu|by rewrite U1|by rewrite U2].
Qed.

(** [update] does the same on two related objects, whatever their
    [unstable] vectors hold at entry. *)
Lemma sim_update (fuel : nat) (s t : Solver) (pl : Z) :
  sim g s t -> pl = 0 \/ pl = 1 ->
  opt_rel (sim g) (update fuel g s pl) (update fuel g t pl).
Proof.
  intros Hsim Hp. unfold update.
  assert (Hn : forall i, In i (nodes g) -> 0 <= i < num_vertices g).
  { intros i Hin. by apply In_nodes. }
  pose proof (sim_update_mark_fold pl (nodes g) (fun _ => False) (s, []) (t, []) Hn
                ltac:(split; [done|split; [exact Hsim|intros j _ []]]) Hp) as (Hq & H1 & H2).
  destruct (fold_left (update_mark g pl) (nodes g) (s, [])) as [s1 q].
  destruct (fold_left (update_mark g pl) (nodes g) (t, [])) as [t1 q'].
  simpl in Hq, H1, H2. subst q'.
  apply usim_everywhere in H2.
  pose proof (sim_update_loop pl fuel s1 t1 q (conj H1 H2) Hp) as H3.
  destruct (update_loop fuel g pl s1 q) as [s2|], (update_loop fuel g pl t1 q) as [t2|];
    simpl in H3; try done.
  simpl.
  assert (H4 : sim_u (fold_left (update_final g pl) (nodes g) s2)
                     (fold_left (update_final g pl) (nodes g) t2)).
  { revert s2 t2 H3 Hn. induction (nodes g) as [|i l IH]; intros s2 t2 H3 Hn;
      cbn [fold_left]; [done|].
    apply IH; [|intros x Hx; apply Hn; by right].
    apply sim_update_final; try done. apply Hn. by left. }
  apply H4.
Qed.

Lemma sim_lift_preds (s t : Solver) (n : Z) :
  sim g s t -> sim g (lift_preds g s n) (lift_preds g t n).
Proof.
  intros Hsim. unfold lift_preds.
  assert (Hn : forall i, In i (nodes g) -> 0 <= i < num_vertices g).
  { intros i Hin. by apply In_nodes. }
  revert s t Hsim Hn. induction (nodes g) as [|other l IH]; intros s t Hsim Hn;
    cbn [fold_left]; [done|].
  apply IH; [|intros x Hx; apply Hn; by right].
  pose proof (Hn other ltac:(by left)) as Hother. clear IH.
  destruct (valid_graph_vertex g other Hg Hother) as (_ & _ & _ & Hedges).
  revert s t Hsim Hedges. induction (vout g other) as [|tgt es IHe]; intros s t Hsim Hedges;
    cbn [fold_left]; [done|].
  apply IHe; [|intros x Hx; apply Hedges; by right].
  unfold lift_pred_edge. destruct (Z.eqb_spec tgt n) as [->|Hne]; [|done].
  destruct (sim_lift s t other n Hsim Hother) as [Hr Hs].
  { right. apply Hedges. by left. }
  destruct (lift g s other n) as [r s1], (lift g t other n) as [r' t1].
  simpl in Hr, Hs. subst r'. destruct r; [by apply sim_todo_push|done].
Qed.

Lemma sim_solve_first (l : list Z) : forall s t,
  (forall n, In n l -> 0 <= n < num_vertices g) ->
  sim g s t ->
  sim g (fold_left (solve_first g) l s) (fold_left (solve_first g) l t).
Proof.
  induction l as [|n l IH]; intros s t Hl Hsim; cbn [fold_left]; [done|].
  apply IH; [intros x Hx; apply Hl; by right|].
  unfold solve_first.
  destruct (sim_lift s t n (-1) Hsim ltac:(apply Hl; by left) ltac:(by left)) as [Hr Hs].
  destruct (lift g s n (-1)) as [r s1], (lift g t n (-1)) as [r' t1].
  simpl in Hr, Hs. subst r'. destruct r; [by apply sim_lift_preds|done].
Qed.

Lemma sim_solve_loop (fuel : nat) : forall (s t : Solver) (lu : Z),
  sim g s t ->
  opt_rel (sim g) (solve_loop fuel g s lu) (solve_loop fuel g t lu).
Proof.
  induction fuel as [|f IH]; intros s t lu Hsim; simpl.
  - rewrite (sim_todo g _ _ Hsim). destruct (todo s); simpl; done.
  - rewrite (sim_todo g _ _ Hsim). destruct (todo s) eqn:Et; [simpl; done|].
    destruct (sim_todo_pop s t Hsim) as [Hn Hpop].
    destruct (todo_pop s) as [n s1], (todo_pop t) as [n' t1].
    simpl in Hn, Hpop. subst n'.
    pose proof (sim_lift_preds s1 t1 n Hpop) as H2.
    rewrite (sim_lift_count g _ _ H2).
    destruct (lu + 10 * num_vertices g <? lift_count (lift_preds g s1 n)).
    + pose proof (sim_update (S f) _ _ 0 H2 ltac:(by left)) as H3.
      destruct (update (S f) g (lift_preds g s1 n) 0) as [s3|],
        (update (S f) g (lift_preds g t1 n) 0) as [t3|]; simpl in H3; try done.
      pose proof (sim_update (S f) _ _ 1 H3 ltac:(by right)) as H4.
      destruct (update (S f) g s3 1) as [s4|], (update (S f) g t3 1) as [t4|];
        simpl in H4; try done.
      by apply IH.
    + by apply IH.
Qed.
End Relational.

(** ** The state after the set-up does not depend on the object's history *)

Lemma list_rd_ext (a b : list Z) :
  length a = length b ->
  (forall j, 0 <= j < Z.of_nat (length a) -> rd a j = rd b j) ->
  a = b.
Proof.
  intros Hlen Hrd. apply list_eq. intros i.
  destruct (lt_dec i (length a)) as [Hlt|Hge].
  - destruct (lookup_lt_is_Some_2 a i Hlt) as [x Hx].
    destruct (lookup_lt_is_Some_2 b i ltac:(lia)) as [y Hy].
    specialize (Hrd (Z.of_nat i) ltac:(lia)). unfold rd in Hrd.
    rewrite Nat2Z.id, Hx, Hy in Hrd. simpl in Hrd. by rewrite Hx, Hy, Hrd.
  - rewrite !lookup_ge_None_2 by lia. done.
Qed.

Lemma solve_setup_fields (g : Graph) (s0 : Solver) :
  k (solve_setup g s0) = k (init g s0)
  /\ dirty (solve_setup g s0) = fill (dirty (init g s0)) (num_vertices g) 0
  /\ lift_count (solve_setup g s0) = 0 /\ lift_attempt (solve_setup g s0) = 0.
Proof.
  unfold solve_setup. cbv zeta.
  cbn [set_pms set_strategy set_counts set_dirty set_lift_count set_lift_attempt
       k pms strategy counts tmp best dirty unstable todo lift_count lift_attempt].
  match goal with
  | |- context [fold_left (count_priority g) (nodes g) ?x] =>
      destruct (fold_count_priority_fields g (nodes g) x)
        as (F1 & _ & _ & _ & _ & F6 & _)
  end.
  cbn [set_pms set_strategy set_counts k dirty] in F1, F6.
  rewrite F1, F6. done.
Qed.

Lemma sim_solve_setup (g : Graph) (s0 t0 : Solver) :
  valid_graph g = true -> todo t0 = todo s0 ->
  sim g (solve_setup g s0) (solve_setup g t0).
Proof.
  intros Hg Htodo.
  destruct (solve_setup_ok g s0 Hg) as (Ss & Cs & Ps & Sts & Ts).
  destruct (solve_setup_ok g t0 Hg) as (St & Ct & Pt & Stt & Tt).
  destruct (solve_setup_fields g s0) as (Ks & Ds & LCs & LAs).
  destruct (solve_setup_fields g t0) as (Kt & Dt & LCt & LAt).
  assert (Hk : k (solve_setup g t0) = k (solve_setup g s0)) by by rewrite Ks, Kt.
  assert (Hn : 0 <= num_vertices g) by (unfold num_vertices; lia).
  pose proof (sz_k _ _ Ss) as Hk2.
  assert (Hpm : forall (u : Solver) v j, sizes g u -> k u = k (solve_setup g s0) ->
            (forall j, 0 <= j -> rd (pms u) j = 0) ->
            0 <= v < num_vertices g -> 0 <= j < k u -> rd (pm u v) j = 0).
  { intros u v j Su Ku Pu Hv Hj. unfold pm. pose proof (sz_pms _ _ Su).
    rewrite rd_pm_at by nia. apply Pu. nia. }
  constructor; try done.
  - apply list_rd_ext.
    + pose proof (sz_strategy _ _ Ss). pose proof (sz_strategy _ _ St). lia.
    + intros j Hj. pose proof (sz_strategy _ _ St). rewrite Sts, Stt by lia. done.
  - apply list_rd_ext.
    + pose proof (sz_counts _ _ Ss). pose proof (sz_counts _ _ St). lia.
    + intros j Hj. pose proof (sz_counts _ _ St).
      rewrite Cs, Ct by lia. unfold count_unsaturated. f_equal. f_equal.
      apply List.filter_ext_in. intros v Hv. apply In_nodes in Hv.
      unfold unsaturated.
      assert (0 <= j mod 2 < 2) by (apply Z.mod_pos_bound; lia).
      rewrite (Hpm _ v (j mod 2) Ss eq_refl Ps Hv) by lia.
      rewrite (Hpm _ v (j mod 2) St Hk Pt Hv) by lia. done.
  - rewrite Ds, Dt.
    assert (Ls : length (dirty (init g s0)) = Z.to_nat (num_vertices g))
      by (unfold init; simpl; apply length_resize).
    assert (Lt : length (dirty (init g t0)) = Z.to_nat (num_vertices g))
      by (unfold init; simpl; apply length_resize).
    destruct (fill_spec (dirty (init g s0)) (num_vertices g) 0) as [A1 A2]; [lia|].
    destruct (fill_spec (dirty (init g t0)) (num_vertices g) 0) as [B1 B2]; [lia|].
    apply list_rd_ext; [lia|].
    intros j Hj. rewrite A2, B2 by lia. done.
  - congruence.
  - intros v p Hv Hp. split.
    + rewrite (Hpm _ v p Ss eq_refl Ps Hv) by lia.
      rewrite (Hpm _ v p St Hk Pt Hv) by lia. done.
    + intros _ i Hi _.
      rewrite (Hpm _ v i Ss eq_refl Ps Hv) by lia.
      rewrite (Hpm _ v i St Hk Pt Hv) by lia. done.
Qed.

Lemma sim_extract (g : Graph) (s t : Solver) :
  sim g s t -> extract g t = extract g s.
Proof.
  intros Hsim. unfold extract.
  assert (Hn : forall i, In i (nodes g) -> 0 <= i < num_vertices g).
  { intros i Hin. by apply In_nodes. }
  generalize empty_solution. revert Hn.
  induction (nodes g) as [|v l IH]; intros Hn sol; cbn [fold_left]; [done|].
  rewrite IH by (intros x Hx; apply Hn; by right). f_equal.
  unfold extract_vertex.
  rewrite (sim_sentinel g s t v 0 Hsim (Hn v ltac:(by left)) ltac:(by left)).
  by rewrite (sim_strategy g _ _ Hsim).
Qed.

(** ** More fuel never changes a result *)

Lemma update_loop_fuel_mono (g : Graph) (pl : Z) (fuel : nat) :
  forall (fuel' : nat) (s : Solver) (q : list Z) (s' : Solver),
  (fuel <= fuel')%nat ->
  update_loop fuel g pl s q = Some s' -> update_loop fuel' g pl s q = Some s'.
Proof.
  induction fuel as [|f IH]; intros fuel' s q s' Hle; destruct q as [|n rest]; simpl.
  - by destruct fuel'.
  - discriminate.
  - by destruct fuel'.
  - destruct fuel' as [|f']; [lia|]. simpl.
    destruct (update_visit g pl n (s, rest)) as [s1 q1]. apply IH. lia.
Qed.

Lemma update_fuel_mono (g : Graph) (pl : Z) (fuel fuel' : nat) (s s' : Solver) :
  (fuel <= fuel')%nat ->
  update fuel g s pl = Some s' -> update fuel' g s pl = Some s'.
Proof.
  intros Hle. unfold update.
  destruct (fold_left (update_mark g pl) (nodes g) (s, [])) as [s1 q].
  destruct (update_loop fuel g pl s1 q) as [s2|] eqn:E; [|discriminate].
  by rewrite (update_loop_fuel_mono g pl fuel fuel' s1 q s2 Hle E).
Qed.

Lemma solve_loop_fuel_mono (g : Graph) (fuel : nat) :
  forall (fuel' : nat) (s : Solver) (lu : Z) (s' : Solver),
  (fuel <= fuel')%nat ->
  solve_loop fuel g s lu = Some s' -> solve_loop fuel' g s lu = Some s'.
Proof.
  induction fuel as [|f IH]; intros fuel' s lu s' Hle; simpl.
  - destruct (todo s) eqn:Et; [|discriminate].
    destruct fuel'; simpl; by rewrite Et.
  - destruct fuel' as [|f']; [lia|]. simpl.
    destruct (todo s) eqn:Et; [done|].
    destruct (todo_pop s) as [n s1].
    destruct (lu + 10 * num_vertices g <? lift_count (lift_preds g s1 n)).
    + destruct (update (S f) g (lift_preds g s1 n) 0) as [s3|] eqn:E3; [|discriminate].
      rewrite (update_fuel_mono g 0 (S f) (S f') _ _ ltac:(lia) E3).
      destruct (update (S f) g s3 1) as [s4|] eqn:E4; [|discriminate].
      rewrite (update_fuel_mono g 1 (S f) (S f') _ _ ltac:(lia) E4).
      apply IH. lia.
    + apply IH. lia.
Qed.

Lemma solve_fuel_mono (g : Graph) (fuel fuel' : nat) (s : Solver) (r : Solution * Solver) :
  (fuel <= fuel')%nat -> solve fuel g s = Some r -> solve fuel' g s = Some r.
Proof.
  intros Hle. unfold solve.
  destruct (solve_loop fuel g _ 0) as [s3|] eqn:E; [|discriminate].
  by rewrite (solve_loop_fuel_mono g fuel fuel' _ _ _ Hle E).
Qed.

Lemma solve_loop_idle (g : Graph) (fuel : nat) : forall (s : Solver) (lu : Z) (s' : Solver),
  solve_loop fuel g s lu = Some s' -> idle s'.
Proof.
  induction fuel as [|f IH]; intros s lu s'; simpl.
  - destruct (todo s) eqn:Et; [|discriminate]. by intros [= <-].
  - destruct (todo s) eqn:Et; [by intros [= <-]|].
    destruct (todo_pop s) as [n s1].
    destruct (lu + 10 * num_vertices g <? lift_count (lift_preds g s1 n)).
    + destruct (update (S f) g (lift_preds g s1 n) 0) as [s3|]; [|discriminate].
      destruct (update (S f) g s3 1) as [s4|]; [|discriminate].
      apply IH.
    + apply IH.
Qed.

(** Two calls of [solve] with the same fuel, on objects with equal
    worklists, end in related states or both run out of fuel. *)
Lemma sim_solve (g : Graph) (fuel : nat) (s0 t0 : Solver) :
  valid_graph g = true -> todo t0 = todo s0 ->
  opt_rel (fun a b => a.1 = b.1 /\ sim g a.2 b.2) (solve fuel g s0) (solve fuel g t0).
Proof.
  intros Hg Htodo. unfold solve.
  pose proof (sim_solve_setup g s0 t0 Hg Htodo) as H0.
  assert (Hn : forall n, In n (rev (nodes g)) -> 0 <= n < num_vertices g).
  { intros n Hin. apply In_nodes. by apply in_rev. }
  pose proof (sim_solve_first g Hg (rev (nodes g)) _ _ Hn H0) as H1.
  pose proof (sim_solve_loop g Hg fuel _ _ 0 H1) as H2.
  destruct (solve_loop fuel g (fold_left (solve_first g) (rev (nodes g)) (solve_setup g s0)) 0)
    as [s3|],
    (solve_loop fuel g (fold_left (solve_first g) (rev (nodes g)) (solve_setup g t0)) 0)
    as [t3|]; simpl in H2; try done.
  simpl. split; [|done]. symmetry. by apply sim_extract.
Qed.

Lemma solve_idle (g : Graph) (fuel : nat) (s : Solver) (sol : Solution) (s' : Solver) :
  solve fuel g s = Some (sol, s') -> idle s'.
Proof.
  unfold solve.
  destruct (solve_loop fuel g _ 0) as [s3|] eqn:E; [|discriminate].
  intros [= _ <-]. exact (solve_loop_idle g fuel _ 0 _ E).
Qed.

(** The object that [solve] leaves behind on [g_cycle]. *)
Definition s_cycle_used : Solver :=
  match solve 10 g_cycle fresh_solver with
  | Some (_, r) => r
  | None => fresh_solver
  end.

(** Two vertices of player 1 and priority 0; the second has no out-edge. *)
Definition g_dead_end : Graph := [mkVertex 1 0 [0]; mkVertex 1 0 []].

(** C9.  Determinism.  On a graph that meets the input contract, take two
    solver objects between calls: fresh ones, or ones that an earlier
    [solve], on this or any other graph, has left behind.  If [solve]
    returns on the first, then it returns on the second, with the same fuel
    or more, and with the same winning regions and the same strategy
    mapping; both objects are left between calls again, so the same holds
    for every later call on them. *)
Theorem solve_deterministic
        (g : Graph) (fuel fuel' : nat) (s t : Solver) (sol : Solution) (s' : Solver) :
  valid_graph g = true -> idle s -> idle t -> (fuel <= fuel')%nat ->
  solve fuel g s = Some (sol, s') ->
  idle s' /\ exists t', solve fuel' g t = Some (sol, t') /\ idle t'.
Proof.
  intros Hg Hs Ht Hle Hsolve. split; [by apply (solve_idle g fuel s sol)|].
  pose proof (sim_solve g fuel s t Hg ltac:(unfold idle in *; congruence)) as H.
  rewrite Hsolve in H.
  destruct (solve fuel g t) as [[sol2 t']|] eqn:E2; simpl in H; [|done].
  destruct H as [H1 _]. subst sol2.
  exists t'. split.
  - by apply (solve_fuel_mono g fuel fuel').
  - by apply (solve_idle g fuel t sol).
Qed.

(** On [g_cycle], a second call on the object of the first call returns the
    solution of the first call. *)
Lemma solve_deterministic_witness :
  exists sol t',
    solve 10 g_cycle fresh_solver = Some (sol, s_cycle_used)
    /\ solve 12 g_cycle s_cycle_used = Some (sol, t') /\ idle t'.
Proof.
  assert (E : solve 10 g_cycle fresh_solver
              = Some (extract g_cycle s_cycle_used, s_cycle_used))
    by (vm_compute; reflexivity).
  destruct (solve_deterministic g_cycle 10 12 fresh_solver s_cycle_used
              (extract g_cycle s_cycle_used) s_cycle_used)
    as (_ & t' & H1 & H2).
  - reflexivity.
  - reflexivity.
  - vm_compute. reflexivity.
  - lia.
  - exact E.
  - exists (extract g_cycle s_cycle_used), t'. split; [exact E|]. split; [exact H1|exact H2].
Defined.

(** Outside the input contract the object's history does show: on
    [g_dead_end] the vertex without out-edge is compared against whatever
    the scratch vector [best] holds, and a second call on the same object
    records another winner for it than the first call. *)
Remark solve_reuse_differs_on_dead_end :
  exists sol1 r1 sol2 r2,
    solve 5 g_dead_end fresh_solver = Some (sol1, r1)
    /\ solve 5 g_dead_end r1 = Some (sol2, r2)
    /\ winning_regions_ sol1 !! 1 = Some 1
    /\ winning_regions_ sol2 !! 1 = Some 0.
Proof.
  destruct (solve 5 g_dead_end fresh_solver) as [[sol1 r1]|] eqn:E1;
    [|vm_compute in E1; discriminate].
  destruct (solve 5 g_dead_end r1) as [[sol2 r2]|] eqn:E2.
  - exists sol1, r1, sol2, r2. split; [reflexivity|]. split; [exact E2|].
    vm_compute in E1. injection E1 as <- <-.
    vm_compute in E2. injection E2 as <- <-.
    split; reflexivity.
  - vm_compute in E1. injection E1 as <- <-. vm_compute in E2. discriminate.
Qed.


(** * Further properties of the progress-measure solver *)

(** ** The order that [pm_less] decides *)

Lemma pm_less_scan_asym (cnts a b : list Z) (d : Z) (fuel : nat) : forall i : Z,
  pm_less_scan fuel cnts a b i d && pm_less_scan fuel cnts b a i d = false.
Proof.
  induction fuel as [|f IH]; intros i; simpl; [done|].
  destruct (i >=? d); [|done].
  rewrite (Z.eqb_sym (rd b i)).
  destruct (Z.eqb_spec (rd a i) (rd b i)) as [E|E]; [apply IH|].
  rewrite (andb_comm (rd b i >? rd cnts i)).
  destruct ((rd a i >? rd cnts i) && (rd b i >? rd cnts i)); [done|].
  destruct (Z.ltb_spec (rd a i) (rd b i)), (Z.ltb_spec (rd b i) (rd a i));
    simpl; try done; lia.
Qed.

Lemma pm_less_scan_trans (cnts a b c : list Z) (d : Z) (fuel : nat) : forall i : Z,
  pm_less_scan fuel cnts a b i d = true ->
  pm_less_scan fuel cnts b c i d = true ->
  pm_less_scan fuel cnts a c i d = true.
Proof.
  induction fuel as [|f IH]; intros i; simpl; [done|].
  destruct (i >=? d); [|done].
  destruct (Z.eqb_spec (rd a i) (rd b i)) as [Eab|Eab],
           (Z.eqb_spec (rd b i) (rd c i)) as [Ebc|Ebc],
           (Z.eqb_spec (rd a i) (rd c i)) as [Eac|Eac]; try lia.
  - apply IH.
  - rewrite Eab. done.
  - rewrite <- Ebc. done.
  - intros H1 H2.
    destruct ((rd a i >? rd cnts i) && (rd b i >? rd cnts i)); [done|].
    destruct ((rd b i >? rd cnts i) && (rd c i >? rd cnts i)); [done|]. lia.
  - intros H1 H2.
    destruct ((rd a i >? rd cnts i) && (rd b i >? rd cnts i)) eqn:C1; [done|].
    destruct ((rd b i >? rd cnts i) && (rd c i >? rd cnts i)) eqn:C2; [done|].
    destruct ((rd a i >? rd cnts i) && (rd c i >? rd cnts i)) eqn:C3; lia.
Qed.

(** [pm_less] never holds in both directions; in particular no measure is
    less than itself. *)
Theorem pm_less_asymmetric (kk : Z) (cnts a b : list Z) (d pl : Z) :
  pm_less kk cnts a b d pl && pm_less kk cnts b a d pl = false.
Proof.
  unfold pm_less.
  destruct (rd b pl =? -1), (rd a pl =? -1); simpl; try done.
  apply pm_less_scan_asym.
Qed.

(** [pm_less] is transitive, for one bound vector, one priority and one
    player. *)
Theorem pm_less_transitive (kk : Z) (cnts a b c : list Z) (d pl : Z) :
  pm_less kk cnts a b d pl = true -> pm_less kk cnts b c d pl = true ->
  pm_less kk cnts a c d pl = true.
Proof.
  unfold pm_less.
  destruct (rd a pl =? -1), (rd b pl =? -1), (rd c pl =? -1); simpl; try done.
  apply pm_less_scan_trans.
Qed.

Lemma pm_less_transitive_witness :
  pm_less 2 [5; 5] [0; 0] [1; 0] 0 0 = true
  /\ pm_less 2 [5; 5] [1; 0] [2; 0] 0 0 = true
  /\ pm_less 2 [5; 5] [0; 0] [2; 0] 0 0 = true.
Proof.
  split; [reflexivity|]. split; [reflexivity|].
  apply (pm_less_transitive 2 [5; 5] [0; 0] [1; 0] [2; 0] 0 0); reflexivity.
Defined.

(** ** The digits that [prog] writes *)

Lemma prog_fused_bounds (cnts src : list Z) (d kk : Z) (fuel : nat) :
  forall (dst : list Z) (i c j : Z),
  0 <= i -> (Z.to_nat kk <= length dst)%nat -> (Z.to_nat (kk - i) <= fuel)%nat ->
  c = 0 \/ c = 1 ->
  i <= j < kk -> (j - i) mod 2 = 0 ->
  let r := (prog_fused fuel cnts dst src i d kk c).1 in
  if j <? d then rd r j = 0
  else rd r j = 0 \/ (rd src j <= rd r j <= rd cnts j /\ rd r j <= rd src j + 1).
Proof.
  induction fuel as [|f IH]; intros dst i c j Hi Hlen Hf Hc Hj Hpar; [lia|].
  simpl. destruct (Z.ltb_spec i kk) as [Hik|Hik]; [|lia].
  assert (Hin : (Z.to_nat i < length dst)%nat) by lia.
  assert (Hstep : forall w c', c' = 0 \/ c' = 1 ->
            (if i <? d then w = 0
             else w = 0 \/ (rd src i <= w <= rd cnts i /\ w <= rd src i + 1)) ->
            let r := (prog_fused f cnts (wr dst i w) src (i + 2) d kk c').1 in
            if j <? d then rd r j = 0
            else rd r j = 0 \/ (rd src j <= rd r j <= rd cnts j /\ rd r j <= rd src j + 1)).
  { intros w c' Hc' Hw.
    destruct (decide (j = i)) as [->|Hne].
    - pose proof (prog_fused_reference cnts src d kk f (wr dst i w) (i + 2) c'
                    ltac:(lia) ltac:(by rewrite length_wr)) as R.
      destruct (prog_fused f cnts (wr dst i w) src (i + 2) d kk c') as [dst' c2].
      destruct R as (_ & _ & _ & Hframe). simpl.
      rewrite Hframe by lia. rewrite rd_wr_eq by done. exact Hw.
    - apply IH; try done; rewrite ?length_wr; try lia. }
  destruct (Z.ltb_spec i d) as [Hid|Hid].
  - apply Hstep; [done|]. destruct (Z.ltb_spec i d); [done|lia].
  - destruct (Z.gtb_spec (rd src i + c) (rd cnts i)) as [Hgt|Hle].
    + apply Hstep; [by right|]. destruct (Z.ltb_spec i d); [lia|]. by left.
    + apply Hstep; [by left|]. destruct (Z.ltb_spec i d); [lia|]. right. lia.
Qed.

(** Unless [prog] saturates the counter, every digit it leaves for the
    player is in bounds: 0 below the priority [d]; from [d] on either 0 (a
    carry went out) or the source digit, possibly plus one, and then not
    above the bound [counts]. *)
Theorem prog_digits_bounded (kk : Z) (cnts dst src : list Z) (d pl j : Z) :
  pl = 0 \/ pl = 1 -> d <= kk -> (Z.to_nat kk <= length dst)%nat ->
  pl <= j < kk -> j mod 2 = pl ->
  rd (prog kk cnts dst src d pl) pl = -1
  \/ (if j <? d then rd (prog kk cnts dst src d pl) j = 0
      else rd (prog kk cnts dst src d pl) j = 0
           \/ (rd src j <= rd (prog kk cnts dst src d pl) j <= rd cnts j
               /\ rd (prog kk cnts dst src d pl) j <= rd src j + 1)).
Proof.
  intros Hpl Hd Hlen Hj Hpar. unfold prog.
  destruct (rd src pl =? -1).
  { left. apply rd_wr_eq. lia. }
  set (c0 := if Z.rem d 2 =? pl then 1 else 0).
  assert (Hc0 : c0 = 0 \/ c0 = 1) by (subst c0; destruct (Z.rem d 2 =? pl); auto).
  pose proof (prog_reset_fused cnts src d kk c0 (Z.to_nat d) (Z.to_nat kk) dst pl) as F.
  destruct (prog_reset (Z.to_nat d) dst pl d) as [dst1 i1].
  rewrite F by lia. clear F.
  pose proof (prog_fused_bounds cnts src d kk (Z.to_nat kk) dst pl c0 j
                ltac:(lia) Hlen ltac:(lia) Hc0 Hj ltac:(lia)) as B.
  pose proof (prog_fused_reference cnts src d kk (Z.to_nat kk) dst pl c0
                ltac:(lia) Hlen) as R.
  destruct (prog_fused (Z.to_nat kk) cnts dst src pl d kk c0) as [dst2 c2].
  destruct R as (_ & L & _ & _). simpl in B.
  destruct (c2 =? 0); [by right|].
  left. apply rd_wr_eq. lia.
Qed.

(** With bound 3 everywhere, priority 2 and player 0, the digit 1 at
    coordinate 2 becomes 2. *)
Lemma prog_digits_bounded_witness :
  rd (prog 4 [3; 3; 3; 3] [7; 7; 7; 7] [0; 0; 1; 0] 2 0) 0 = -1
  \/ (rd (prog 4 [3; 3; 3; 3] [7; 7; 7; 7] [0; 0; 1; 0] 2 0) 2 = 0
      \/ (rd [0; 0; 1; 0] 2 <= rd (prog 4 [3; 3; 3; 3] [7; 7; 7; 7] [0; 0; 1; 0] 2 0) 2
                            <= rd [3; 3; 3; 3] 2
          /\ rd (prog 4 [3; 3; 3; 3] [7; 7; 7; 7] [0; 0; 1; 0] 2 0) 2
             <= rd [0; 0; 1; 0] 2 + 1)).
Proof.
  apply (prog_digits_bounded 4 [3; 3; 3; 3] [7; 7; 7; 7] [0; 0; 1; 0] 2 0 2);
    [by left|lia|simpl; lia|lia|reflexivity].
Defined.

(** ** What one call of [lift] changes *)

Lemma lift_try_idle (node d p : Z) (s : Solver) (c0 c1 to_node : Z) :
  to_node <> -1 ->
  (lift_try node d p (s, c0, c1) to_node).1.2 = -1 ->
  (lift_try node d p (s, c0, c1) to_node).2 = -1 ->
  scratch_eq s (lift_try node d p (s, c0, c1) to_node).1.1 /\ c0 = -1 /\ c1 = -1.
Proof.
  intros Hto. unfold lift_try.
  pose proof (prog_tmp_scratch s to_node d p) as Hs.
  destruct (pm_less _ _ _ _ _ _).
  - destruct (p =? 0); simpl; intros; congruence.
  - simpl. done.
Qed.

Lemma fold_lift_try_idle (node d p : Z) (es : list Z) :
  (forall t, In t es -> t <> -1) ->
  forall (s : Solver) (c0 c1 : Z),
  (fold_left (lift_try node d p) es (s, c0, c1)).1.2 = -1 ->
  (fold_left (lift_try node d p) es (s, c0, c1)).2 = -1 ->
  scratch_eq s (fold_left (lift_try node d p) es (s, c0, c1)).1.1 /\ c0 = -1 /\ c1 = -1.
Proof.
  induction es as [|e es IH]; intros Hes s c0 c1; cbn [fold_left].
  - simpl. intros -> ->. split; [apply scratch_eq_refl|done].
  - pose proof (lift_try_idle node d p s c0 c1 e ltac:(apply Hes; by left)) as Hstep.
    destruct (lift_try node d p (s, c0, c1) e) as [[s1 a0] a1]. simpl in Hstep.
    intros H0 H1.
    destruct (IH ltac:(intros t Ht; apply Hes; by right) s1 a0 a1 H0 H1) as (E & -> & ->).
    destruct (Hstep eq_refl eq_refl) as (E1 & -> & ->).
    split; [eapply scratch_eq_trans; eassumption|done].
Qed.

(** [lift] counts every call that changes something in [lift_count], and a
    call that returns [false] has changed no measure and no bound.  (It may
    have rewritten [strategy[node]].) *)
Theorem lift_failure_keeps_measures (g : Graph) (s : Solver) (node target : Z) :
  valid_graph g = true -> 0 <= node < num_vertices g ->
  target = -1 \/ 0 <= target ->
  lift_count (lift g s node target).2
  = lift_count s + (if (lift g s node target).1 then 1 else 0)
  /\ ((lift g s node target).1 = false ->
      pms (lift g s node target).2 = pms s
      /\ counts (lift g s node target).2 = counts s).
Proof.
  intros Hg Hnode Htarget.
  destruct (valid_graph_vertex g node Hg Hnode) as (Hpl & Hprio & Hout & Hedges).
  unfold lift.
  destruct ((rd (pm s node) 0 =? -1) && (rd (pm s node) 1 =? -1)).
  { simpl. split; [lia|done]. }
  set (p := vplayer g node). set (d := vpriority g node).
  (* the owner attempt *)
  assert (Hown : forall s1 a0 a1, lift_owner g s node target d p = (s1, a0, a1) ->
            lift_count s1 = lift_count s
            /\ (a0 = -1 -> a1 = -1 -> scratch_eq s s1)).
  { intros s1 a0 a1. unfold lift_owner.
    destruct (negb (rd (pm s node) p =? -1)).
    2:{ intros [= <- <- <-]. split; [done|]. intros _ _. apply scratch_eq_refl. }
    destruct (negb (target =? -1)) eqn:Et.
    - intros E. split.
      + unfold lift_try in E. destruct (pm_less _ _ _ _ _ _), (p =? 0);
          injection E as <- _ _; done.
      + intros -> ->.
        pose proof (lift_try_idle node d p s (-1) (-1) target ltac:(lia)) as H.
        rewrite E in H. by destruct (H eq_refl eq_refl).
    - intros E. split.
      + assert (Hc : forall es s0 c0 c1,
                  lift_count (fold_left (lift_try node d p) es (s0, c0, c1)).1.1
                  = lift_count s0).
        { induction es as [|e es IH]; intros s0 c0 c1; cbn [fold_left]; [done|].
          destruct (lift_try node d p (s0, c0, c1) e) as [[s' a] b] eqn:E'.
          rewrite IH. unfold lift_try in E'.
          destruct (pm_less _ _ _ _ _ _), (p =? 0); injection E' as <- _ _; done. }
        specialize (Hc (vout g node) s (-1) (-1)). by rewrite E in Hc.
      + intros -> ->.
        pose proof (fold_lift_try_idle node d p (vout g node)
                      ltac:(intros t Ht; apply Hedges in Ht; lia) s (-1) (-1)) as H.
        rewrite E in H. by destruct (H eq_refl eq_refl). }
  destruct (lift_owner g s node target d p) as [[s1 a0] a1].
  destruct (Hown s1 a0 a1 eq_refl) as [Hc1 Hidle1]. clear Hown.
  (* the opponent attempt *)
  assert (Hopp : forall s2 b0 b1,
            lift_opponent g (s1, a0, a1) node target d (1 - p) = (s2, b0, b1) ->
            lift_count s2 = lift_count s1
            /\ (b0 = -1 -> b1 = -1 ->
                pms s2 = pms s1 /\ counts s2 = counts s1 /\ a0 = -1 /\ a1 = -1)).
  { intros s2 b0 b1. unfold lift_opponent.
    destruct (negb (rd (pm s1 node) (1 - p) =? -1) && _).
    2:{ intros [= <- <- <-]. done. }
    destruct (fold_best_step_scratch d (1 - p) (vout g node) s1 (-1)) as (Hs & _ & Hin).
    destruct (fold_left (best_step d (1 - p)) (vout g node) (s1, -1)) as [s1' best_to].
    simpl in Hs, Hin.
    assert (Hbt : best_to <> -1).
    { specialize (Hin eq_refl Hout). apply Hedges in Hin. lia. }
    destruct Hs as [E1 E2 E3 E4 E5 E6 E7 E8 E9 E10 E11].
    destruct (pm_less _ _ _ _ _ _).
    - destruct (1 - p =? 0); intros [= <- <- <-]; simpl; (split; [done|]);
        intros; congruence.
    - intros [= <- <- <-]. simpl. done. }
  destruct (lift_opponent g (s1, a0, a1) node target d (1 - p)) as [[s2 b0] b1].
  destruct (Hopp s2 b0 b1 eq_refl) as [Hc2 Hidle2]. clear Hopp.
  assert (Hshrink : forall c0 c1, lift_count (lift_shrink s2 node d c0 c1) = lift_count s2).
  { intros c0 c1. unfold lift_shrink, dec_counts.
    repeat match goal with |- context [if ?b then _ else _] => destruct b end; done. }
  destruct (Z.eqb_spec b0 (-1)) as [H0|H0], (Z.eqb_spec b1 (-1)) as [H1|H1]; simpl;
    rewrite ?Hshrink; (split; [lia|]); try done.
  intros _. destruct (Hidle2 H0 H1) as (P2 & C2 & A0 & A1).
  destruct (Hidle1 A0 A1) as [E1 E2 E3 E4 E5 E6 E7 E8 E9 E10 E11].
  unfold lift_shrink. simpl. split; congruence.
Qed.

Lemma lift_failure_keeps_measures_witness :
  lift_count (lift g_cycle s_cycle_used 0 (-1)).2
  = lift_count s_cycle_used + (if (lift g_cycle s_cycle_used 0 (-1)).1 then 1 else 0)
  /\ ((lift g_cycle s_cycle_used 0 (-1)).1 = false ->
      pms (lift g_cycle s_cycle_used 0 (-1)).2 = pms s_cycle_used
      /\ counts (lift g_cycle s_cycle_used 0 (-1)).2 = counts s_cycle_used).
Proof.
  apply (lift_failure_keeps_measures g_cycle s_cycle_used 0 (-1)).
  - reflexivity.
  - unfold num_vertices. simpl. lia.
  - by left.
Defined.

(** [lift] works on one vertex: the measures and strategy entries of all
    other vertices, the worklist, the dirty flags and [unstable] are as
    before. *)
Theorem lift_changes_one_vertex (g : Graph) (s : Solver) (node target : Z) :
  valid_graph g = true -> sizes g s -> 0 <= node < num_vertices g ->
  target = -1 \/ 0 <= target ->
  (forall v q, 0 <= v < num_vertices g -> v <> node -> 0 <= q < k s ->
     rd (pm (lift g s node target).2 v) q = rd (pm s v) q)
  /\ (forall v, 0 <= v -> v <> node ->
        rd (strategy (lift g s node target).2) v = rd (strategy s) v)
  /\ todo (lift g s node target).2 = todo s
  /\ dirty (lift g s node target).2 = dirty s
  /\ unstable (lift g s node target).2 = unstable s.
Proof.
  intros Hg Hsz Hnode Htarget.
  pose proof (lift_spec g node target s Hg Hsz Hnode Htarget) as Hpost.
  split; [|split; [|split; [|split]]]; try apply Hpost.
  - intros v q Hv Hne Hq. by apply (lift_other_measure g node target).
  - intros v Hv Hne. destruct (lp_strategy _ _ _ _ _ Hpost) as [->|(t & _ & ->)]; [done|].
    apply rd_wr_ne'; lia.
Qed.

Lemma lift_changes_one_vertex_witness :
  (forall v q, 0 <= v < num_vertices g_cycle -> v <> 0 -> 0 <= q < k s_cycle_used ->
     rd (pm (lift g_cycle s_cycle_used 0 (-1)).2 v) q = rd (pm s_cycle_used v) q)
  /\ (forall v, 0 <= v -> v <> 0 ->
        rd (strategy (lift g_cycle s_cycle_used 0 (-1)).2) v = rd (strategy s_cycle_used) v)
  /\ todo (lift g_cycle s_cycle_used 0 (-1)).2 = todo s_cycle_used
  /\ dirty (lift g_cycle s_cycle_used 0 (-1)).2 = dirty s_cycle_used
  /\ unstable (lift g_cycle s_cycle_used 0 (-1)).2 = unstable s_cycle_used.
Proof.
  apply (lift_changes_one_vertex g_cycle s_cycle_used 0 (-1)).
  - reflexivity.
  - apply sized_sizes. vm_compute. reflexivity.
  - unfold num_vertices. simpl. lia.
  - by left.
Defined.

(** ** Saturation is permanent *)

(** A counter that is saturated stays saturated through the whole main loop
    of [solve], its lifts and its stabilisation passes. *)
Theorem solve_loop_keeps_saturated
        (g : Graph) (fuel : nat) (s : Solver) (lu : Z) (s' : Solver) (v p : Z) :
  valid_graph g = true -> sizes g s ->
  0 <= v < num_vertices g -> p = 0 \/ p = 1 ->
  rd (pm s v) p = -1 ->
  solve_loop fuel g s lu = Some s' ->
  rd (pm s' v) p = -1.
Proof.
  intros Hg Hsz Hv Hp Htop Hloop.
  set (P := fun t : Solver => sizes g t /\ rd (pm t v) p = -1).
  assert (HP : P s') ; [|apply HP].
  apply (solve_loop_preserves g Hg P) with (fuel := fuel) (s := s) (lu := lu);
    try done; unfold P.
  - intros t node target [T1 T2] Hn Ht. split.
    + apply (lift_spec g node target t); try done. lia.
    + apply lift_saturation_permanent; try done. by right.
  - intros t x [T1 T2]. split; [by apply todo_push_sizes|by rewrite todo_push_pm].
  - intros t [T1 T2]. split; [by apply todo_pop_sizes|].
    unfold todo_pop. destruct (todo t); done.
  - intros f t pl t' [T1 T2] Hpl Hup.
    destruct (update_preserves f g t pl t' Hg T1 Hpl Hup) as (U1 & U2 & _ & _ & U5).
    split; [done|].
    pose proof (sz_k _ _ T1) as Hk. pose proof (sz_k _ _ U1) as Hk'.
    unfold pm in *. rewrite rd_pm_at in * by nia.
    rewrite U2. apply U5; [nia|done].
Qed.

Lemma solve_loop_keeps_saturated_witness :
  exists s',
    solve_loop 5 g_loop (todo_push (lift g_loop s_loop_lifted 0 0).2 0) 0 = Some s'
    /\ rd (pm s' 0) 0 = -1.
Proof.
  destruct (solve_loop 5 g_loop (todo_push (lift g_loop s_loop_lifted 0 0).2 0) 0)
    as [s'|] eqn:E; [|vm_compute in E; discriminate].
  exists s'. split; [reflexivity|].
  apply (solve_loop_keeps_saturated g_loop 5
           (todo_push (lift g_loop s_loop_lifted 0 0).2 0) 0 s' 0 0).
  - reflexivity.
  - apply sized_sizes. vm_compute. reflexivity.
  - unfold num_vertices. simpl. lia.
  - by left.
  - vm_compute. reflexivity.
  - exact E.
Defined.

(** ** The worklist and its dirty flags *)

(** The worklist holds vertices of the graph, each at most once, and
    [dirty] marks exactly the vertices it holds. *)
Definition worklist_ok (g : Graph) (s : Solver) : Prop :=
  NoDup (todo s)
  /\ (forall v, In v (todo s) -> 0 <= v < num_vertices g /\ rd (dirty s) v = 1)
  /\ (forall v, 0 <= v < num_vertices g -> ~ In v (todo s) -> rd (dirty s) v = 0).

Lemma worklist_ok_ext (g : Graph) (s s' : Solver) :
  dirty s' = dirty s -> todo s' = todo s -> worklist_ok g s -> worklist_ok g s'.
Proof. intros Hd Ht. unfold worklist_ok. by rewrite Hd, Ht. Qed.

Lemma worklist_ok_length (g : Graph) (s : Solver) :
  worklist_ok g s -> (length (todo s) <= Z.to_nat (num_vertices g))%nat.
Proof.
  intros (Hnd & Hin & _).
  assert (Hsub : todo s ⊆ nodes g).
  { intros x Hx. apply list_elem_of_In, In_nodes. apply Hin. by apply list_elem_of_In. }
  pose proof (submseteq_length _ _ (NoDup_submseteq _ _ Hnd (fun x Hx => Hsub x Hx))) as H.
  unfold nodes in H. rewrite length_seqZ in H. done.
Qed.

Lemma todo_push_worklist_both (g : Graph) (s : Solver) (v : Z) :
  sizes g s -> worklist_ok g s -> 0 <= v < num_vertices g ->
  worklist_ok g (todo_push s v) /\ In v (todo (todo_push s v)).
Proof.
  intros Hsz Hok Hv.
  { destruct Hok as (Hnd & Hin & Hout). pose proof (sz_dirty _ _ Hsz) as Hlen.
    unfold todo_push. destruct (Z.eqb_spec (rd (dirty s) v) 0) as [Hz|Hnz].
    - assert (Hnew : ~ In v (todo s)).
      { intros Hi. apply Hin in Hi. lia. }
      split; [|simpl; apply in_or_app; right; by left].
      split; [|split]; simpl.
      + apply NoDup_app. split; [done|]. split; [|apply NoDup_singleton].
        intros x Hx ->%list_elem_of_singleton. apply Hnew. by apply list_elem_of_In.
      + intros x Hx. apply in_app_or in Hx as [Hx|[<-|[]]].
        * destruct (Hin x Hx) as [H1 H2]. split; [done|].
          rewrite rd_wr_ne'; try lia. intros ->. done.
        * split; [done|]. apply rd_wr_eq. lia.
      + intros x Hx Hni.
        assert (x <> v) by (intros ->; apply Hni, in_or_app; right; by left).
        rewrite rd_wr_ne' by lia. apply Hout; [done|].
        intros Hi. apply Hni, in_or_app. by left.
    - split; [done|].
      destruct (in_dec Z.eq_dec v (todo s)) as [Hi|Hni]; [done|].
      exfalso. apply Hnz. by apply Hout. }
Qed.

Lemma todo_push_worklist_ok (g : Graph) (s : Solver) (v : Z) :
  sizes g s -> worklist_ok g s -> 0 <= v < num_vertices g ->
  worklist_ok g (todo_push s v).
Proof. intros Hsz Hok Hv. exact (proj1 (todo_push_worklist_both g s v Hsz Hok Hv)). Qed.

(** [todo_push] of a vertex keeps the worklist well formed, leaves the
    vertex pending, and the worklist never grows beyond the number of
    vertices. *)
Theorem todo_push_keeps_worklist (g : Graph) (s : Solver) (v : Z) :
  sizes g s -> worklist_ok g s -> 0 <= v < num_vertices g ->
  worklist_ok g (todo_push s v)
  /\ In v (todo (todo_push s v))
  /\ (length (todo (todo_push s v)) <= Z.to_nat (num_vertices g))%nat.
Proof.
  intros Hsz Hok Hv.
  destruct (todo_push_worklist_both g s v Hsz Hok Hv) as [H1 H2].
  split; [done|]. split; [done|]. by apply worklist_ok_length.
Qed.

Lemma g_cycle_worklist_ok : worklist_ok g_cycle s_cycle_used.
Proof.
  assert (Et : todo s_cycle_used = []) by (vm_compute; reflexivity).
  assert (Ed : dirty s_cycle_used = [0; 0]) by (vm_compute; reflexivity).
  unfold worklist_ok. rewrite Et, Ed.
  split; [apply NoDup_nil_2|]. split; [intros v []|].
  intros v Hv _. unfold num_vertices in Hv. simpl in Hv.
  assert (v = 0 \/ v = 1) as [-> | ->] by lia; reflexivity.
Qed.

Lemma todo_push_keeps_worklist_witness :
  worklist_ok g_cycle (todo_push s_cycle_used 1)
  /\ In 1 (todo (todo_push s_cycle_used 1))
  /\ (length (todo (todo_push s_cycle_used 1)) <= Z.to_nat (num_vertices g_cycle))%nat.
Proof.
  apply (todo_push_keeps_worklist g_cycle s_cycle_used 1).
  - apply sized_sizes. vm_compute. reflexivity.
  - exact g_cycle_worklist_ok.
  - unfold num_vertices. simpl. lia.
Defined.

Lemma todo_pop_worklist_ok (g : Graph) (s : Solver) :
  worklist_ok g s -> worklist_ok g (todo_pop s).2.
Proof.
  intros Hok. unfold todo_pop. destruct (todo s) as [|v rest] eqn:Ht; [done|].
  destruct Hok as (Hnd & Hin & Hout). rewrite Ht in Hnd, Hin, Hout.
  unfold worklist_ok. cbn [fst snd todo dirty set_dirty set_todo].
  apply NoDup_cons in Hnd as [Hv Hnd].
  assert (Hv' : ~ In v rest) by (intros Hi; apply Hv; by apply list_elem_of_In).
  destruct (Hin v ltac:(by left)) as [Hrange Hd].
  split; [done|]. split.
  - intros x Hx. destruct (Hin x ltac:(by right)) as [H1 H2]. split; [done|].
    rewrite rd_wr_ne' by (lia || congruence). done.
  - intros x Hx Hni. destruct (decide (x = v)) as [->|Hne].
    + apply rd_wr_eq. unfold rd in Hd.
      destruct (decide (Z.to_nat v < length (dirty s))%nat) as [Hl|Hl]; [done|].
      rewrite lookup_ge_None_2 in Hd by lia. done.
    + rewrite rd_wr_ne' by lia. apply Hout; [done|]. intros [->|Hi]; done.
Qed.

(** [todo_pop] hands out the oldest pending vertex, clears its flag and
    keeps the worklist well formed. *)
Theorem todo_pop_keeps_worklist (g : Graph) (s : Solver) (v : Z) (rest : list Z) :
  worklist_ok g s -> todo s = v :: rest ->
  (todo_pop s).1 = v
  /\ todo (todo_pop s).2 = rest
  /\ rd (dirty (todo_pop s).2) v = 0
  /\ worklist_ok g (todo_pop s).2.
Proof.
  intros Hok Ht.
  split; [|split; [|split]]; [| | |by apply todo_pop_worklist_ok];
    unfold todo_pop; rewrite Ht; cbn [fst snd todo dirty set_dirty set_todo];
    try done.
  unfold rd, wr.
  destruct (decide (Z.to_nat v < length (dirty s))%nat) as [Hl|Hl].
  - by rewrite list_lookup_insert_eq.
  - rewrite list_insert_ge by lia. by rewrite lookup_ge_None_2 by lia.
Qed.

Lemma todo_pop_keeps_worklist_witness :
  (todo_pop (todo_push s_cycle_used 1)).1 = 1
  /\ todo (todo_pop (todo_push s_cycle_used 1)).2 = []
  /\ rd (dirty (todo_pop (todo_push s_cycle_used 1)).2) 1 = 0
  /\ worklist_ok g_cycle (todo_pop (todo_push s_cycle_used 1)).2.
Proof.
  assert (Hsz : sizes g_cycle s_cycle_used)
    by (apply sized_sizes; vm_compute; reflexivity).
  assert (Hr : 0 <= 1 < num_vertices g_cycle) by (unfold num_vertices; simpl; lia).
  apply (todo_pop_keeps_worklist g_cycle (todo_push s_cycle_used 1) 1 []).
  - exact (todo_push_worklist_ok g_cycle s_cycle_used 1 Hsz g_cycle_worklist_ok Hr).
  - vm_compute. reflexivity.
Defined.

(** Preservation through the loops of [solve], for properties that only
    survive a [todo_push] of a vertex of the graph. *)
Section RangePreservation.
Context (g : Graph) (Hg : valid_graph g = true) (P : Solver -> Prop).
Hypothesis P_lift : forall s node target,
  P s -> 0 <= node < num_vertices g ->
  target = -1 \/ 0 <= target < num_vertices g ->
  P (lift g s node target).2.
Hypothesis P_push : forall s v, P s -> 0 <= v < num_vertices g -> P (todo_push s v).
Hypothesis P_pop : forall s, P s -> P (todo_pop s).2.
Hypothesis P_update : forall fuel s pl s',
  P s -> pl = 0 \/ pl = 1 -> update fuel g s pl = Some s' -> P s'.

Lemma lift_preds_keeps (s : Solver) (n : Z) : P s -> P (lift_preds g s n).
Proof.
  unfold lift_preds.
  apply (fold_left_preserves P (fun other => 0 <= other < num_vertices g)).
  - intros s1 other Hs1 Hother.
    apply (fold_left_preserves P (fun t => 0 <= t < num_vertices g)); [|  |done].
    + intros s2 tgt Hs2 Htgt. unfold lift_pred_edge.
      destruct (Z.eqb_spec tgt n) as [->|Hne]; [|done].
      pose proof (P_lift s2 other n Hs2 Hother ltac:(by right)) as HL.
      destruct (lift g s2 other n) as [r s3]. simpl in HL.
      destruct r; [by apply P_push|done].
    + intros t Ht. by apply (valid_graph_vertex g other Hg Hother).
  - intros other Hin. by apply In_nodes.
Qed.

Lemma solve_first_keeps (s : Solver) :
  P s -> P (fold_left (solve_first g) (rev (nodes g)) s).
Proof.
  apply (fold_left_preserves P (fun n => 0 <= n < num_vertices g)).
  - intros s1 n Hs Hn. unfold solve_first.
    pose proof (P_lift s1 n (-1) Hs Hn ltac:(by left)) as H1.
    destruct (lift g s1 n (-1)) as [r s2]. simpl in H1.
    destruct r; [|done]. by apply lift_preds_keeps.
  - intros n Hin. apply In_nodes. by apply in_rev.
Qed.

Lemma solve_loop_keeps (fuel : nat) : forall (s : Solver) (lu : Z) (s' : Solver),
  P s -> solve_loop fuel g s lu = Some s' -> P s'.
Proof.
  induction fuel as [|f IH]; intros s lu s' Hs; simpl.
  - destruct (todo s); [|discriminate]. by intros [= <-].
  - destruct (todo s) eqn:Et; [by intros [= <-]|].
    pose proof (P_pop s Hs) as Hpop.
    destruct (todo_pop s) as [n s1]. simpl in Hpop.
    pose proof (lift_preds_keeps s1 n Hpop) as Hs2.
    destruct (lu + 10 * num_vertices g <? lift_count (lift_preds g s1 n)).
    + destruct (update (S f) g (lift_preds g s1 n) 0) as [s3|] eqn:E3; [|discriminate].
      destruct (update (S f) g s3 1) as [s4|] eqn:E4; [|discriminate].
      apply IH. eapply P_update; [|by right|exact E4].
      eapply P_update; [exact Hs2|by left|exact E3].
    + by apply IH.
Qed.
End RangePreservation.

Lemma update_keeps_worklist (fuel : nat) (g : Graph) (s : Solver) (pl : Z) (s' : Solver) :
  valid_graph g = true -> sizes g s -> worklist_ok g s -> pl = 0 \/ pl = 1 ->
  update fuel g s pl = Some s' -> sizes g s' /\ worklist_ok g s'.
Proof.
  intros Hg Hsz Hok Hpl Hup.
  destruct (update_phases fuel g s pl s' Hup) as (s2 & Hce & ->).
  apply (fold_left_preserves (fun t => sizes g t /\ worklist_ok g t)
           (fun i => 0 <= i < num_vertices g)).
  - intros t i [T1 T2] Hi.
    destruct (update_final_spec g pl t i Hg T1 Hpl Hi) as (U1 & _).
    split; [done|]. rewrite update_final_unfold.
    destruct (update_fires g pl t i); [|done].
    apply todo_push_worklist_ok; [|by apply (worklist_ok_ext g t)|done].
    apply (sizes_transfer g t); simpl; rewrite ?length_wr; done.
  - intros i Hin. by apply In_nodes.
  - split; [by apply (core_eq_sizes g s)|].
    apply (worklist_ok_ext g s); [apply Hce|apply Hce|done].
Qed.

(** When [solve], called on an object whose worklist is empty, returns,
    the worklist is empty again and every dirty flag is cleared. *)
Theorem solve_leaves_worklist_clean
        (g : Graph) (fuel : nat) (s0 : Solver) (sol : Solution) (s' : Solver) :
  valid_graph g = true -> idle s0 ->
  solve fuel g s0 = Some (sol, s') ->
  todo s' = [] /\ forall v, 0 <= v < num_vertices g -> rd (dirty s') v = 0.
Proof.
  intros Hg Hidle Hsolve.
  set (P := fun t : Solver => sizes g t /\ worklist_ok g t).
  assert (P_lift : forall s node target, P s -> 0 <= node < num_vertices g ->
            target = -1 \/ 0 <= target < num_vertices g -> P (lift g s node target).2).
  { intros s node target [H1 H2] Hn Ht.
    pose proof (lift_spec g node target s Hg H1 Hn ltac:(lia)) as Hpost.
    split; [apply Hpost|]. apply (worklist_ok_ext g s); [apply Hpost|apply Hpost|done]. }
  assert (P_push : forall s v, P s -> 0 <= v < num_vertices g -> P (todo_push s v)).
  { intros s v [H1 H2] Hv. split; [by apply todo_push_sizes|].
    by apply todo_push_worklist_ok. }
  assert (P_pop : forall s, P s -> P (todo_pop s).2).
  { intros s [H1 H2]. split; [by apply todo_pop_sizes|].
    by apply todo_pop_worklist_ok. }
  assert (P_update : forall f s pl t, P s -> pl = 0 \/ pl = 1 ->
            update f g s pl = Some t -> P t).
  { intros f s pl t [H1 H2] Hpl Hup. by apply (update_keeps_worklist f g s pl t). }
  assert (P0 : P (solve_setup g s0)).
  { destruct (solve_setup_ok g s0 Hg) as (Hsz & _ & _ & _ & Ht).
    destruct (solve_setup_fields g s0) as (_ & Hd & _ & _).
    split; [done|]. rewrite Hidle in Ht. split; [|split].
    - rewrite Ht. apply NoDup_nil_2.
    - intros v Hv. by rewrite Ht in Hv.
    - intros v Hv _. rewrite Hd.
      assert (Hn : 0 <= num_vertices g) by (unfold num_vertices; lia).
      assert (Ls : length (dirty (init g s0)) = Z.to_nat (num_vertices g))
        by (unfold init; simpl; apply length_resize).
      destruct (fill_spec (dirty (init g s0)) (num_vertices g) 0) as [_ A]; [lia|].
      by apply A. }
  unfold solve in Hsolve.
  pose proof (solve_first_keeps g Hg P P_lift P_push _ P0) as H1.
  destruct (solve_loop fuel g _ 0) as [s3|] eqn:E; [|discriminate].
  injection Hsolve as _ <-.
  pose proof (solve_loop_idle g fuel _ 0 _ E) as Hempty.
  apply (solve_loop_keeps g Hg P P_lift P_push P_pop P_update) in E; [|done].
  split; [done|]. intros v Hv. destruct E as [_ (_ & _ & Hout)].
  apply Hout; [done|]. rewrite Hempty. intros [].
Qed.

Lemma solve_leaves_worklist_clean_witness :
  exists sol s',
    solve 10 g_cycle fresh_solver = Some (sol, s')
    /\ todo s' = [] /\ forall v, 0 <= v < num_vertices g_cycle -> rd (dirty s') v = 0.
Proof.
  destruct (solve 10 g_cycle fresh_solver) as [[sol s']|] eqn:E;
    [|vm_compute in E; discriminate].
  exists sol, s'. split; [reflexivity|].
  apply (solve_leaves_worklist_clean g_cycle 10 fresh_solver sol s').
  - reflexivity.
  - reflexivity.
  - exact E.
Defined.

(** ** Vertex descriptors and node indices *)

(** [vertex_to_node]: the position of [vertex] in the enumeration
    [boost::vertices], or -1.  With the vertex container [vecS] the
    descriptors are the positions themselves. *)
Fixpoint vertex_to_node_from (vs : list Z) (vertex index : Z) : Z :=
  match vs with
  | [] => -1
  | v :: rest =>
      if v =? vertex then index else vertex_to_node_from rest vertex (index + 1)
  end.
Definition vertex_to_node (g : Graph) (vertex : Z) : Z :=
  vertex_to_node_from (nodes g) vertex 0.

(** [node_to_vertex]: the vertex at position [node], or the
    value-initialised descriptor [graph::Vertex()], which is 0. *)
Fixpoint node_to_vertex_from (vs : list Z) (node index : Z) : Z :=
  match vs with
  | [] => 0
  | v :: rest =>
      if index =? node then v else node_to_vertex_from rest node (index + 1)
  end.
Definition node_to_vertex (g : Graph) (node : Z) : Z :=
  node_to_vertex_from (nodes g) node 0.

Lemma vertex_to_node_from_spec (n : nat) : forall (a vertex index : Z),
  vertex_to_node_from (seqZ a (Z.of_nat n)) vertex index
  = if (a <=? vertex) && (vertex <? a + Z.of_nat n) then index + (vertex - a) else -1.
Proof.
  induction n as [|n IH]; intros a vertex index.
  - rewrite seqZ_nil by lia. simpl. zbool; simpl; try done; lia.
  - rewrite seqZ_cons by lia. simpl.
    replace (Z.pred (Z.of_nat (S n))) with (Z.of_nat n) by lia.
    rewrite IH. zbool; simpl; try done; lia.
Qed.

Lemma node_to_vertex_from_spec (n : nat) : forall (a node index : Z),
  node_to_vertex_from (seqZ a (Z.of_nat n)) node index
  = if (index <=? node) && (node <? index + Z.of_nat n) then a + (node - index) else 0.
Proof.
  induction n as [|n IH]; intros a node index.
  - rewrite seqZ_nil by lia. simpl. zbool; simpl; try done; lia.
  - rewrite seqZ_cons by lia. simpl.
    replace (Z.pred (Z.of_nat (S n))) with (Z.of_nat n) by lia.
    rewrite IH. zbool; simpl; try done; lia.
Qed.

(** The two conversions are the identity on the vertices of the graph and
    inverse to each other there.  Outside, [vertex_to_node] answers -1 and
    [node_to_vertex] answers vertex 0, so a failed lookup, converted back,
    names vertex 0. *)
Theorem vertex_node_round_trip (g : Graph) (v : Z) :
  vertex_to_node g v = (if (0 <=? v) && (v <? num_vertices g) then v else -1)
  /\ node_to_vertex g v = (if (0 <=? v) && (v <? num_vertices g) then v else 0)
  /\ node_to_vertex g (vertex_to_node g v)
     = (if (0 <=? v) && (v <? num_vertices g) then v else 0).
Proof.
  assert (Hn : num_vertices g = Z.of_nat (length g)) by done.
  assert (H1 : forall x, vertex_to_node g x
                         = if (0 <=? x) && (x <? num_vertices g) then x else -1).
  { intros x. unfold vertex_to_node, nodes. rewrite Hn, vertex_to_node_from_spec.
    zbool; simpl; try done; lia. }
  assert (H2 : forall x, node_to_vertex g x
                         = if (0 <=? x) && (x <? num_vertices g) then x else 0).
  { intros x. unfold node_to_vertex, nodes. rewrite Hn, node_to_vertex_from_spec.
    zbool; simpl; try done; lia. }
  split; [apply H1|]. split; [apply H2|].
  rewrite H1.
  destruct ((0 <=? v) && (v <? num_vertices g)) eqn:E; rewrite H2.
  - by rewrite E.
  - change (0 <=? -1) with false. done.
Qed.

(** ** The stabilisation pass terminates *)

(** The number of vertices not yet marked unstable. *)
Definition stable_count (g : Graph) (s : Solver) : nat :=
  length (List.filter (fun v => rd (unstable s) v =? 0) (nodes g)).

Lemma stable_count_mark (g : Graph) (s s' : Solver) (m : Z) :
  0 <= m < num_vertices g -> Z.of_nat (length (unstable s)) = num_vertices g ->
  rd (unstable s) m = 0 -> unstable s' = wr (unstable s) m 1 ->
  stable_count g s = S (stable_count g s').
Proof.
  intros Hm Hlen Hz Hu. unfold stable_count. rewrite Hu.
  apply (filter_length_drop _ _ _ m).
  - apply NoDup_nodes.
  - by apply In_nodes.
  - intros y Hy Hne. apply In_nodes in Hy. rewrite rd_wr_ne' by lia. done.
  - by rewrite Hz.
  - rewrite rd_wr_eq by lia. done.
Qed.

Lemma update_edge_measure (g : Graph) (pl n other : Z) (s : Solver) (q : list Z) (tgt : Z) :
  0 <= other < num_vertices g -> Z.of_nat (length (unstable s)) = num_vertices g ->
  Z.of_nat (length (unstable (update_edge g pl n other (s, q) tgt).1)) = num_vertices g
  /\ (length (update_edge g pl n other (s, q) tgt).2
      + stable_count g (update_edge g pl n other (s, q) tgt).1
      <= length q + stable_count g s)%nat.
Proof.
  intros Hother Hlen. unfold update_edge.
  destruct (tgt =? n); [|done].
  destruct (Z.eqb_spec (rd (unstable s) other) 0) as [Hz|Hnz]; simpl; [|done].
  destruct (negb (vplayer g other =? pl)); [|done].
  pose proof (fold_update_best_step_scratch (vpriority g other) pl (vout g other) s (-1)) as H.
  destruct (fold_left _ _ _) as [s1 b]. simpl in H.
  assert (Hu : unstable s1 = unstable s) by apply H.
  assert (Hc : stable_count g s1 = stable_count g s)
    by (unfold stable_count; by rewrite Hu).
  destruct (b =? -1); [simpl; rewrite Hu, Hc; done|].
  destruct (pm_less _ _ _ _ _ _); [simpl; rewrite Hu, Hc; done|].
  simpl. rewrite length_wr, Hu. split; [done|].
  rewrite (stable_count_mark g s (set_unstable s1 (wr (unstable s1) other 1)) other);
    try done; [|simpl; by rewrite Hu].
  rewrite Hu, length_app. simpl. lia.
Qed.

Lemma update_visit_measure (g : Graph) (pl n : Z) (s : Solver) (q : list Z) :
  Z.of_nat (length (unstable s)) = num_vertices g ->
  Z.of_nat (length (unstable (update_visit g pl n (s, q)).1)) = num_vertices g
  /\ (length (update_visit g pl n (s, q)).2 + stable_count g (update_visit g pl n (s, q)).1
      <= length q + stable_count g s)%nat.
Proof.
  intros Hlen. unfold update_visit.
  set (I := fun acc : Solver * list Z =>
              Z.of_nat (length (unstable acc.1)) = num_vertices g
              /\ (length acc.2 + stable_count g acc.1 <= length q + stable_count g s)%nat).
  assert (Hfold : forall (l : list Z) (acc : Solver * list Z),
            (forall o, In o l -> 0 <= o < num_vertices g) -> I acc ->
            I (fold_left (fun acc other =>
                            fold_left (update_edge g pl n other) (vout g other) acc) l acc)).
  { induction l as [|o l IH]; intros acc Hl Hacc; cbn [fold_left]; [done|].
    apply IH; [intros x Hx; apply Hl; by right|].
    specialize (Hl o ltac:(by left)).
    generalize (vout g o). intros es. revert acc Hacc.
    induction es as [|e es IHe]; intros acc Hacc; cbn [fold_left]; [done|].
    apply IHe. destruct acc as [s1 q1]. destruct Hacc as [A1 A2]. simpl in A1, A2.
    destruct (update_edge_measure g pl n o s1 q1 e Hl A1) as [B1 B2].
    split; [done|]. lia. }
  apply (Hfold (nodes g) (s, q)).
  - intros o Ho. by apply In_nodes.
  - split; simpl; [done|lia].
Qed.

Lemma update_loop_terminates (g : Graph) (pl : Z) (fuel : nat) :
  forall (s : Solver) (q : list Z),
  Z.of_nat (length (unstable s)) = num_vertices g ->
  (length q + stable_count g s <= fuel)%nat ->
  is_Some (update_loop fuel g pl s q).
Proof.
  induction fuel as [|f IH]; intros s q Hlen Hf; destruct q as [|n rest]; simpl in *;
    try (by eexists); try lia.
  destruct (update_visit_measure g pl n s rest Hlen) as [H1 H2].
  destruct (update_visit g pl n (s, rest)) as [s1 q1]. simpl in H1, H2.
  apply IH; [done|lia].
Qed.

Lemma update_mark_step (g : Graph) (pl i : Z) (l : list Z) (s : Solver) (q : list Z) :
  ~ In i l -> 0 <= i < num_vertices g ->
  Z.of_nat (length (unstable s)) = num_vertices g ->
  NoDup q ->
  (forall x, In x q -> 0 <= x < num_vertices g /\ ~ In x (i :: l)
                       /\ rd (unstable s) x = 1) ->
  Z.of_nat (length (unstable (update_mark g pl (s, q) i).1)) = num_vertices g
  /\ NoDup (update_mark g pl (s, q) i).2
  /\ (forall x, In x (update_mark g pl (s, q) i).2 ->
        0 <= x < num_vertices g /\ ~ In x l
        /\ rd (unstable (update_mark g pl (s, q) i).1) x = 1).
Proof.
  intros Hi Hir Hlen Hq Hin.
  assert (Hkeep : forall s2 : Solver, unstable s2 = wr (unstable s) i 0 ->
            Z.of_nat (length (unstable s2)) = num_vertices g
            /\ NoDup q
            /\ (forall x, In x q -> 0 <= x < num_vertices g /\ ~ In x l
                                    /\ rd (unstable s2) x = 1)).
  { intros s2 E. rewrite E, length_wr. split; [done|]. split; [done|].
    intros x Hx. destruct (Hin x Hx) as (H1 & H2 & H3).
    split; [done|]. split; [intros Hxl; apply H2; by right|].
    rewrite rd_wr_ne'; try lia. intros Hxi. subst x. apply H2. by left. }
  assert (Hpush : forall s2 : Solver, unstable s2 = wr (unstable s) i 0 ->
            Z.of_nat (length (unstable (set_unstable s2 (wr (unstable s2) i 1))))
            = num_vertices g
            /\ NoDup (q ++ [i])
            /\ (forall x, In x (q ++ [i]) -> 0 <= x < num_vertices g /\ ~ In x l
                   /\ rd (unstable (set_unstable s2 (wr (unstable s2) i 1))) x = 1)).
  { intros s2 E. destruct (Hkeep s2 E) as (K1 & K2 & K3).
    cbn [unstable set_unstable]. rewrite length_wr. split; [done|]. split.
    - apply NoDup_app. split; [done|]. split; [|apply NoDup_singleton].
      intros x Hx Hxi%list_elem_of_singleton. subst x.
      apply list_elem_of_In in Hx. destruct (Hin i Hx) as (_ & H2 & _).
      apply H2. by left.
    - intros x Hx. apply in_app_or in Hx as [Hx|[Hxi|[]]].
      + destruct (K3 x Hx) as (H1 & H2 & H3). split; [done|]. split; [done|].
        rewrite rd_wr_ne'; try lia. intros Hxi. subst x.
        destruct (Hin i Hx) as (_ & H4 & _). apply H4. by left.
      + subst x. split; [done|]. split; [done|]. apply rd_wr_eq. lia. }
  unfold update_mark. cbn [k pms unstable set_unstable].
  destruct (rd (pms s) (k s * i + pl) =? -1).
  - cbn [fst snd]. apply (Hpush (set_unstable s (wr (unstable s) i 0))). done.
  - pose proof (canlift_scratch g (set_unstable s (wr (unstable s) i 0)) i pl) as Hc.
    destruct (canlift g (set_unstable s (wr (unstable s) i 0)) i pl) as [r s2].
    cbn [fst snd] in Hc.
    assert (E : unstable s2 = wr (unstable s) i 0) by apply Hc.
    destruct r; cbn [fst snd]; [by apply Hpush|by apply Hkeep].
Qed.

Lemma update_mark_queue (g : Graph) (pl : Z) (l : list Z) :
  forall (s : Solver) (q : list Z),
  NoDup l -> (forall i, In i l -> 0 <= i < num_vertices g) ->
  Z.of_nat (length (unstable s)) = num_vertices g ->
  NoDup q ->
  (forall x, In x q -> 0 <= x < num_vertices g /\ ~ In x l /\ rd (unstable s) x = 1) ->
  Z.of_nat (length (unstable (fold_left (update_mark g pl) l (s, q)).1)) = num_vertices g
  /\ NoDup (fold_left (update_mark g pl) l (s, q)).2
  /\ (forall x, In x (fold_left (update_mark g pl) l (s, q)).2 ->
        0 <= x < num_vertices g
        /\ rd (unstable (fold_left (update_mark g pl) l (s, q)).1) x = 1).
Proof.
  induction l as [|i l IH]; intros s q Hnd Hl Hlen Hq Hin; cbn [fold_left].
  - split; [done|]. split; [done|]. intros x Hx. by destruct (Hin x Hx) as (? & _ & ?).
  - apply NoDup_cons in Hnd as [Hi Hnd].
    assert (Hi' : ~ In i l) by (intros Hil; apply Hi; by apply list_elem_of_In).
    destruct (update_mark_step g pl i l s q Hi' (Hl i ltac:(by left)) Hlen Hq Hin)
      as (S1 & S2 & S3).
    destruct (update_mark g pl (s, q) i) as [s1 q1]. cbn [fst snd] in S1, S2, S3.
    apply IH; try done. intros x Hx. apply Hl. by right.
Qed.

(** [update] always returns: every vertex enters its queue at most once, so
    the queue loop runs at most as often as the graph has vertices. *)
Theorem update_terminates (g : Graph) (s : Solver) (pl : Z) (fuel : nat) :
  Z.of_nat (length (unstable s)) = num_vertices g ->
  (Z.to_nat (num_vertices g) <= fuel)%nat ->
  is_Some (update fuel g s pl).
Proof.
  intros Hlen Hf. unfold update.
  destruct (update_mark_queue g pl (nodes g) s [] (NoDup_nodes g)
              ltac:(intros i Hi; by apply In_nodes) Hlen (NoDup_nil_2)
              ltac:(intros x [])) as (H1 & H2 & H3).
  destruct (fold_left (update_mark g pl) (nodes g) (s, [])) as [s1 q].
  simpl in H1, H2, H3.
  assert (Hm : (length q + stable_count g s1 <= Z.to_nat (num_vertices g))%nat).
  { unfold stable_count.
    set (st := List.filter (fun v => rd (unstable s1) v =? 0) (nodes g)).
    assert (Hnd : NoDup (q ++ st)).
    { apply NoDup_app. split; [done|]. split.
      - intros x Hx Hst. apply list_elem_of_In in Hx, Hst.
        apply List.filter_In in Hst as [_ Hz]. destruct (H3 x Hx) as [_ H1']. lia.
      - apply NoDup_ListNoDup, List.NoDup_filter, NoDup_ListNoDup, NoDup_nodes. }
    assert (Hsub : q ++ st ⊆ nodes g).
    { intros x Hx. apply list_elem_of_In. apply list_elem_of_In, in_app_or in Hx as [Hx|Hx].
      - apply In_nodes. by apply H3.
      - by apply List.filter_In in Hx as [Hx _]. }
    pose proof (submseteq_length _ _ (NoDup_submseteq _ _ Hnd (fun x Hx => Hsub x Hx))) as H.
    rewrite length_app in H. unfold nodes in H. rewrite length_seqZ in H. lia. }
  destruct (update_loop_terminates g pl fuel s1 q H1 ltac:(lia)) as [s2 ->].
  by eexists.
Qed.

Lemma update_terminates_witness :
  is_Some (update 2 g_cycle s_cycle_used 0).
Proof.
  apply (update_terminates g_cycle s_cycle_used 0 2).
  - vm_compute. reflexivity.
  - vm_compute. lia.
Defined.

(** ** What the stabilisation pass changes *)

(** [update] for player [pl] touches no strategy entry and no statistics,
    and it changes the measures in one way only: the counter of the other
    player, at vertices whose priority has the other player's parity, may
    become saturated. *)
Theorem update_only_saturates_opponent
        (fuel : nat) (g : Graph) (s : Solver) (pl : Z) (s' : Solver) :
  valid_graph g = true -> sizes g s -> pl = 0 \/ pl = 1 ->
  update fuel g s pl = Some s' ->
  strategy s' = strategy s
  /\ lift_count s' = lift_count s /\ lift_attempt s' = lift_attempt s
  /\ forall v q, 0 <= v < num_vertices g -> 0 <= q < k s ->
       rd (pm s' v) q = rd (pm s v) q
       \/ (q = 1 - pl /\ rd (pm s' v) q = -1 /\ vpriority g v mod 2 <> pl).
Proof.
  intros Hg Hsz Hpl Hup.
  destruct (update_phases fuel g s pl s' Hup) as (s2 & Hce & ->).
  pose proof (core_eq_sizes g s s2 Hsz Hce) as Hsz2.
  pose proof (sz_k _ _ Hsz) as Hk.
  set (P := fun t : Solver =>
              sizes g t /\ k t = k s /\ strategy t = strategy s
              /\ lift_count t = lift_count s /\ lift_attempt t = lift_attempt s
              /\ forall j, 0 <= j ->
                   rd (pms t) j = rd (pms s) j
                   \/ (rd (pms t) j = -1
                       /\ exists i, 0 <= i < num_vertices g /\ j = k s * i + 1 - pl
                                    /\ vpriority g i mod 2 <> pl)).
  assert (HP : P (fold_left (update_final g pl) (nodes g) s2)).
  { apply (fold_left_preserves P (fun i => 0 <= i < num_vertices g)).
    - intros t i (T1 & T2 & T3 & T4 & T5 & T6) Hi.
      destruct (update_final_spec g pl t i Hg T1 Hpl Hi) as (U1 & U2 & _ & U4 & _).
      rewrite update_final_unfold in *.
      destruct (update_fires g pl t i) eqn:Hfire; [|done].
      set (t1 := set_pms (dec_counts t (vpriority g i)) (wr (pms t) (k t * i + 1 - pl) (-1))).
      destruct (todo_push_fields t1 i) as (F1 & F2 & F3 & _ & _ & _ & _ & F8 & F9 & _).
      fold t1 in U1, U2, U4.
      split; [done|]. split; [congruence|]. split; [congruence|].
      split; [rewrite F8; done|]. split; [rewrite F9; done|].
      intros j Hj. rewrite F2. subst t1. simpl.
      destruct (decide (j = k t * i + 1 - pl)) as [->|Hne].
      + right. split.
        * apply rd_wr_eq. pose proof (sz_pms _ _ T1). nia.
        * exists i. split; [done|]. split; [by rewrite T2|].
          unfold update_fires in Hfire. rewrite land_1_mod in Hfire.
          destruct (Z.eqb_spec (vpriority g i mod 2) pl); [|done].
          by rewrite andb_false_r in Hfire.
      + rewrite rd_wr_ne' by nia. by apply T6.
    - intros i Hin. by apply In_nodes.
    - split; [done|]. split; [apply Hce|]. split; [apply Hce|].
      split; [apply Hce|]. split; [apply Hce|].
      intros j Hj. left. by rewrite (ce_pms _ _ Hce). }
  destruct HP as (T1 & T2 & T3 & T4 & T5 & T6).
  split; [done|]. split; [done|]. split; [done|].
  intros v q Hv Hq. unfold pm. rewrite T2. rewrite !rd_pm_at by nia.
  destruct (T6 (k s * v + q) ltac:(nia)) as [E|(E & i & Hi & Hj & Hpar)]; [by left|].
  right.
  assert (Hvi : v = i).
  { clear Hpar E T6. destruct (Z.lt_trichotomy v i) as [H|[H|H]]; [|done|].
    - assert (k s * (v + 1) <= k s * i) by (apply Z.mul_le_mono_nonneg_l; lia). lia.
    - assert (k s * (i + 1) <= k s * v) by (apply Z.mul_le_mono_nonneg_l; lia). lia. }
  subst i. split; [lia|]. done.
Qed.

Lemma update_only_saturates_opponent_witness :
  exists s',
    update 2 g_cycle s_cycle_used 0 = Some s'
    /\ strategy s' = strategy s_cycle_used
    /\ lift_count s' = lift_count s_cycle_used
    /\ lift_attempt s' = lift_attempt s_cycle_used.
Proof.
  destruct (update 2 g_cycle s_cycle_used 0) as [s'|] eqn:E;
    [|vm_compute in E; discriminate].
  exists s'. split; [reflexivity|].
  destruct (update_only_saturates_opponent 2 g_cycle s_cycle_used 0 s')
    as (H1 & H2 & H3 & _).
  - reflexivity.
  - apply sized_sizes. vm_compute. reflexivity.
  - by left.
  - exact E.
  - split; [exact H1|]. split; [exact H2|exact H3].
Defined.

From stdpp Require Import sorting.
Local Open Scope Z_scope.

(** * The Buechi solver of the same source file: [buechi::AttractorSolver]

    The solver works on the same graph type.  A [std::set<Vertex>] is a
    [gset Z]; a range-for over a set or a map visits the keys in increasing
    order, which [set_iter] and [map_iter] write out.  The unsigned counters
    [iterations] and [attractions] are passed along as integers.  The set
    of accepting vertices that [get_buchi_accepting_vertices] returns comes
    from [priority_utilities], which is not among the sources at hand: it
    is a parameter [target_vertices] of [buechi_solve], and everything
    proved below holds for every such set. *)

Definition set_iter (X : gset Z) : list Z := merge_sort Z.le (elements X).

Definition map_iter (m : gmap Z Z) : list (Z * Z) :=
  @merge_sort (Z * Z) (fun a b => a.1 <= b.1) (fun a b => decide (a.1 <= b.1))
    (map_to_list m).

(** [RSolution::get_winning_player]: -1 for a vertex without entry. *)
Definition get_winning_player (sol : Solution) (v : Z) : Z :=
  default (-1) (winning_regions_ sol !! v).

(** [validate_buchi_game]: every priority is 0 or 1. *)
Definition validate_buchi_game (g : Graph) : bool :=
  forallb (fun v => (priority v =? 0) || (priority v =? 1)) g.

(** [compute_complement]: the loop that collects the active vertices that
    are not in [inactive_vertices]. *)
Definition compute_complement (active_vertices inactive_vertices : gset Z) : gset Z :=
  fold_left (fun complement v =>
               if decide (v ∈ inactive_vertices) then complement
               else {[v]} ∪ complement)
            (set_iter active_vertices) ∅.

(** The loop over the out-edges of a vertex in [compute_attractor]: the
    successors inside the active set are counted in [total_successors],
    those of them inside the attractor in [count]. *)
Definition count_successors (active_vertices attractor : gset Z) (acc : Z * Z) (target : Z)
  : Z * Z :=
  let '(count, total_successors) := acc in
  if decide (target ∈ active_vertices)
  then (if decide (target ∈ attractor) then count + 1 else count, total_successors + 1)
  else (count, total_successors).

(** The body of the loop over the active vertices: the accumulator is the
    attractor, the counter [attractions] and the flag [changed]. *)
Definition attract_step (g : Graph) (active_vertices : gset Z) (curr_player : Z)
    (acc : gset Z * Z * bool) (v : Z) : gset Z * Z * bool :=
  let '(attractor, attractions, changed) := acc in
  if decide (v ∈ attractor) then acc
  else
    let '(count, total_successors) :=
      fold_left (count_successors active_vertices attractor) (vout g v) (0, 0) in
    if (vplayer g v =? curr_player) && (0 <? count)
    then ({[v]} ∪ attractor, attractions + 1, true)
    else if negb (vplayer g v =? curr_player) && (count =? total_successors)
            && (0 <? total_successors)
    then ({[v]} ∪ attractor, attractions + 1, true)
    else acc.

(** [while (changed && attractor.size() < active_vertices.size())]: [None]
    when the fuel does not suffice. *)
Fixpoint attractor_loop (fuel : nat) (g : Graph) (active_vertices : gset Z)
    (curr_player : Z) (attractor : gset Z) (attractions : Z) (changed : bool)
  : option (gset Z * Z) :=
  if changed && (size attractor <? size active_vertices)%nat then
    match fuel with
    | O => None
    | S f =>
        let '(attractor1, attractions1, changed1) :=
          fold_left (attract_step g active_vertices curr_player)
                    (set_iter active_vertices) (attractor, attractions, false) in
        attractor_loop f g active_vertices curr_player attractor1 attractions1 changed1
    end
  else Some (attractor, attractions).

(** [compute_attractor]; the result is the attractor and the new value of
    the counter [attractions]. *)
Definition compute_attractor (fuel : nat) (g : Graph) (active_vertices : gset Z)
    (curr_player : Z) (curr_target : gset Z) (attractions : Z) : option (gset Z * Z) :=
  let attractor := curr_target ∩ active_vertices in
  if (size active_vertices <=? size attractor)%nat || (size attractor =? 0)%nat
  then Some (attractor, attractions)
  else attractor_loop fuel g active_vertices curr_player attractor attractions true.

(** [for (v : X) solution.set_winning_player(v, w)] *)
Definition set_winners (w : Z) (X : gset Z) (sol : Solution) : Solution :=
  fold_left (fun sol v => set_winning_player sol v w) (set_iter X) sol.

(** The loop that builds [new_active] from [current_active] and
    [p0_attractor]. *)
Definition new_active (current_active p0_attractor : gset Z) : gset Z :=
  fold_left (fun acc v => if decide (v ∈ p0_attractor) then acc else {[v]} ∪ acc)
            (set_iter current_active) ∅.

(** [while (!current_active.empty())]; the result is the solution and the
    counters [iterations] and [attractions]. *)
Fixpoint buechi_loop (fuel : nat) (g : Graph) (target_vertices current_active : gset Z)
    (sol : Solution) (iterations attractions : Z) : option (Solution * Z * Z) :=
  if (size current_active =? 0)%nat then Some (sol, iterations, attractions)
  else
    match fuel with
    | O => None
    | S f =>
        let iterations1 := iterations + 1 in
        match compute_attractor fuel g current_active 1 target_vertices attractions with
        | None => None
        | Some (p1_attractor, attractions1) =>
            let p0_target := compute_complement current_active p1_attractor in
            if (size p0_target =? 0)%nat
            then Some (set_winners 1 current_active sol, iterations1, attractions1)
            else
              match compute_attractor fuel g current_active 0 p0_target attractions1 with
              | None => None
              | Some (p0_attractor, attractions2) =>
                  buechi_loop f g target_vertices (new_active current_active p0_attractor)
                              (set_winners 0 p0_attractor sol) iterations1 attractions2
              end
        end
    end.

(** The first out-edge target that the solution gives to player [w]. *)
Fixpoint first_won_by (sol : Solution) (w : Z) (es : list Z) : option Z :=
  match es with
  | [] => None
  | target :: rest =>
      if get_winning_player sol target =? w then Some target
      else first_won_by sol w rest
  end.

(** The strategy choice at a vertex that its owner [w] wins: the first
    successor won by [w], else the first successor. *)
Definition choose_successor (g : Graph) (sol : Solution) (w : Z) (strategy : gmap Z Z)
    (v : Z) : gmap Z Z :=
  let strategy1 :=
    match first_won_by sol w (vout g v) with
    | Some target => <[v := target]> strategy
    | None => strategy
    end in
  match strategy1 !! v, vout g v with
  | None, first :: _ => <[v := first]> strategy1
  | _, _ => strategy1
  end.

Definition strategy_step (g : Graph) (sol : Solution) (strategy : gmap Z Z) (v : Z)
  : gmap Z Z :=
  if (get_winning_player sol v =? 0) && (vplayer g v =? 0)
  then choose_successor g sol 0 strategy v
  else if (get_winning_player sol v =? 1) && (vplayer g v =? 1)
  then choose_successor g sol 1 strategy v
  else strategy.

(** [for (const auto &[from, to] : strategy) solution.set_strategy(from, to)] *)
Definition copy_strategy (strategy : gmap Z Z) (sol : Solution) : Solution :=
  fold_left (fun sol e => set_solution_strategy sol e.1 e.2) (map_iter strategy) sol.

(** [AttractorSolver::solve], on a solver object whose counters hold
    [iterations] and [attractions]. *)
Definition buechi_solve (fuel : nat) (g : Graph) (target_vertices : gset Z)
    (iterations attractions : Z) : option (Solution * Z * Z) :=
  if negb (validate_buchi_game g) then Some (empty_solution, iterations, attractions)
  else if num_vertices g =? 0 then Some (empty_solution, iterations, attractions)
  else
    match buechi_loop fuel g target_vertices (list_to_set (nodes g)) empty_solution 0 0 with
    | None => None
    | Some (sol, iterations1, attractions1) =>
        let strategy := fold_left (strategy_step g sol) (nodes g) ∅ in
        Some (copy_strategy strategy sol, iterations1, attractions1)
    end.

(** ** Iteration over sets and maps *)

Lemma In_set_iter (X : gset Z) (v : Z) : In v (set_iter X) <-> v ∈ X.
Proof.
  unfold set_iter. rewrite <- list_elem_of_In, merge_sort_Permutation.
  apply elem_of_elements.
Qed.

Lemma NoDup_set_iter (X : gset Z) : NoDup (set_iter X).
Proof. unfold set_iter. rewrite merge_sort_Permutation. apply NoDup_elements. Qed.

Lemma fold_collect (B : gset Z) (l : list Z) : forall (c : gset Z) (x : Z),
  x ∈ fold_left (fun acc v => if decide (v ∈ B) then acc else {[v]} ∪ acc) l c
  <-> x ∈ c \/ (In x l /\ x ∉ B).
Proof.
  induction l as [|a l IH]; intros c x; cbn [fold_left].
  - split; [by left|]. intros [H|[[] _]]. done.
  - rewrite IH. destruct (decide (a ∈ B)) as [Ha|Ha].
    + split.
      * intros [H|[H1 H2]]; [by left|]. right. split; [by right|done].
      * intros [H|[[->|H1] H2]]; [by left|done|]. right. done.
    + rewrite elem_of_union, elem_of_singleton. split.
      * intros [[->|H]|[H1 H2]]; [right; split; [by left|done]|by left|].
        right. split; [by right|done].
      * intros [H|[[->|H1] H2]]; [left; by right|left; by left|]. right. done.
Qed.

Lemma compute_complement_spec (active inactive : gset Z) :
  compute_complement active inactive = active ∖ inactive.
Proof.
  apply set_eq. intros x. unfold compute_complement.
  rewrite fold_collect, In_set_iter, elem_of_difference, elem_of_empty. tauto.
Qed.

Lemma new_active_spec (active p0 : gset Z) : new_active active p0 = active ∖ p0.
Proof.
  apply set_eq. intros x. unfold new_active.
  rewrite fold_collect, In_set_iter, elem_of_difference, elem_of_empty. tauto.
Qed.

(** ** The attractor that [compute_attractor] returns *)

(** The test that decides whether the loop body inserts a vertex. *)
Definition attractable (g : Graph) (active attractor : gset Z) (curr_player v : Z) : bool :=
  let '(count, total_successors) :=
    fold_left (count_successors active attractor) (vout g v) (0, 0) in
  ((vplayer g v =? curr_player) && (0 <? count))
  || (negb (vplayer g v =? curr_player) && (count =? total_successors)
      && (0 <? total_successors)).

(** The attractor of a target set for a player inside the subgame of the
    active vertices, as an inductive set: a vertex of the player with an
    active successor in the set, or a vertex of the opponent that has active
    successors, all of them in the set. *)
Inductive attracted (g : Graph) (active : gset Z) (p : Z) (target : gset Z) : Z -> Prop :=
| attracted_target v :
    v ∈ target -> v ∈ active -> attracted g active p target v
| attracted_own v t :
    v ∈ active -> vplayer g v = p -> In t (vout g v) -> t ∈ active ->
    attracted g active p target t -> attracted g active p target v
| attracted_opp v :
    v ∈ active -> vplayer g v <> p ->
    (exists t, In t (vout g v) /\ t ∈ active) ->
    (forall t, In t (vout g v) -> t ∈ active -> attracted g active p target t) ->
    attracted g active p target v.

Lemma attract_step_unfold (g : Graph) (active : gset Z) (p : Z) (A : gset Z) (n : Z)
    (c : bool) (v : Z) :
  attract_step g active p (A, n, c) v =
  if decide (v ∈ A) then (A, n, c)
  else if attractable g active A p v then ({[v]} ∪ A, n + 1, true) else (A, n, c).
Proof.
  unfold attract_step, attractable. destruct (decide (v ∈ A)); [done|].
  destruct (fold_left _ _ _) as [count total].
  destruct ((vplayer g v =? p) && (0 <? count)); [done|]. simpl.
  by destruct (negb _ && _ && _).
Qed.

Lemma count_successors_spec (active A : gset Z) (es : list Z) : forall c t : Z,
  let r := fold_left (count_successors active A) es (c, t) in
  c <= r.1 /\ r.1 - c <= r.2 - t
  /\ (r.1 = c -> forall x, In x es -> x ∈ active -> x ∉ A)
  /\ (c < r.1 -> exists x, In x es /\ x ∈ active /\ x ∈ A)
  /\ (r.2 = t -> forall x, In x es -> x ∉ active)
  /\ (t < r.2 -> exists x, In x es /\ x ∈ active)
  /\ (r.1 - c = r.2 - t -> forall x, In x es -> x ∈ active -> x ∈ A)
  /\ (r.1 - c < r.2 - t -> exists x, In x es /\ x ∈ active /\ x ∉ A).
Proof.
  induction es as [|a es IH]; intros c t; cbn [fold_left].
  - simpl. repeat apply conj; try lia; by intros _ x [].
  - destruct (count_successors active A (c, t) a) as [c1 t1] eqn:Hs.
    unfold count_successors in Hs.
    specialize (IH c1 t1). cbv zeta in IH |- *.
    destruct (fold_left _ es _) as [c' t']. simpl in *.
    destruct IH as (I1 & I2 & I3 & I4 & I5 & I6 & I7 & I8).
    case_decide as Ha; [case_decide as Hb|]; injection Hs as <- <-;
      repeat apply conj; try lia.
    + intros _. exists a. auto.
    + intros _. exists a. auto.
    + intros E x [<-|Hx] Hact; [done|]. apply I7; [lia|done..].
    + intros E. destruct I8 as (x & Hx & ?); [lia|]. exists x. auto.
    + intros E x [<-|Hx] Hact; [done|]. by apply I3.
    + intros E. destruct I4 as (x & Hx & ?); [lia|]. exists x. tauto.
    + intros _. exists a. auto.
    + intros _. exists a. auto.
    + intros E x [<-|Hx] Hact; [done|]. by apply I3.
    + intros E. destruct I4 as (x & Hx & ?); [lia|]. exists x. tauto.
    + intros E x [<-|Hx]; [done|]. by apply I5.
    + intros E. destruct I6 as (x & Hx & ?); [lia|]. exists x. auto.
    + intros E x [<-|Hx] Hact; [done|]. by apply I7.
    + intros E. destruct I8 as (x & Hx & ?); [lia|]. exists x. tauto.
Qed.

Lemma attractable_true (g : Graph) (active A : gset Z) (p v : Z) :
  attractable g active A p v = true ->
  (vplayer g v = p /\ exists t, In t (vout g v) /\ t ∈ active /\ t ∈ A)
  \/ (vplayer g v <> p /\ (exists t, In t (vout g v) /\ t ∈ active)
      /\ forall t, In t (vout g v) -> t ∈ active -> t ∈ A).
Proof.
  unfold attractable.
  pose proof (count_successors_spec active A (vout g v) 0 0) as S. cbv zeta in S.
  destruct (fold_left _ _ _) as [c t]. simpl in S.
  destruct S as (I1 & I2 & I3 & I4 & I5 & I6 & I7 & I8).
  destruct (Z.eqb_spec (vplayer g v) p) as [E|E]; simpl.
  - rewrite orb_false_r. intros H. left. split; [done|]. apply I4. lia.
  - intros H. right. split; [done|]. split; [apply I6; lia|apply I7; lia].
Qed.

Lemma attractable_false (g : Graph) (active A : gset Z) (p v : Z) :
  attractable g active A p v = false ->
  (vplayer g v = p -> forall t, In t (vout g v) -> t ∈ active -> t ∉ A)
  /\ (vplayer g v <> p ->
      (forall t, In t (vout g v) -> t ∉ active)
      \/ exists t, In t (vout g v) /\ t ∈ active /\ t ∉ A).
Proof.
  unfold attractable.
  pose proof (count_successors_spec active A (vout g v) 0 0) as S. cbv zeta in S.
  destruct (fold_left _ _ _) as [c t]. simpl in S.
  destruct S as (I1 & I2 & I3 & I4 & I5 & I6 & I7 & I8).
  destruct (Z.eqb_spec (vplayer g v) p) as [E|E]; simpl.
  - rewrite orb_false_r. intros H. split; [|done]. intros _. apply I3. lia.
  - intros H. split; [done|]. intros _.
    destruct (Z.eqb_spec c t) as [Ect|Ect].
    + left. apply I5. lia.
    + right. apply I8. lia.
Qed.

(** No vertex outside the set would be inserted by the loop body. *)
Definition attractor_closed (g : Graph) (active : gset Z) (p : Z) (A : gset Z) : Prop :=
  forall v, v ∈ active -> v ∉ A -> attractable g active A p v = false.

Lemma size_insert_new (A : gset Z) (v : Z) : v ∉ A -> size ({[v]} ∪ A) = S (size A).
Proof.
  intros H. rewrite size_union by by apply disjoint_singleton_l.
  by rewrite size_singleton.
Qed.

Lemma attract_pass (g : Graph) (active : gset Z) (p : Z) (target : gset Z) (l : list Z) :
  forall (A : gset Z) (n : Z) (c : bool),
  (forall v, In v l -> v ∈ active) -> A ⊆ active ->
  (forall v, v ∈ A -> attracted g active p target v) ->
  exists A' n' c',
    fold_left (attract_step g active p) l (A, n, c) = (A', n', c')
    /\ A ⊆ A' /\ A' ⊆ active
    /\ n' = n + Z.of_nat (size A') - Z.of_nat (size A)
    /\ (c' = false -> c = false /\ A' = A
                      /\ forall v, In v l -> v ∉ A -> attractable g active A p v = false)
    /\ (c' = true -> c = true \/ (size A < size A')%nat)
    /\ (forall v, v ∈ A' -> attracted g active p target v).
Proof.
  induction l as [|a l IH]; intros A n c Hl HA Hatt; cbn [fold_left].
  - exists A, n, c. split; [done|]. split; [done|]. split; [done|].
    split; [lia|]. split; [|split; [by left|done]].
    intros ->. split; [done|]. split; [done|]. by intros v [].
  - rewrite attract_step_unfold.
    assert (Hl' : forall v, In v l -> v ∈ active) by (intros v Hv; apply Hl; by right).
    destruct (decide (a ∈ A)) as [Ha|Ha].
    { destruct (IH A n c Hl' HA Hatt) as (A' & n' & c' & E & H1 & H2 & H3 & H4 & H5 & H6).
      exists A', n', c'. split; [done|]. split; [done|]. split; [done|].
      split; [done|]. split; [|done].
      intros Hc. destruct (H4 Hc) as (K1 & K2 & K3). split; [done|]. split; [done|].
      intros v [<-|Hv] Hn; [done|]. by apply K3. }
    destruct (attractable g active A p a) eqn:Eat.
    + assert (HA1 : {[a]} ∪ A ⊆ active).
      { apply union_subseteq. split; [|done]. apply singleton_subseteq_l, Hl. by left. }
      assert (Hatt1 : forall v, v ∈ {[a]} ∪ A -> attracted g active p target v).
      { intros v Hv. apply elem_of_union in Hv as [Hv|Hv]; [|by apply Hatt].
        apply elem_of_singleton in Hv as ->.
        assert (Haa : a ∈ active) by (apply Hl; by left).
        destruct (attractable_true _ _ _ _ _ Eat) as [(Ep & t & Ht & Hta & HtA)
                                                      |(Ep & Hex & Hall)].
        - apply (attracted_own g active p target a t); auto.
        - apply attracted_opp; auto. }
      destruct (IH ({[a]} ∪ A) (n + 1) true Hl' HA1 Hatt1)
        as (A' & n' & c' & E & H1 & H2 & H3 & H4 & H5 & H6).
      exists A', n', c'. split; [done|].
      pose proof (size_insert_new A a Ha) as Hsz.
      pose proof (subseteq_size _ _ H1) as Hle.
      split; [by intros x Hx; apply H1, elem_of_union; right|].
      split; [done|]. split; [lia|]. split; [|split; [|done]].
      * intros Hc. by destruct (H4 Hc) as (K1 & _).
      * intros _. right. lia.
    + destruct (IH A n c Hl' HA Hatt) as (A' & n' & c' & E & H1 & H2 & H3 & H4 & H5 & H6).
      exists A', n', c'. split; [done|]. split; [done|]. split; [done|].
      split; [done|]. split; [|done].
      intros Hc. destruct (H4 Hc) as (K1 & K2 & K3). split; [done|]. split; [done|].
      intros v [<-|Hv] Hn; [done|]. by apply K3.
Qed.

Lemma attractor_loop_spec (g : Graph) (active : gset Z) (p : Z) (target : gset Z)
    (fuel : nat) : forall (A : gset Z) (n : Z) (c : bool),
  A ⊆ active -> (c = true -> (size active - size A <= fuel)%nat) ->
  (forall v, v ∈ A -> attracted g active p target v) ->
  (c = false -> attractor_closed g active p A) ->
  exists A' n',
    attractor_loop fuel g active p A n c = Some (A', n')
    /\ A ⊆ A' /\ A' ⊆ active
    /\ n' = n + Z.of_nat (size A') - Z.of_nat (size A)
    /\ (forall v, v ∈ A' -> attracted g active p target v)
    /\ attractor_closed g active p A'.
Proof.
  assert (Hexit : forall (A : gset Z) (n : Z) (c : bool),
    A ⊆ active -> (forall v, v ∈ A -> attracted g active p target v) ->
    (c = false -> attractor_closed g active p A) ->
    c && (size A <? size active)%nat = false ->
    exists A' n',
      Some (A, n) = Some (A', n') /\ A ⊆ A' /\ A' ⊆ active
      /\ n' = n + Z.of_nat (size A') - Z.of_nat (size A)
      /\ (forall v, v ∈ A' -> attracted g active p target v)
      /\ attractor_closed g active p A').
  { intros A n c HA Hatt Hcl Hc. exists A, n.
    split; [done|]. split; [done|]. split; [done|]. split; [lia|]. split; [done|].
    destruct c; [|by apply Hcl]. simpl in Hc. apply Nat.ltb_ge in Hc.
    assert (A = active) as -> by by apply set_subseteq_size_eq.
    by intros v Hv Hn. }
  induction fuel as [|f IH]; intros A n c HA Hf Hatt Hcl; simpl.
  - destruct (c && (size A <? size active)%nat) eqn:Hc; [|by apply (Hexit _ _ c)].
    apply andb_prop in Hc as [-> Hs]. apply Nat.ltb_lt in Hs.
    specialize (Hf eq_refl). lia.
  - destruct (c && (size A <? size active)%nat) eqn:Hc; [|by apply (Hexit _ _ c)].
    apply andb_prop in Hc as [-> Hs]. apply Nat.ltb_lt in Hs. specialize (Hf eq_refl).
    destruct (attract_pass g active p target (set_iter active) A n false
                ltac:(intros v Hv; by apply In_set_iter) HA Hatt)
      as (A1 & n1 & c1 & E & H1 & H2 & H3 & H4 & H5 & H6).
    rewrite E.
    destruct (IH A1 n1 c1 H2) as (A' & n' & E' & K1 & K2 & K3 & K4 & K5).
    + intros ->. destruct (H5 eq_refl) as [?|Hlt]; [done|]. lia.
    + done.
    + intros ->. destruct (H4 eq_refl) as (_ & -> & Hno).
      intros v Hv Hn. apply Hno; [by apply In_set_iter|done].
    + exists A', n'. split; [done|]. pose proof (subseteq_size _ _ H1).
      split; [by transitivity A1|]. split; [done|]. split; [lia|]. done.
Qed.

Lemma attractor_closed_complete (g : Graph) (active : gset Z) (p : Z) (target A : gset Z) :
  target ∩ active ⊆ A -> attractor_closed g active p A ->
  forall v, attracted g active p target v -> v ∈ A.
Proof.
  intros Ht Hcl v Hv. induction Hv as [v H1 H2|v t H1 H2 H3 H4 _ IH|v H1 H2 H3 _ IH].
  - apply Ht. by apply elem_of_intersection.
  - destruct (decide (v ∈ A)) as [|Hn]; [done|].
    destruct (attractable_false _ _ _ _ _ (Hcl v H1 Hn)) as [K _].
    by destruct (K H2 t H3 H4).
  - destruct (decide (v ∈ A)) as [|Hn]; [done|].
    destruct (attractable_false _ _ _ _ _ (Hcl v H1 Hn)) as [_ K].
    destruct (K H2) as [K1|(t & K1 & K2 & K3)].
    + destruct H3 as (t & Ht1 & Ht2). by destruct (K1 t Ht1).
    + by destruct K3; apply IH.
Qed.

Lemma attracted_active (g : Graph) (active : gset Z) (p : Z) (target : gset Z) (v : Z) :
  attracted g active p target v -> v ∈ active.
Proof. by intros []. Qed.

Lemma attracted_nonempty (g : Graph) (active : gset Z) (p : Z) (target : gset Z) (v : Z) :
  attracted g active p target v -> exists t, t ∈ target ∩ active.
Proof.
  induction 1 as [v H1 H2|v t H1 H2 H3 H4 _ IH|v H1 H2 (t & H3 & H4) _ IH].
  - exists v. by apply elem_of_intersection.
  - done.
  - by apply (IH t).
Qed.

(** The full statement about [compute_attractor], shared by the theorems
    below. *)
Lemma compute_attractor_spec (fuel : nat) (g : Graph) (active : gset Z) (p : Z)
    (target : gset Z) (n : Z) :
  (size active <= fuel)%nat ->
  exists A n',
    compute_attractor fuel g active p target n = Some (A, n')
    /\ target ∩ active ⊆ A /\ A ⊆ active
    /\ n' = n + Z.of_nat (size A) - Z.of_nat (size (target ∩ active))
    /\ (forall v, v ∈ A <-> attracted g active p target v).
Proof.
  intros Hf. unfold compute_attractor.
  assert (H0 : target ∩ active ⊆ active) by apply intersection_subseteq_r.
  assert (Hbase : forall v, v ∈ target ∩ active -> attracted g active p target v).
  { intros v Hv. apply elem_of_intersection in Hv as [? ?]. by apply attracted_target. }
  destruct ((size active <=? size (target ∩ active))%nat
            || (size (target ∩ active) =? 0)%nat) eqn:Hc.
  - exists (target ∩ active), n. split; [done|]. split; [done|]. split; [done|].
    split; [lia|]. intros v. split; [by apply Hbase|]. intros Hv.
    apply orb_prop in Hc as [Hc|Hc].
    + apply Nat.leb_le in Hc.
      assert (target ∩ active = active) as -> by by apply set_subseteq_size_eq.
      by apply (attracted_active g active p target).
    + apply Nat.eqb_eq in Hc. apply size_empty_inv in Hc.
      destruct (attracted_nonempty _ _ _ _ _ Hv) as (t & Ht).
      apply Hc in Ht. by apply elem_of_empty in Ht.
  - destruct (attractor_loop_spec g active p target fuel (target ∩ active) n true H0)
      as (A & n' & E & K1 & K2 & K3 & K4 & K5); [lia|done|done|].
    exists A, n'. split; [done|]. split; [done|]. split; [done|]. split; [done|].
    intros v. split; [by apply K4|]. by apply attractor_closed_complete.
Qed.

Lemma attractor_loop_fuel_mono (g : Graph) (active : gset Z) (p : Z) (k fuel : nat) :
  forall (A : gset Z) (n : Z) (c : bool) (r : gset Z * Z),
  attractor_loop fuel g active p A n c = Some r ->
  attractor_loop (fuel + k) g active p A n c = Some r.
Proof.
  induction fuel as [|f IH]; intros A n c r; simpl.
  - destruct (c && (size A <? size active)%nat) eqn:Hc; [done|].
    intros <-. destruct k; simpl; by rewrite Hc.
  - destruct (c && (size A <? size active)%nat); [|done].
    destruct (fold_left _ _ _) as [[A1 n1] c1]. apply IH.
Qed.

Lemma compute_attractor_fuel_mono (g : Graph) (active : gset Z) (p : Z) (target : gset Z)
    (n : Z) (k fuel : nat) (r : gset Z * Z) :
  compute_attractor fuel g active p target n = Some r ->
  compute_attractor (fuel + k) g active p target n = Some r.
Proof.
  unfold compute_attractor. destruct (_ || _); [done|]. apply attractor_loop_fuel_mono.
Qed.

Definition g_buechi : Graph :=
  [mkVertex 0 1 [1]; mkVertex 1 0 [0; 2]; mkVertex 0 0 [2]].

(** With enough fuel [compute_attractor] returns; the result lies between
    the active part of the target and the active set, and the counter
    [attractions] grows by the number of vertices that were added. *)
Theorem compute_attractor_returns (fuel : nat) (g : Graph) (active : gset Z) (p : Z)
    (target : gset Z) (n : Z) :
  (size active <= fuel)%nat ->
  exists A n',
    compute_attractor fuel g active p target n = Some (A, n')
    /\ target ∩ active ⊆ A /\ A ⊆ active
    /\ n' = n + Z.of_nat (size A) - Z.of_nat (size (target ∩ active)).
Proof.
  intros Hf.
  destruct (compute_attractor_spec fuel g active p target n Hf)
    as (A & n' & E & H1 & H2 & H3 & _).
  by exists A, n'.
Qed.

Lemma compute_attractor_returns_witness :
  exists A n',
    compute_attractor 3 g_buechi {[0; 1; 2]} 0 {[0]} 5 = Some (A, n')
    /\ ({[0]} : gset Z) ∩ {[0; 1; 2]} ⊆ A /\ A ⊆ {[0; 1; 2]}
    /\ n' = 5 + Z.of_nat (size A) - Z.of_nat (size (({[0]} : gset Z) ∩ {[0; 1; 2]})).
Proof.
  apply (compute_attractor_returns 3 g_buechi {[0; 1; 2]} 0 {[0]} 5).
  vm_compute. lia.
Defined.

(** What [compute_attractor] returns is exactly the attractor of the target
    for the player inside the active subgame. *)
Theorem compute_attractor_is_attractor (fuel : nat) (g : Graph) (active : gset Z) (p : Z)
    (target : gset Z) (n : Z) (A : gset Z) (n' : Z) :
  compute_attractor fuel g active p target n = Some (A, n') ->
  forall v, v ∈ A <-> attracted g active p target v.
Proof.
  intros E.
  destruct (compute_attractor_spec (fuel + size active) g active p target n ltac:(lia))
    as (A2 & n2 & E2 & _ & _ & _ & H).
  rewrite (compute_attractor_fuel_mono _ _ _ _ _ _ _ _ E) in E2.
  by injection E2 as <- <-.
Qed.

Lemma compute_attractor_is_attractor_witness :
  1 ∈ ({[0; 1]} : gset Z) <-> attracted g_buechi {[0; 1; 2]} 1 {[0]} 1.
Proof.
  assert (E : compute_attractor 3 g_buechi {[0; 1; 2]} 1 {[0]} 5 = Some ({[0; 1]}, 6))
    by (vm_compute; reflexivity).
  exact (compute_attractor_is_attractor 3 g_buechi {[0; 1; 2]} 1 {[0]} 5 {[0; 1]} 6 E 1).
Defined.

(** ** The main loop of the Buechi solver *)

Lemma set_winners_fold (w : Z) (l : list Z) : forall (sol : Solution) (v : Z),
  let sol' := fold_left (fun sol v => set_winning_player sol v w) l sol in
  strategy_ sol' = strategy_ sol
  /\ (In v l -> winning_regions_ sol' !! v = Some w)
  /\ (~ In v l -> winning_regions_ sol' !! v = winning_regions_ sol !! v).
Proof.
  induction l as [|a l IH]; intros sol v; cbn [fold_left]; cbv zeta.
  - split; [done|]. split; [by intros []|done].
  - destruct (IH (set_winning_player sol a w) v) as (I1 & I2 & I3).
    split; [by rewrite I1|]. split.
    + intros [<-|H]; [|by apply I2].
      destruct (In_dec Z.eq_dec a l) as [H|H]; [by apply I2|].
      rewrite I3 by done. apply lookup_insert_eq.
    + intros H. rewrite I3 by (intros ?; apply H; by right).
      apply lookup_insert_ne. intros ->. apply H. by left.
Qed.

Lemma set_winners_spec (w : Z) (X : gset Z) (sol : Solution) (v : Z) :
  strategy_ (set_winners w X sol) = strategy_ sol
  /\ winning_regions_ (set_winners w X sol) !! v
     = if decide (v ∈ X) then Some w else winning_regions_ sol !! v.
Proof.
  destruct (set_winners_fold w (set_iter X) sol v) as (H1 & H2 & H3).
  split; [done|]. unfold set_winners.
  destruct (decide (v ∈ X)) as [H|H].
  - apply H2. by apply In_set_iter.
  - apply H3. by rewrite In_set_iter.
Qed.

(** Before an iteration: no strategy entry, the vertices that left the
    active set are won by player 0, nothing is recorded outside the graph. *)
Definition undecided_ok (V active : gset Z) (sol : Solution) : Prop :=
  strategy_ sol = ∅
  /\ (forall v, v ∈ V -> v ∉ active -> winning_regions_ sol !! v = Some 0)
  /\ (forall v, v ∉ V -> winning_regions_ sol !! v = None).

(** After the loop: the vertices split into the region [W1] of player 1 and
    the rest, won by player 0; inside [W1] player 1 attracts every vertex to
    the target. *)
Definition regions_ok (g : Graph) (target V : gset Z) (sol : Solution) : Prop :=
  strategy_ sol = ∅
  /\ exists W1 : gset Z,
       W1 ⊆ V
       /\ (forall v, v ∈ W1 -> winning_regions_ sol !! v = Some 1)
       /\ (forall v, v ∈ V -> v ∉ W1 -> winning_regions_ sol !! v = Some 0)
       /\ (forall v, v ∉ V -> winning_regions_ sol !! v = None)
       /\ (forall v, v ∈ W1 -> attracted g W1 1 target v).

Lemma buechi_loop_spec (g : Graph) (target V : gset Z) (fuel : nat) :
  forall (active : gset Z) (sol : Solution) (its attrs : Z),
  active ⊆ V -> (size active <= fuel)%nat -> undecided_ok V active sol ->
  exists sol' its' attrs',
    buechi_loop fuel g target active sol its attrs = Some (sol', its', attrs')
    /\ regions_ok g target V sol'
    /\ its <= its' <= its + Z.of_nat (size active)
    /\ ((0 < size active)%nat -> its < its')
    /\ attrs <= attrs'.
Proof.
  assert (Hexit : forall (active : gset Z) (sol : Solution) (its attrs : Z),
    undecided_ok V active sol -> size active = 0%nat ->
    exists sol' its' attrs',
      Some (sol, its, attrs) = Some (sol', its', attrs')
      /\ regions_ok g target V sol'
      /\ its <= its' <= its + Z.of_nat (size active)
      /\ ((0 < size active)%nat -> its < its')
      /\ attrs <= attrs').
  { intros active sol its attrs (U1 & U2 & U3) Hs. exists sol, its, attrs.
    split; [done|]. split; [|lia]. split; [done|].
    apply size_empty_inv in Hs.
    exists ∅. split; [apply empty_subseteq|]. split; [by intros v Hv%elem_of_empty|].
    split; [|split; [done|by intros v Hv%elem_of_empty]].
    intros v Hv _. apply U2; [done|]. intros Hn. apply Hs in Hn.
    by apply elem_of_empty in Hn. }
  induction fuel as [|f IH]; intros active sol its attrs HV Hf Hu; cbn [buechi_loop].
  { destruct (Nat.eqb_spec (size active) 0) as [Hs|Hs]; [by apply Hexit|lia]. }
  destruct (Nat.eqb_spec (size active) 0) as [Hs|Hs]; [by apply Hexit|].
  destruct (compute_attractor_spec (S f) g active 1 target attrs Hf)
    as (p1 & a1 & E1 & P1 & P2 & P3 & P4).
  rewrite E1, compute_complement_spec.
  pose proof (subseteq_size _ _ P1) as Hp1.
  destruct Hu as (U1 & U2 & U3).
  destruct (Nat.eqb_spec (size (active ∖ p1)) 0) as [Hc|Hc].
  - exists (set_winners 1 active sol), (its + 1), a1.
    split; [done|]. split; [|lia].
    apply size_empty_inv in Hc.
    assert (Hall : forall v, v ∈ active -> v ∈ p1).
    { intros v Hv. destruct (decide (v ∈ p1)) as [|Hn]; [done|].
      assert (Hd : v ∈ active ∖ p1) by by apply elem_of_difference.
      apply Hc in Hd. by apply elem_of_empty in Hd. }
    split; [by rewrite (proj1 (set_winners_spec 1 active sol 0))|].
    exists active. split; [done|]. split; [|split; [|split]].
    + intros v Hv. rewrite (proj2 (set_winners_spec 1 active sol v)).
      by rewrite decide_True.
    + intros v Hv Hn. rewrite (proj2 (set_winners_spec 1 active sol v)).
      rewrite decide_False by done. by apply U2.
    + intros v Hv. rewrite (proj2 (set_winners_spec 1 active sol v)).
      rewrite decide_False by (intros Ha; by apply Hv, HV). by apply U3.
    + intros v Hv. by apply P4, Hall.
  - destruct (compute_attractor_spec (S f) g active 0 (active ∖ p1) a1 Hf)
      as (p0 & a2 & E2 & Q1 & Q2 & Q3 & Q4).
    rewrite E2, new_active_spec.
    pose proof (subseteq_size _ _ Q1) as Hp0.
    assert (Hpos : (0 < size p0)%nat).
    { destruct (size_pos_elem_of (active ∖ p1)) as (x & Hx); [lia|].
      assert (Hx0 : x ∈ p0).
      { apply Q1, elem_of_intersection. split; [done|].
        by apply elem_of_difference in Hx as [? _]. }
      destruct (Nat.eq_dec (size p0) 0%nat) as [Hz|Hz]; [|lia].
      apply size_empty_inv in Hz. apply Hz in Hx0. by apply elem_of_empty in Hx0. }
    pose proof (size_difference active p0 Q2) as Hsz.
    pose proof (subseteq_size _ _ Q2) as Hle.
    destruct (IH (active ∖ p0) (set_winners 0 p0 sol) (its + 1) a2)
      as (sol' & its' & attrs' & E & R & I1 & I2 & I3).
    + intros v Hv. apply elem_of_difference in Hv as [Hv _]. by apply HV.
    + lia.
    + split; [by rewrite (proj1 (set_winners_spec 0 p0 sol 0))|]. split.
      * intros v Hv Hn. rewrite (proj2 (set_winners_spec 0 p0 sol v)).
        destruct (decide (v ∈ p0)) as [|Hn0]; [done|]. apply U2; [done|].
        intros Ha. apply Hn. by apply elem_of_difference.
      * intros v Hv. rewrite (proj2 (set_winners_spec 0 p0 sol v)).
        rewrite decide_False by (intros Ha; by apply Hv, HV, Q2). by apply U3.
    + exists sol', its', attrs'. split; [done|]. split; [done|]. lia.
Qed.

Lemma buechi_loop_fuel_mono (g : Graph) (target : gset Z) (k fuel : nat) :
  forall (active : gset Z) (sol : Solution) (its attrs : Z) (r : Solution * Z * Z),
  buechi_loop fuel g target active sol its attrs = Some r ->
  buechi_loop (fuel + k) g target active sol its attrs = Some r.
Proof.
  induction fuel as [|f IH]; intros active sol its attrs r; cbn [buechi_loop Nat.add].
  - destruct (size active =? 0)%nat eqn:Hs; [|done].
    intros <-. destruct k; cbn [buechi_loop]; by rewrite Hs.
  - destruct (size active =? 0)%nat; [done|].
    destruct (compute_attractor (S f) g active 1 target attrs) as [[p1 a1]|] eqn:E1;
      [|done].
    change (S (f + k)) with (S f + k)%nat.
    rewrite (compute_attractor_fuel_mono _ _ _ _ _ k _ _ E1).
    destruct (size (compute_complement active p1) =? 0)%nat; [done|].
    destruct (compute_attractor (S f) g active 0 (compute_complement active p1) a1)
      as [[p0 a2]|] eqn:E2; [|done].
    rewrite (compute_attractor_fuel_mono _ _ _ _ _ k _ _ E2). apply IH.
Qed.

Lemma nodes_set_spec (g : Graph) (v : Z) :
  v ∈ (list_to_set (nodes g) : gset Z) <-> 0 <= v < num_vertices g.
Proof. unfold nodes. rewrite elem_of_list_to_set, elem_of_seqZ. lia. Qed.

Lemma nodes_set_size (g : Graph) :
  size (list_to_set (nodes g) : gset Z) = Z.to_nat (num_vertices g).
Proof.
  rewrite size_list_to_set by apply NoDup_seqZ. unfold nodes. by rewrite length_seqZ.
Qed.

Lemma undecided_ok_start (g : Graph) :
  undecided_ok (list_to_set (nodes g)) (list_to_set (nodes g)) empty_solution.
Proof. split; [done|]. split; [done|]. intros v _. apply lookup_empty. Qed.

(** What the loop of [solve] leaves, for every fuel it returns with. *)
Lemma buechi_loop_result (g : Graph) (target : gset Z) (fuel : nat) (sol : Solution)
    (its attrs : Z) :
  buechi_loop fuel g target (list_to_set (nodes g)) empty_solution 0 0
    = Some (sol, its, attrs) ->
  regions_ok g target (list_to_set (nodes g)) sol
  /\ 0 <= its <= num_vertices g /\ (0 < num_vertices g -> 0 < its) /\ 0 <= attrs.
Proof.
  intros E.
  destruct (buechi_loop_spec g target (list_to_set (nodes g))
              (fuel + size (list_to_set (nodes g) : gset Z))
              (list_to_set (nodes g)) empty_solution 0 0)
    as (sol' & its' & attrs' & E' & R & I1 & I2 & I3);
    [done|lia|apply undecided_ok_start|].
  rewrite (buechi_loop_fuel_mono _ _ _ _ _ _ _ _ _ E) in E'.
  injection E' as <- <- <-. rewrite nodes_set_size in I1, I2.
  split; [done|]. unfold num_vertices in *. lia.
Qed.

(** ** The strategy that the Buechi solver records *)

Lemma first_won_by_Some (sol : Solution) (w : Z) (es : list Z) (t : Z) :
  first_won_by sol w es = Some t -> In t es /\ get_winning_player sol t = w.
Proof.
  induction es as [|a es IH]; simpl; [done|].
  destruct (Z.eqb_spec (get_winning_player sol a) w) as [E|E].
  - intros [= <-]. split; [by left|done].
  - intros H. destruct (IH H) as [H1 H2]. split; [by right|done].
Qed.

Lemma first_won_by_None (sol : Solution) (w : Z) (es : list Z) :
  first_won_by sol w es = None -> forall u, In u es -> get_winning_player sol u <> w.
Proof.
  induction es as [|a es IH]; simpl; [by intros _ u []|].
  destruct (Z.eqb_spec (get_winning_player sol a) w) as [E|E]; [done|].
  intros H u [<-|Hu]; [done|by apply IH].
Qed.

(** The successor that the solver picks at a vertex won by its owner [w]. *)
Definition chosen (g : Graph) (sol : Solution) (w v : Z) : option Z :=
  match first_won_by sol w (vout g v) with
  | Some t => Some t
  | None => head (vout g v)
  end.

Definition strategy_at (g : Graph) (sol : Solution) (v : Z) : option Z :=
  if (get_winning_player sol v =? 0) && (vplayer g v =? 0) then chosen g sol 0 v
  else if (get_winning_player sol v =? 1) && (vplayer g v =? 1) then chosen g sol 1 v
  else None.

Lemma choose_successor_lookup (g : Graph) (sol : Solution) (w : Z) (st : gmap Z Z)
    (v u : Z) :
  st !! v = None ->
  choose_successor g sol w st v !! u
  = if decide (u = v) then chosen g sol w v else st !! u.
Proof.
  intros Hn. unfold choose_successor, chosen.
  destruct (first_won_by sol w (vout g v)) as [t|].
  - rewrite lookup_insert_eq. destruct (decide (u = v)) as [->|Hne].
    + apply lookup_insert_eq.
    + by apply lookup_insert_ne.
  - rewrite Hn. destruct (vout g v) as [|first rest]; simpl.
    + by destruct (decide (u = v)) as [->|].
    + destruct (decide (u = v)) as [->|Hne].
      * apply lookup_insert_eq.
      * by apply lookup_insert_ne.
Qed.

Lemma strategy_step_lookup (g : Graph) (sol : Solution) (st : gmap Z Z) (v u : Z) :
  st !! v = None ->
  strategy_step g sol st v !! u = if decide (u = v) then strategy_at g sol v else st !! u.
Proof.
  intros Hn. unfold strategy_step, strategy_at.
  destruct ((get_winning_player sol v =? 0) && (vplayer g v =? 0));
    [by apply choose_successor_lookup|].
  destruct ((get_winning_player sol v =? 1) && (vplayer g v =? 1));
    [by apply choose_successor_lookup|].
  by destruct (decide (u = v)) as [->|].
Qed.

Lemma strategy_fold_lookup (g : Graph) (sol : Solution) (l : list Z) :
  forall (st : gmap Z Z) (u : Z),
  NoDup l -> (forall v, In v l -> st !! v = None) ->
  (In u l -> fold_left (strategy_step g sol) l st !! u = strategy_at g sol u)
  /\ (~ In u l -> fold_left (strategy_step g sol) l st !! u = st !! u).
Proof.
  induction l as [|a l IH]; intros st u Hnd Hst; cbn [fold_left].
  - split; [by intros []|done].
  - apply NoDup_cons in Hnd as [Ha Hnd]. rewrite list_elem_of_In in Ha.
    assert (Hsa : st !! a = None) by (apply Hst; by left).
    destruct (IH (strategy_step g sol st a) u Hnd) as [I1 I2].
    { intros v Hv. rewrite strategy_step_lookup by done.
      destruct (decide (v = a)) as [->|]; [done|]. apply Hst. by right. }
    split.
    + intros [<-|Hu]; [|by apply I1].
      rewrite I2 by done. rewrite strategy_step_lookup by done. by rewrite decide_True.
    + intros Hu. rewrite I2 by (intros ?; apply Hu; by right).
      rewrite strategy_step_lookup by done.
      rewrite decide_False; [done|]. intros ->. apply Hu. by left.
Qed.

Lemma copy_strategy_fold (l : list (Z * Z)) : forall sol : Solution,
  NoDup (l.*1) ->
  let sol' := fold_left (fun sol e => set_solution_strategy sol e.1 e.2) l sol in
  winning_regions_ sol' = winning_regions_ sol
  /\ forall x y, strategy_ sol' !! x = Some y
                 <-> ((x, y) ∈ l \/ ((x ∉ l.*1) /\ strategy_ sol !! x = Some y)).
Proof.
  induction l as [|[k w] l IH]; intros sol Hnd; cbn [fold_left fst snd]; cbv zeta.
  - split; [done|]. intros x y. split.
    + intros H. right. split; [apply not_elem_of_nil|done].
    + intros [H|[_ H]]; [by apply elem_of_nil in H|done].
  - rewrite fmap_cons in Hnd. apply NoDup_cons in Hnd as [Hk Hnd].
    destruct (IH (set_solution_strategy sol k w) Hnd) as [I1 I2].
    split; [by rewrite I1|]. intros x y. rewrite I2. clear I1 I2.
    rewrite fmap_cons, elem_of_cons, not_elem_of_cons. cbn [fst snd].
    assert (Hl : forall y', (k, y') ∉ l).
    { intros y' Hin. apply Hk. apply list_elem_of_fmap. by exists (k, y'). }
    change (strategy_ (set_solution_strategy sol k w)) with (<[k := w]> (strategy_ sol)).
    destruct (decide (x = k)) as [->|Hne].
    + rewrite lookup_insert_eq. split.
      * intros [H|[_ [= ->]]]; [by destruct (Hl y)|]. left. by left.
      * intros [[[= ->]|H]|[[H _] _]]; [|by destruct (Hl y)|done].
        right. done.
    + rewrite lookup_insert_ne by done. split.
      * intros [H|[H1 H2]]; [left; by right|]. right. done.
      * intros [[[= ? _]|H]|[[_ H1] H2]]; [done|by left|]. right. done.
Qed.

Lemma map_iter_spec (m : gmap Z Z) :
  NoDup ((map_iter m).*1) /\ forall x y, (x, y) ∈ map_iter m <-> m !! x = Some y.
Proof.
  assert (P : map_iter m ≡ₚ map_to_list m) by apply merge_sort_Permutation.
  split.
  - rewrite P. apply NoDup_fst_map_to_list.
  - intros x y. rewrite P. apply elem_of_map_to_list.
Qed.

Lemma copy_strategy_spec (m : gmap Z Z) (sol : Solution) :
  strategy_ sol = ∅ ->
  winning_regions_ (copy_strategy m sol) = winning_regions_ sol
  /\ strategy_ (copy_strategy m sol) = m.
Proof.
  intros He. destruct (map_iter_spec m) as [Hnd Hin].
  destruct (copy_strategy_fold (map_iter m) sol Hnd) as [H1 H2].
  split; [done|]. apply map_eq. intros x. apply option_eq. intros y.
  unfold copy_strategy. rewrite H2, Hin, He, lookup_empty. split.
  - by intros [H|[_ H]].
  - by left.
Qed.

Lemma strategy_at_ext (g : Graph) (sol sol' : Solution) (v : Z) :
  winning_regions_ sol = winning_regions_ sol' ->
  strategy_at g sol v = strategy_at g sol' v.
Proof.
  intros E. unfold strategy_at, chosen, get_winning_player. rewrite E.
  assert (F : forall w es, first_won_by sol w es = first_won_by sol' w es).
  { intros w es. induction es as [|a es IH]; simpl; [done|].
    unfold get_winning_player. by rewrite E, IH. }
  by rewrite !F.
Qed.

(** What a run of [solve] on a valid, non-empty game leaves. *)
Lemma buechi_solve_result (fuel : nat) (g : Graph) (target : gset Z) (i a : Z)
    (sol : Solution) (its attrs : Z) :
  validate_buchi_game g = true -> 0 < num_vertices g ->
  buechi_solve fuel g target i a = Some (sol, its, attrs) ->
  (exists sol0, regions_ok g target (list_to_set (nodes g)) sol0
                /\ winning_regions_ sol = winning_regions_ sol0)
  /\ (forall u, strategy_ sol !! u
                = if (0 <=? u) && (u <? num_vertices g) then strategy_at g sol u else None)
  /\ 0 < its <= num_vertices g /\ 0 <= attrs.
Proof.
  intros Hv Hn. unfold buechi_solve. rewrite Hv. cbn [negb].
  destruct (Z.eqb_spec (num_vertices g) 0) as [|_]; [lia|].
  destruct (buechi_loop fuel g target (list_to_set (nodes g)) empty_solution 0 0)
    as [[[sol0 its0] attrs0]|] eqn:E; [|done].
  intros [= <- <- <-].
  destruct (buechi_loop_result g target fuel sol0 its0 attrs0 E) as (R & I1 & I2 & I3).
  destruct (copy_strategy_spec (fold_left (strategy_step g sol0) (nodes g) ∅) sol0
              (proj1 R)) as [C1 C2].
  split; [by exists sol0|]. split; [|lia].
  intros u. rewrite C2. rewrite (strategy_at_ext g _ sol0 u C1).
  destruct (strategy_fold_lookup g sol0 (nodes g) ∅ u) as [F1 F2].
  { apply NoDup_seqZ. }
  { intros v _. apply lookup_empty. }
  destruct (Z.leb_spec 0 u), (Z.ltb_spec u (num_vertices g)); cbn [andb].
  - apply F1. apply list_elem_of_In, elem_of_seqZ. lia.
  - rewrite F2; [apply lookup_empty|].
    intros Hin%list_elem_of_In%elem_of_seqZ. lia.
  - rewrite F2; [apply lookup_empty|].
    intros Hin%list_elem_of_In%elem_of_seqZ. lia.
  - rewrite F2; [apply lookup_empty|].
    intros Hin%list_elem_of_In%elem_of_seqZ. lia.
Qed.

Lemma chosen_Some (g : Graph) (sol : Solution) (w v t : Z) :
  chosen g sol w v = Some t ->
  In t (vout g v)
  /\ ((exists u, In u (vout g v) /\ get_winning_player sol u = w) ->
      get_winning_player sol t = w).
Proof.
  unfold chosen. destruct (first_won_by sol w (vout g v)) as [t'|] eqn:F.
  - intros [= ->]. destruct (first_won_by_Some _ _ _ _ F) as [H1 H2]. by split.
  - intros H. split.
    + destruct (vout g v) as [|x rest]; [done|]. injection H as ->. by left.
    + intros (u & Hu & Hw). by destruct (first_won_by_None _ _ _ F u Hu).
Qed.

Lemma chosen_is_Some (g : Graph) (sol : Solution) (w v : Z) :
  vout g v <> [] -> is_Some (chosen g sol w v).
Proof.
  intros Hne. unfold chosen. destruct (first_won_by sol w (vout g v)); [done|].
  by destruct (vout g v).
Qed.

Lemma validate_buchi_game_false (g : Graph) :
  (exists v, In v g /\ priority v <> 0 /\ priority v <> 1) ->
  validate_buchi_game g = false.
Proof.
  intros (v & Hin & H0 & H1). destruct (validate_buchi_game g) eqn:E; [|done].
  unfold validate_buchi_game in E. rewrite forallb_forall in E.
  specialize (E v Hin). lia.
Qed.

Lemma buechi_solve_cases (fuel : nat) (g : Graph) (target : gset Z) (i a : Z)
    (sol : Solution) (its attrs : Z) :
  buechi_solve fuel g target i a = Some (sol, its, attrs) ->
  sol = empty_solution \/ (validate_buchi_game g = true /\ 0 < num_vertices g).
Proof.
  intros E. destruct (validate_buchi_game g) eqn:Hv.
  - destruct (Z.eq_dec (num_vertices g) 0) as [Hz|Hz].
    + left. unfold buechi_solve in E. rewrite Hv, Hz in E. by injection E as <- _ _.
    + right. split; [done|]. unfold num_vertices in *. lia.
  - left. unfold buechi_solve in E. rewrite Hv in E. by injection E as <- _ _.
Qed.

Definition sol_buechi : Solution :=
  mkSolution {[0 := 1; 1 := 1; 2 := 0]} {[1 := 0; 2 := 2]}.

(** A game with a priority other than 0 and 1, and the game without
    vertices, get the empty solution, whatever the fuel; the counters of the
    solver object stay as they were. *)
Theorem buechi_solve_rejects (fuel : nat) (g : Graph) (target : gset Z) (i a : Z) :
  (exists v, In v g /\ priority v <> 0 /\ priority v <> 1) \/ g = [] ->
  buechi_solve fuel g target i a = Some (empty_solution, i, a).
Proof.
  intros [H| ->]; unfold buechi_solve; [|done].
  by rewrite (validate_buchi_game_false g H).
Qed.

Lemma buechi_solve_rejects_witness :
  buechi_solve 0 [mkVertex 0 2 [0]] {[0]} 4 9 = Some (empty_solution, 4, 9).
Proof.
  apply (buechi_solve_rejects 0 [mkVertex 0 2 [0]] {[0]} 4 9).
  left. exists (mkVertex 0 2 [0]). split; [by left|]. split; discriminate.
Defined.

(** On a game with priorities 0 and 1 only, fuel for one round per vertex
    is enough: [solve] returns, every vertex of the graph gets winner 0 or
    1, nothing else gets a winner, and the number of rounds of the main loop
    is at least one and at most the number of vertices. *)
Theorem buechi_solve_total (fuel : nat) (g : Graph) (target : gset Z) (i a : Z) :
  validate_buchi_game g = true -> (Z.to_nat (num_vertices g) <= fuel)%nat ->
  exists sol its attrs,
    buechi_solve fuel g target i a = Some (sol, its, attrs)
    /\ (forall v, 0 <= v < num_vertices g ->
                  winning_regions_ sol !! v = Some 0 \/ winning_regions_ sol !! v = Some 1)
    /\ (forall v, ~ 0 <= v < num_vertices g -> winning_regions_ sol !! v = None)
    /\ (0 < num_vertices g -> 0 < its <= num_vertices g /\ 0 <= attrs).
Proof.
  intros Hv Hf. destruct (Z.eq_dec (num_vertices g) 0) as [Hz|Hz].
  { exists empty_solution, i, a. unfold buechi_solve. rewrite Hv, Hz.
    split; [done|]. split; [intros; lia|]. split; [|lia].
    intros v _. apply lookup_empty. }
  destruct (buechi_loop_spec g target (list_to_set (nodes g)) fuel
              (list_to_set (nodes g)) empty_solution 0 0)
    as (sol0 & its & attrs & E & R & I1 & I2 & I3);
    [done|rewrite nodes_set_size; lia|apply undecided_ok_start|].
  rewrite nodes_set_size in I1, I2.
  exists (copy_strategy (fold_left (strategy_step g sol0) (nodes g) ∅) sol0), its, attrs.
  split.
  { unfold buechi_solve. rewrite Hv. cbn [negb].
    destruct (Z.eqb_spec (num_vertices g) 0) as [|_]; [lia|]. by rewrite E. }
  destruct (copy_strategy_spec (fold_left (strategy_step g sol0) (nodes g) ∅) sol0
              (proj1 R)) as [C1 _].
  rewrite C1. destruct R as (_ & W1 & R1 & R2 & R3 & R4 & _).
  split; [|split].
  - intros v Hr. destruct (decide (v ∈ W1)) as [H|H].
    + right. by apply R2.
    + left. apply R3; [by apply nodes_set_spec|done].
  - intros v Hr. apply R4. by rewrite nodes_set_spec.
  - unfold num_vertices in *. lia.
Qed.

Lemma buechi_solve_total_witness :
  exists sol its attrs,
    buechi_solve 3 g_buechi {[0]} 0 0 = Some (sol, its, attrs)
    /\ (forall v, 0 <= v < num_vertices g_buechi ->
                  winning_regions_ sol !! v = Some 0 \/ winning_regions_ sol !! v = Some 1)
    /\ (forall v, ~ 0 <= v < num_vertices g_buechi -> winning_regions_ sol !! v = None)
    /\ (0 < num_vertices g_buechi -> 0 < its <= num_vertices g_buechi /\ 0 <= attrs).
Proof.
  apply (buechi_solve_total 3 g_buechi {[0]} 0 0); [reflexivity|vm_compute; lia].
Defined.

(** A strategy entry of the solution belongs to a vertex of the graph that
    its owner wins, and is one of its successors; when some successor is won
    by the owner, the recorded one is. *)
Theorem buechi_strategy_sound (fuel : nat) (g : Graph) (target : gset Z) (i a : Z)
    (sol : Solution) (its attrs v t : Z) :
  buechi_solve fuel g target i a = Some (sol, its, attrs) ->
  strategy_ sol !! v = Some t ->
  0 <= v < num_vertices g /\ In t (vout g v)
  /\ get_winning_player sol v = vplayer g v
  /\ ((exists u, In u (vout g v) /\ get_winning_player sol u = vplayer g v) ->
      get_winning_player sol t = vplayer g v).
Proof.
  intros E Hs.
  destruct (buechi_solve_cases _ _ _ _ _ _ _ _ E) as [->|[Hv Hn]].
  { assert (Hl : strategy_ empty_solution !! v = None) by apply lookup_empty.
    congruence. }
  destruct (buechi_solve_result fuel g target i a sol its attrs Hv Hn E) as (_ & S & _).
  rewrite S in Hs. clear S E.
  destruct (Z.leb_spec 0 v), (Z.ltb_spec v (num_vertices g)); cbn [andb] in Hs; try done.
  split; [lia|]. unfold strategy_at in Hs.
  destruct (Z.eqb_spec (get_winning_player sol v) 0) as [E0|E0],
           (Z.eqb_spec (vplayer g v) 0) as [P0|P0]; cbn [andb] in Hs.
  - destruct (chosen_Some _ _ _ _ _ Hs) as [H1 H2]. by rewrite E0, P0.
  - destruct (Z.eqb_spec (get_winning_player sol v) 1) as [E1|E1],
             (Z.eqb_spec (vplayer g v) 1) as [P1|P1]; cbn [andb] in Hs; try done. lia.
  - destruct (Z.eqb_spec (get_winning_player sol v) 1) as [E1|E1],
             (Z.eqb_spec (vplayer g v) 1) as [P1|P1]; cbn [andb] in Hs; try done. lia.
  - destruct (Z.eqb_spec (get_winning_player sol v) 1) as [E1|E1],
             (Z.eqb_spec (vplayer g v) 1) as [P1|P1]; cbn [andb] in Hs; try done.
    destruct (chosen_Some _ _ _ _ _ Hs) as [H1 H2]. by rewrite E1, P1.
Qed.

Lemma buechi_strategy_sound_witness :
  0 <= 1 < num_vertices g_buechi /\ In 0 (vout g_buechi 1)
  /\ get_winning_player sol_buechi 1 = vplayer g_buechi 1
  /\ ((exists u, In u (vout g_buechi 1)
                 /\ get_winning_player sol_buechi u = vplayer g_buechi 1) ->
      get_winning_player sol_buechi 0 = vplayer g_buechi 1).
Proof.
  apply (buechi_strategy_sound 3 g_buechi {[0]} 0 0 sol_buechi 2 2 1 0);
    vm_compute; reflexivity.
Defined.

(** On a game with priorities 0 and 1 only, every vertex that its owner
    wins and that has a successor gets a strategy entry. *)
Theorem buechi_strategy_complete (fuel : nat) (g : Graph) (target : gset Z) (i a : Z)
    (sol : Solution) (its attrs v : Z) :
  validate_buchi_game g = true ->
  buechi_solve fuel g target i a = Some (sol, its, attrs) ->
  0 <= v < num_vertices g -> get_winning_player sol v = vplayer g v ->
  vout g v <> [] ->
  is_Some (strategy_ sol !! v).
Proof.
  intros Hv E Hr Hw Hout.
  destruct (buechi_solve_result fuel g target i a sol its attrs Hv ltac:(lia) E)
    as ((sol0 & R & C) & S & _).
  rewrite S. destruct (Z.leb_spec 0 v), (Z.ltb_spec v (num_vertices g)); try lia.
  cbn [andb]. unfold strategy_at. rewrite <- Hw.
  destruct R as (_ & W1 & R1 & R2 & R3 & R4 & _).
  assert (Hcase : get_winning_player sol v = 0 \/ get_winning_player sol v = 1).
  { unfold get_winning_player. rewrite C. destruct (decide (v ∈ W1)) as [Hin|Hin].
    - right. by rewrite (R2 v Hin).
    - left. by rewrite (R3 v ltac:(by apply nodes_set_spec) Hin). }
  destruct Hcase as [-> | ->]; cbn; by apply chosen_is_Some.
Qed.

Lemma buechi_strategy_complete_witness : is_Some (strategy_ sol_buechi !! 2).
Proof.
  apply (buechi_strategy_complete 3 g_buechi {[0]} 0 0 sol_buechi 2 2 2);
    [reflexivity|vm_compute; reflexivity|unfold num_vertices, g_buechi; simpl; lia
    |vm_compute; reflexivity|discriminate].
Defined.

(** The vertices that the solution gives to player 1 form a region in which
    player 1 attracts every vertex to the target set: from each of them the
    player reaches a target vertex without leaving the region, whatever the
    opponent does. *)
Theorem buechi_player1_region (fuel : nat) (g : Graph) (target : gset Z) (i a : Z)
    (sol : Solution) (its attrs : Z) :
  buechi_solve fuel g target i a = Some (sol, its, attrs) ->
  exists W1 : gset Z,
    (forall v, v ∈ W1 <-> winning_regions_ sol !! v = Some 1)
    /\ forall v, v ∈ W1 -> attracted g W1 1 target v.
Proof.
  intros E.
  destruct (buechi_solve_cases _ _ _ _ _ _ _ _ E) as [->|[Hv Hn]].
  { exists ∅. split; [|by intros v Hv%elem_of_empty].
    intros v. split; [by intros Hv%elem_of_empty|].
    assert (Hl : winning_regions_ empty_solution !! v = None) by apply lookup_empty.
    congruence. }
  destruct (buechi_solve_result fuel g target i a sol its attrs Hv Hn E)
    as ((sol0 & R & C) & _).
  destruct R as (_ & W1 & R1 & R2 & R3 & R4 & R5).
  exists W1. split; [|done]. intros v. rewrite C. split; [by apply R2|].
  intros Hl. destruct (decide (v ∈ W1)) as [|Hin]; [done|].
  destruct (decide (v ∈ (list_to_set (nodes g) : gset Z))) as [HV|HV].
  - by rewrite (R3 v HV Hin) in Hl.
  - by rewrite (R4 v HV) in Hl.
Qed.

Lemma buechi_player1_region_witness :
  exists W1 : gset Z,
    (forall v, v ∈ W1 <-> winning_regions_ sol_buechi !! v = Some 1)
    /\ forall v, v ∈ W1 -> attracted g_buechi W1 1 {[0]} v.
Proof.
  apply (buechi_player1_region 3 g_buechi {[0]} 0 0 sol_buechi 2 2).
  vm_compute. reflexivity.
Defined.

(** [compute_complement] returns exactly the active vertices that are not
    in the other set. *)
Theorem compute_complement_members (active inactive : gset Z) (v : Z) :
  v ∈ compute_complement active inactive <-> v ∈ active /\ v ∉ inactive.
Proof. rewrite compute_complement_spec. apply elem_of_difference. Qed.
